(** * solidity-upgrade: the rule catalogue and the convergence driver

    A shallow embedding of [tools/solidity_upgrade]: the change record
    ([UpgradeChange.h]), the text helpers of the upgrade suite
    ([UpgradeSuite.h]), the four detection rules ([Upgrade060.cpp]), the
    shipped catalogue ([Upgrade060.h]) and the driver
    ([SolidityUpgrade.cpp]).  The compiler front end (CompilerStack, the
    syntax tree, ContractLevelChecker) is an external collaborator: the
    answers the rules read from it are fields of the tree, and the
    compilation pipeline is an interface the driver is parameterised over. *)

From Stdlib Require Import ZArith Lia List Bool Ascii String.
Import ListNotations.
Open Scope string_scope.
Open Scope list_scope.

Set Implicit Arguments.

(** ** Exceptions

    C++ exceptions as seen by the handlers of [tryCompile]:
    [dev::Exception] and its subclasses, other [std::exception]s (with
    the result of [what()], which may be null), and anything else. *)

Inductive exn : Type :=
| DevException (diagnostic : string)
| StdException (what : option string)
| OtherException.

Inductive outcome (A : Type) : Type :=
| Ret (a : A)
| Throw (e : exn).

Arguments Ret {A} a.
Arguments Throw {A} e.

Definition obind {A B} (m : outcome A) (k : A -> outcome B) : outcome B :=
  match m with
  | Ret a => k a
  | Throw e => Throw e
  end.

Declare Scope outcome_scope.
Delimit Scope outcome_scope with outcome.
Notation "x <- m ;; k" := (obind m (fun x => k))
  (at level 61, m at next level, right associativity) : outcome_scope.

(** The rules run over nodes with a shared vector of changes; an
    exception leaves the traversal at once. *)
Fixpoint visitAll {A B} (f : A -> outcome (list B)) (l : list A)
  : outcome (list B) :=
  match l with
  | [] => Ret []
  | x :: r =>
      (xs <- f x ;; rs <- visitAll f r ;; Ret (xs ++ rs))%outcome
  end.

(** ** Strings and [std::string::substr] *)

Definition nl : string := String (ascii_of_nat 10) EmptyString.

Definition size (s : string) : Z := Z.of_nat (String.length s).

(** An [int] passed where [size_t] is expected (64 bits). *)
Definition to_size_t (z : Z) : Z := (z mod 2 ^ 64)%Z.

Definition out_of_range : exn := StdException (Some "basic_string::substr").

(** [s.substr(pos, count)]: throws when [pos > size()], and otherwise
    returns at most [count] characters from [pos] on. *)
Definition substr (s : string) (pos count : Z) : outcome string :=
  let p := to_size_t pos in
  let n := to_size_t count in
  if (size s <? p)%Z then Throw out_of_range
  else Ret (substring (Z.to_nat p) (Z.to_nat (Z.min n (size s - p))) s).

(** ** Source locations and change records *)

(** Modelled from the spec: the file of a location, its text and its
    name (liblangutil's CharStream.h is not among the sources). *)
Record CharStream : Type := mkCharStream
  { cs_source : string;
    cs_name : string }.

(** Modelled from the spec: the location of a node (liblangutil's
    SourceLocation.h is not among the sources): a file, a start byte
    offset and an exclusive end byte offset into the text of that
    file; the offsets are [int]s. *)
Record SourceLocation : Type := mkSourceLocation
  { loc_start : Z;
    loc_end : Z;
    loc_source : CharStream }.

Inductive Level : Type := Safe | Unsafe.

Definition Level_eqb (a b : Level) : bool :=
  match a, b with
  | Safe, Safe | Unsafe, Unsafe => true
  | _, _ => false
  end.

Record UpgradeChange : Type := mkUpgradeChange
  { m_location : SourceLocation;
    m_source : string;
    m_patch : string;
    m_level : Level }.

(** The constructor [UpgradeChange(_level, _location, _patch)]. *)
Definition newUpgradeChange (lvl : Level) (loc : SourceLocation)
  (patch : string) : UpgradeChange :=
  {| m_location := loc;
     m_source := cs_source (loc_source loc);
     m_patch := patch;
     m_level := lvl |}.

(** [location.source->source().substr(location.start, location.end - location.start)] *)
Definition codeAt (loc : SourceLocation) : outcome string :=
  substr (cs_source (loc_source loc)) (loc_start loc)
    (loc_end loc - loc_start loc)%Z.

(** Modelled from the spec: [UpgradeChange::apply] (UpgradeChange.cpp is
    not among the sources): replaces the byte range [start, end) of the
    record's source text with the replacement text.  A range that
    leaves the text is treated as [std::string::replace] treats it: a
    start behind the end of the text throws, a length beyond it is cut
    off. *)
Definition apply (c : UpgradeChange) : outcome UpgradeChange :=
  let loc := m_location c in
  let p := to_size_t (loc_start loc) in
  let n :=
    Z.min (to_size_t (loc_end loc - loc_start loc)) (size (m_source c) - p) in
  if (size (m_source c) <? p)%Z then Throw out_of_range
  else
    Ret {| m_location := loc;
           m_source :=
             (substring 0 (Z.to_nat p) (m_source c)
              ++ m_patch c
              ++ substring (Z.to_nat (p + n))
                   (String.length (m_source c)) (m_source c))%string;
           m_patch := m_patch c;
           m_level := m_level c |}.

(** ** The regular expressions of [UpgradeSuite.h]

    Both expressions have the shape [(\bKEYWORD\b)], the first one
    followed by [$].  KEYWORD is the result of
    [Declaration::visibilityToString]: a non-empty literal of word
    characters; the replacement format holds no [$].  The ECMAScript
    anchor [$] holds at the end of the input and, in an engine that
    treats the input as lines, before a line terminator: [multiline]
    says which engine runs. *)

Section Regex.

Variable multiline : bool.

Definition isWordChar (c : ascii) : bool :=
  let n := nat_of_ascii c in
  ((48 <=? n) && (n <=? 57)
   || (65 <=? n) && (n <=? 90)
   || (97 <=? n) && (n <=? 122)
   || (n =? 95))%nat.

Definition isLineTerminator (c : ascii) : bool :=
  ((nat_of_ascii c =? 10) || (nat_of_ascii c =? 13))%nat.

Definition isWord (c : option ascii) : bool :=
  match c with
  | Some a => isWordChar a
  | None => false
  end.

Definition first (s : string) : option ascii :=
  match s with
  | EmptyString => None
  | String c _ => Some c
  end.

Fixpoint lastOr (prev : option ascii) (s : string) : option ascii :=
  match s with
  | EmptyString => prev
  | String c t => lastOr (Some c) t
  end.

(** [\b] between the character before and the rest of the input *)
Definition wordBoundary (prev : option ascii) (rest : string) : bool :=
  xorb (isWord prev) (isWord (first rest)).

Fixpoint stripPrefix (kw s : string) : option string :=
  match kw, s with
  | EmptyString, _ => Some s
  | String a kw', String b s' =>
      if Ascii.eqb a b then stripPrefix kw' s' else None
  | String _ _, EmptyString => None
  end.

(** [\bkw\b] at the current position; the rest of the input after the
    match *)
Definition matchWord (kw : string) (prev : option ascii) (s : string)
  : option string :=
  if wordBoundary prev s then
    match stripPrefix kw s with
    | Some rest =>
        if wordBoundary (lastOr prev kw) rest then Some rest else None
    | None => None
    end
  else None.

(** [$] *)
Definition atEnd (rest : string) : bool :=
  match rest with
  | EmptyString => true
  | String c _ => multiline && isLineTerminator c
  end.

(** [regex_search(s, (\bkw\b$))]: a match from some position on *)
Fixpoint searchWordAtEnd (kw : string) (prev : option ascii) (s : string)
  : bool :=
  match matchWord kw prev s with
  | Some rest => atEnd rest
  | None => false
  end
  || match s with
     | EmptyString => false
     | String c t => searchWordAtEnd kw (Some c) t
     end.

(** [regex_replace(s, (\bkw\b), fmt)]: every match, left to right and
    not overlapping, gives way to [fmt]; [skip] counts the characters
    of a match still to pass. *)
Fixpoint replaceWord (kw fmt : string) (prev : option ascii) (skip : nat)
  (s : string) : string :=
  match s with
  | EmptyString => EmptyString
  | String c t =>
      match skip with
      | S k => replaceWord kw fmt (Some c) k t
      | O =>
          match matchWord kw prev s with
          | Some _ =>
              (fmt ++ replaceWord kw fmt (Some c) (String.length kw - 1) t)%string
          | None => String c (replaceWord kw fmt (Some c) 0 t)
          end
      end
  end.

Definition regex_replace (s kw fmt : string) : string :=
  replaceWord kw fmt None 0 s.

(** [util::isMultiline] *)
Definition isMultiline (_functionSource _keyword : string) : bool :=
  searchWordAtEnd _keyword None _functionSource.

(** [util::placeAfterFunctionHeaderKeyword] *)
Definition placeAfterFunctionHeaderKeyword (_location : SourceLocation)
  (_headerKeyword _keyword : string) : outcome string :=
  (codeBefore <- codeAt _location ;;
   let toAppend :=
     if isMultiline codeBefore _headerKeyword
     then (nl ++ _keyword)%string else (" " ++ _keyword)%string in
   Ret (regex_replace codeBefore _headerKeyword
          (_headerKeyword ++ toAppend)%string))%outcome.

End Regex.

(** ** The syntax tree, as far as the rules read it

    The node kinds the rules dispatch on, and one constructor for every
    other kind.  The answers of the front end are fields: a contract's
    annotation, a function's modifiers, and for a function the range
    [funcSet.equal_range(function)] of the inherited functions that
    [ContractLevelChecker] computes for its contract. *)

(** The result of [FunctionDefinition::visibility()], which resolves
    the default. *)
Inductive Visibility : Type := Private | Internal | Public | External.

(** Modelled from the spec: [Declaration::visibilityToString] (AST.h is
    not among the sources) on the result of [visibility()]: the
    visibility keyword of the function header. *)
Definition visibilityToString (v : Visibility) : string :=
  match v with
  | Public => "public"
  | Internal => "internal"
  | Private => "private"
  | External => "external"
  end.

(** One inherited function [super] of the range, with the two answers
    the rule asks for. *)
Record SuperFunction : Type := mkSuperFunction
  { (** [functionType && functionType->hasEqualParameterTypes( *superType)] *)
    super_hasEqualParameterTypes : bool;
    super_virtualSemantics : bool }.

Record FunctionInfo : Type := mkFunctionInfo
  { fn_location : SourceLocation;
    fn_isConstructor : bool;
    fn_overrides : bool;
    fn_virtualSemantics : bool;
    fn_visibility : Visibility;
    fn_inherited : list SuperFunction }.

Record ContractInfo : Type := mkContractInfo
  { ct_location : SourceLocation;
    ct_unimplementedFunctions : list string;
    ct_abstract : bool;
    ct_isInterface : bool }.

Record MemberAccessInfo : Type := mkMemberAccessInfo
  { (** [expression().annotation().type] is an [ArrayType] *)
    ma_expressionIsArrayType : bool;
    ma_memberName : string;
    ma_lValueRequested : bool }.

(** Modelled from the spec: the syntax tree (libsolidity's AST.h is not
    among the sources): nodes with a location and a visitor dispatch
    keyed by node kind, the kinds being at least the contract, the
    function, the assignment and the member access. *)
#[warnings="-register-all"]
Inductive ASTNode : Type :=
| ContractDefinition (c : ContractInfo) (subNodes : list ASTNode)
| FunctionDefinition (f : FunctionInfo) (children : list ASTNode)
| Assignment (location : SourceLocation) (leftHandSide rightHandSide : ASTNode)
| MemberAccess (m : MemberAccessInfo) (expression : ASTNode)
| OtherNode (children : list ASTNode).

Definition SourceUnit : Type := list ASTNode.

(** [accept]: a node's children are visited before [endVisit] is called
    on the node itself. *)
Fixpoint endVisitOrder (n : ASTNode) : list ASTNode :=
  match n with
  | ContractDefinition _ subNodes => flat_map endVisitOrder subNodes ++ [n]
  | FunctionDefinition _ children => flat_map endVisitOrder children ++ [n]
  | Assignment _ l r => endVisitOrder l ++ endVisitOrder r ++ [n]
  | MemberAccess _ e => endVisitOrder e ++ [n]
  | OtherNode children => flat_map endVisitOrder children ++ [n]
  end.

Definition accept (su : SourceUnit) : list ASTNode :=
  flat_map endVisitOrder su.

(** [ContractDefinition::definedFunctions] *)
Fixpoint definedFunctions (subNodes : list ASTNode) : list FunctionInfo :=
  match subNodes with
  | [] => []
  | FunctionDefinition f _ :: r => f :: definedFunctions r
  | _ :: r => definedFunctions r
  end.

(** ** The rules of [Upgrade060.cpp] *)

Section Rules.

Variable multiline : bool.

Definition isTrigger_AbstractContract (c : ContractInfo) : bool :=
  let isFullyImplemented :=
    match ct_unimplementedFunctions c with [] => true | _ => false end in
  negb isFullyImplemented && negb (ct_abstract c) && negb (ct_isInterface c).

(** [AbstractContract::endVisit(ContractDefinition const&)] *)
Definition AbstractContract_endVisit (n : ASTNode)
  : outcome (list UpgradeChange) :=
  match n with
  | ContractDefinition c _ =>
      if isTrigger_AbstractContract c then
        (let location := ct_location c in
         codeBefore <- codeAt location ;;
         let codeAfter := ("abstract " ++ codeBefore)%string in
         Ret [newUpgradeChange Safe location codeAfter])%outcome
      else Ret []
  | _ => Ret []
  end.

(** The body of the loop over the range of inherited functions. *)
Definition OverridingFunction_super (function : FunctionInfo)
  (super : SuperFunction) : outcome (list UpgradeChange) :=
  (overrides <-
     (if super_hasEqualParameterTypes super
         && negb (fn_overrides function)
      then
        codeAfter <- placeAfterFunctionHeaderKeyword multiline
                       (fn_location function)
                       (visibilityToString (fn_visibility function))
                       "override" ;;
        Ret [newUpgradeChange Unsafe (fn_location function) codeAfter]
      else Ret []) ;;
   virtuals <-
     (if negb (super_virtualSemantics super)
      then
        codeAfter <- placeAfterFunctionHeaderKeyword multiline
                       (fn_location function)
                       (visibilityToString (fn_visibility function))
                       "virtual" ;;
        Ret [newUpgradeChange Unsafe (fn_location function) codeAfter]
      else Ret []) ;;
   Ret (overrides ++ virtuals))%outcome.

Definition OverridingFunction_function (function : FunctionInfo)
  : outcome (list UpgradeChange) :=
  if negb (fn_isConstructor function)
  then visitAll (OverridingFunction_super function) (fn_inherited function)
  else Ret [].

(** [OverridingFunction::endVisit(ContractDefinition const&)] *)
Definition OverridingFunction_endVisit (n : ASTNode)
  : outcome (list UpgradeChange) :=
  match n with
  | ContractDefinition _ subNodes =>
      visitAll OverridingFunction_function (definedFunctions subNodes)
  | _ => Ret []
  end.

(** [VirtualFunction::endVisit(FunctionDefinition const&)] *)
Definition VirtualFunction_endVisit (n : ASTNode)
  : outcome (list UpgradeChange) :=
  match n with
  | FunctionDefinition _function _ =>
      if negb (fn_virtualSemantics _function) then
        (codeAfter <- placeAfterFunctionHeaderKeyword multiline
                        (fn_location _function)
                        (visibilityToString (fn_visibility _function))
                        "virtual" ;;
         Ret [newUpgradeChange Unsafe (fn_location _function) codeAfter]
        )%outcome
      else Ret []
  | _ => Ret []
  end.

Definition isTrigger_ArrayLength (n : ASTNode) : bool :=
  match n with
  | Assignment _ (MemberAccess memberAccess _) _ =>
      ma_expressionIsArrayType memberAccess
      && String.eqb (ma_memberName memberAccess) "length"
      && ma_lValueRequested memberAccess
  | _ => false
  end.

(** [ArrayLength::endVisit(Assignment const&)]; the text [patch] is
    extracted and not used. *)
Definition ArrayLength_endVisit (n : ASTNode)
  : outcome (list UpgradeChange) :=
  match n with
  | Assignment location _ _ =>
      if isTrigger_ArrayLength n then
        (patch <- substr (cs_source (loc_source location))
                    (loc_start location) (loc_end location) ;;
         Ret [newUpgradeChange Unsafe location ""])%outcome
      else Ret []
  | _ => Ret []
  end.

(** [analyze(SourceUnit const&)] of a rule: [_sourceUnit.accept( *this)] *)
Definition AbstractContract_analyze (su : SourceUnit) :=
  visitAll AbstractContract_endVisit (accept su).
Definition OverridingFunction_analyze (su : SourceUnit) :=
  visitAll OverridingFunction_endVisit (accept su).
Definition VirtualFunction_analyze (su : SourceUnit) :=
  visitAll VirtualFunction_endVisit (accept su).
Definition ArrayLength_analyze (su : SourceUnit) :=
  visitAll ArrayLength_endVisit (accept su).

(** [Upgrade060::analyze]: the catalogue that ships.  The rules push
    to the caller's vector, which is empty at every call site. *)
Definition Upgrade060_analyze (_sourceUnit : SourceUnit)
  : outcome (list UpgradeChange) :=
  (abstracts <- AbstractContract_analyze _sourceUnit ;;
   overridings <- OverridingFunction_analyze _sourceUnit ;;
   virtuals <- VirtualFunction_analyze _sourceUnit ;;
   Ret (abstracts ++ overridings ++ virtuals))%outcome.

End Rules.

(** ** What a rule reads, stated apart from the traversal *)

Definition isSafe (c : UpgradeChange) : bool := Level_eqb (m_level c) Safe.
Definition isUnsafe (c : UpgradeChange) : bool := Level_eqb (m_level c) Unsafe.

(** A location whose start lies in its source text: [substr] returns. *)
Definition validLocation (loc : SourceLocation) : Prop :=
  (0 <= loc_start loc <= size (cs_source (loc_source loc)))%Z.

(** The text a location extracts (empty where [substr] throws). *)
Definition textOf (loc : SourceLocation) : string :=
  match codeAt loc with
  | Ret s => s
  | Throw _ => ""
  end.

Definition nodeLocation (n : ASTNode) : option SourceLocation :=
  match n with
  | ContractDefinition c _ => Some (ct_location c)
  | FunctionDefinition f _ => Some (fn_location f)
  | Assignment location _ _ => Some location
  | MemberAccess _ _ | OtherNode _ => None
  end.

(** Every contract, function and assignment of the unit has a valid
    location. *)
Definition wellLocated (su : SourceUnit) : Prop :=
  forall n loc,
    In n (accept su) -> nodeLocation n = Some loc -> validLocation loc.

(** The contracts of a unit, in the order their [endVisit] runs. *)
Definition contracts (su : SourceUnit) : list ContractInfo :=
  flat_map
    (fun n => match n with ContractDefinition c _ => [c] | _ => [] end)
    (accept su).

(** The assignments of a unit that the array-length rule flags. *)
Definition lengthAssignments (su : SourceUnit) : list SourceLocation :=
  flat_map
    (fun n =>
       match n with
       | Assignment location _ _ =>
           if isTrigger_ArrayLength n then [location] else []
       | _ => []
       end)
    (accept su).

Definition abstractRecord (c : ContractInfo) : UpgradeChange :=
  newUpgradeChange Safe (ct_location c)
    ("abstract " ++ textOf (ct_location c))%string.

(** A record that only adds: its replacement holds the text of its
    range as one piece. *)
Definition additionOnly (c : UpgradeChange) : Prop :=
  exists original before after : string,
    codeAt (m_location c) = Ret original
    /\ m_patch c = (before ++ original ++ after)%string.

(** The rules as the visitor dispatches them. *)
Definition rules (multiline : bool)
  : list (ASTNode -> outcome (list UpgradeChange)) :=
  [ AbstractContract_endVisit;
    OverridingFunction_endVisit multiline;
    VirtualFunction_endVisit multiline;
    ArrayLength_endVisit ].

(** ** The driver of [SolidityUpgrade.cpp]: data *)

(** [std::map<std::string, V>]: the entries in key order. *)
Definition StringMap (V : Type) : Type := list (string * V).

Fixpoint lookup {V} (k : string) (m : StringMap V) : option V :=
  match m with
  | [] => None
  | (k', v) :: r => if String.eqb k k' then Some v else lookup k r
  end.

(** [m[k] = v] *)
Fixpoint assign {V} (k : string) (v : V) (m : StringMap V) : StringMap V :=
  match m with
  | [] => [(k, v)]
  | (k', v') :: r =>
      if String.eqb k k' then (k, v) :: r
      else if String.ltb k k' then (k, v) :: m
      else (k', v') :: assign k v r
  end.

Definition Sources : Type := StringMap string.

(** The file system: what [exists], [is_regular_file] and
    [readFileAsString] answer for a path.  A file is known by the one
    path under which it is kept: two paths that lead to the same file
    are two entries. *)
Inductive File : Type :=
| Regular (contents : string)
| NotRegular.

Definition Disk : Type := StringMap File.

(** [ofstream file(_path, ios::trunc)]: whether the stream opens.  It
    does not on a path that is no regular file, nor on a path of
    [unwritable], the paths on which the environment lets no stream
    open for writing (a read-only file, a file in a directory that is
    missing or closed). *)
Definition opens (unwritable : list string) (path : string) (disk : Disk)
  : bool :=
  negb (existsb (String.eqb path) unwritable)
  && match lookup path disk with
     | Some NotRegular => false
     | _ => true
     end.

(** [ofstream file(_path, ios::trunc); file << _source;]: a stream that
    opens leaves a regular file with the text written, created where
    there was none; a stream that fails to open writes nothing, and
    the code does not ask. *)
Definition writeFile (unwritable : list string) (path contents : string)
  (disk : Disk) : Disk :=
  if opens unwritable path disk then assign path (Regular contents) disk
  else disk.

(** Modelled from the spec: the pipeline-progress enum of the front end
    ([CompilerStack::State]; CompilerStack.h is not among the sources).
    The driver compares it with [AnalysisPerformed] and
    [CompilationSuccessful]. *)
Inductive State : Type :=
| Empty | SourcesSet | ParsingPerformed | AnalysisPerformed
| CompilationSuccessful.

Definition State_rank (s : State) : nat :=
  match s with
  | Empty => 0
  | SourcesSet => 1
  | ParsingPerformed => 2
  | AnalysisPerformed => 3
  | CompilationSuccessful => 4
  end.

(** [a >= b] *)
Definition State_geb (a b : State) : bool :=
  (State_rank b <=? State_rank a)%nat.

Inductive ErrorType : Type := Warning | OtherErrorType.

Record Error : Type := mkError
  { error_type : ErrorType;
    error_message : string }.

Definition isWarning (e : Error) : bool :=
  match error_type e with Warning => true | OtherErrorType => false end.

(** Modelled from the spec: the front end, as the driver calls it
    (CompilerStack.h is not among the sources).  [parse], [analyze] and
    [compile] may throw and leave the stack in the state they reached;
    [parse] also reports the entries the read callback of
    [processInput] stored in [m_sourceCodes] while imports were
    loaded. *)
Class FrontEnd (CompilerStack : Type) : Type :=
  { newCompilerStack : CompilerStack;
    reset : CompilerStack -> CompilerStack;
    setSources : Sources -> CompilerStack -> CompilerStack;
    setParserErrorRecovery : bool -> CompilerStack -> CompilerStack;
    parse : Disk -> CompilerStack -> outcome bool * CompilerStack * Sources;
    analyze : CompilerStack -> outcome bool * CompilerStack;
    compile : CompilerStack -> outcome unit * CompilerStack;
    state : CompilerStack -> State;
    errors : CompilerStack -> list Error;
    ast : CompilerStack -> string -> outcome SourceUnit }.

(** [m_args], as far as [processInput] reads it. *)
Record Args : Type := mkArgs
  { argAcceptSafe : bool;
    argAcceptUnsafe : bool;
    argShortLog : bool;
    argIgnoreMissingFiles : bool;
    argInputFile : list string }.

(** What a run does, in order: console output, and the calls into the
    catalogue, the change records, the file system and the compiler. *)
Inductive Event : Type :=
| Cout (text : string)
| LogChange (change : UpgradeChange) (shorten : bool)
| PrintErrorInformation (error : Error)
| RunCatalog (file : string)
| ApplyChange (file : string) (change : UpgradeChange)
| WriteInputFile (path source : string)
| ResetCompiler (sources : Sources)
| TryCompile.

(** [cout << path] for a [boost::filesystem::path]: the path between
    double quotes, by [boost::io::quoted] with the escape character
    [&] before every double quote and every [&] of the path. *)
Definition doubleQuote : ascii := ascii_of_nat 34.

Fixpoint escaped (s : string) : string :=
  match s with
  | EmptyString => EmptyString
  | String c t =>
      if Ascii.eqb c doubleQuote || Ascii.eqb c "&"%char
      then String "&"%char (String c (escaped t))
      else String c (escaped t)
  end.

Definition quoted (s : string) : string :=
  String doubleQuote (escaped s ++ String doubleQuote EmptyString).

(** The members of [SolidityUpgrade] that the driver uses, the file
    system around it ([disk], [unwritable]) and what the run did so
    far ([trace]). *)
Record Driver (CompilerStack : Type) : Type := mkDriver
  { m_args : Args;
    m_sourceCodes : Sources;
    m_compiler : CompilerStack;
    disk : Disk;
    unwritable : list string;
    trace : list Event }.

Arguments mkDriver {CompilerStack}.

(** ** The driver: a state monad with exceptions *)

Section DriverMonad.

Context {CS : Type}.

Definition M (A : Type) : Type := Driver CS -> outcome A * Driver CS.

Definition ret {A} (a : A) : M A := fun d => (Ret a, d).

Definition throw {A} (e : exn) : M A := fun d => (Throw e, d).

Definition bind {A B} (m : M A) (k : A -> M B) : M B :=
  fun d =>
    match m d with
    | (Ret a, d') => k a d'
    | (Throw e, d') => (Throw e, d')
    end.

Definition lift {A} (o : outcome A) : M A := fun d => (o, d).

Definition get : M (Driver CS) := fun d => (Ret d, d).

Definition emit (e : Event) : M unit :=
  fun d =>
    (Ret tt,
     mkDriver (m_args d) (m_sourceCodes d) (m_compiler d) (disk d)
       (unwritable d) (trace d ++ [e])).

Definition setSourceCode (k v : string) : M unit :=
  fun d =>
    (Ret tt,
     mkDriver (m_args d) (assign k v (m_sourceCodes d)) (m_compiler d)
       (disk d) (unwritable d) (trace d)).

Definition setCompiler (c : CS) : M unit :=
  fun d =>
    (Ret tt,
     mkDriver (m_args d) (m_sourceCodes d) c (disk d) (unwritable d)
       (trace d)).

Definition setDisk (k : Disk) : M unit :=
  fun d =>
    (Ret tt,
     mkDriver (m_args d) (m_sourceCodes d) (m_compiler d) k (unwritable d)
       (trace d)).

(** A [catch] clause: the exceptions its type admits, and its body. *)
Record Handler : Type := Catch
  { admits : exn -> bool;
    handle : exn -> M unit }.

(** The first clause that admits the exception runs; with none, the
    exception leaves the [try] statement. *)
Fixpoint dispatch (handlers : list Handler) (e : exn) : M unit :=
  match handlers with
  | [] => throw e
  | h :: r => if admits h e then handle h e else dispatch r e
  end.

Definition try_ (body : M unit) (handlers : list Handler) : M unit :=
  fun d =>
    match body d with
    | (Ret a, d') => (Ret a, d')
    | (Throw e, d') => dispatch handlers e d'
    end.

(** A range-based [for] over a container, left at the first exception. *)
Fixpoint forEach {A} (l : list A) (body : A -> M unit) : M unit :=
  match l with
  | [] => ret tt
  | x :: r => bind (body x) (fun _ => forEach r body)
  end.

End DriverMonad.

Declare Scope driver_scope.
Delimit Scope driver_scope with driver.
Notation "x <- m ;; k" := (bind m (fun x => k))
  (at level 61, m at next level, right associativity) : driver_scope.
Notation "m ;; k" := (bind m (fun _ => k))
  (at level 61, right associativity) : driver_scope.

(** [catch (Exception const&)], [catch (std::exception const&)] and
    [catch (...)]: [dev::Exception] derives from [std::exception]. *)
Definition isException (e : exn) : bool :=
  match e with DevException _ => true | _ => false end.

Definition isStdException (e : exn) : bool :=
  match e with DevException _ | StdException _ => true | OtherException => false end.

Definition isAnything (e : exn) : bool := true.

(** [boost::diagnostic_information(_exception)] and [_e.what()] *)
Definition diagnostic_information (e : exn) : string :=
  match e with
  | DevException d => d
  | StdException (Some w) => w
  | _ => ""
  end.

Definition what (e : exn) : option string :=
  match e with
  | DevException d => Some d
  | StdException w => w
  | OtherException => None
  end.

(** ** The driver: the member functions of [SolidityUpgrade] *)

Section SolidityUpgrade.

Context {CS : Type} {frontEnd : FrontEnd CS}.
Variable multiline : bool.

Local Open Scope driver_scope.

(** [printErrors] *)
Definition printErrors : M (CS := CS) unit :=
  emit (Cout "Compilation errors that solidity-upgrade may resolve occurred.") ;;
  d <- get ;;
  forEach (errors (m_compiler d))
    (fun error =>
       if negb (isWarning error) then emit (PrintErrorInformation error)
       else ret tt).

(** [printUnresolvableErrors] *)
Definition printUnresolvableErrors : M (CS := CS) unit :=
  emit (Cout "Compilation errors that solidity-upgrade cannot resolve occurred.") ;;
  d <- get ;;
  forEach (errors (m_compiler d))
    (fun error =>
       if negb (isWarning error) then emit (PrintErrorInformation error)
       else ret tt).

(** The calls into the front end: the stack is kept as the call left
    it, and what the read callback stored goes to [m_sourceCodes]. *)
Definition callParse : M (CS := CS) bool :=
  fun d =>
    let '(result, stack, loaded) := parse (disk d) (m_compiler d) in
    (result,
     mkDriver (m_args d)
       (fold_left (fun m kv => assign (fst kv) (snd kv) m) loaded
          (m_sourceCodes d))
       stack (disk d) (unwritable d) (trace d)).

Definition callAnalyze : M (CS := CS) bool :=
  fun d =>
    let '(result, stack) := analyze (m_compiler d) in
    (result,
     mkDriver (m_args d) (m_sourceCodes d) stack (disk d) (unwritable d)
       (trace d)).

Definition callCompile : M (CS := CS) unit :=
  fun d =>
    let '(result, stack) := compile (m_compiler d) in
    (result,
     mkDriver (m_args d) (m_sourceCodes d) stack (disk d) (unwritable d)
       (trace d)).

(** The [try] block of [tryCompile] *)
Definition compilationPhases : M (CS := CS) unit :=
  parsed <- callParse ;;
  if parsed then
    analyzed <- callAnalyze ;;
    if analyzed then callCompile else printErrors
  else printUnresolvableErrors.

(** The [catch] clauses of [tryCompile], in their order *)
Definition compilationHandlers : list (Handler (CS := CS)) :=
  [ Catch isException
      (fun _exception =>
         emit (Cout ("Exception during compilation: "
                     ++ diagnostic_information _exception)%string));
    Catch isStdException
      (fun _e =>
         emit (Cout match what _e with
                    | Some w => (": " ++ w)%string
                    | None => "."
                    end));
    Catch isAnything
      (fun _ => emit (Cout "Unknown exception during compilation.")) ].

(** [tryCompile] *)
Definition tryCompile : M (CS := CS) unit :=
  emit TryCompile ;;
  emit (Cout "Running compilation phases...") ;;
  try_ compilationPhases compilationHandlers.

(** [resetCompiler()] *)
Definition resetCompiler : M (CS := CS) unit :=
  d <- get ;;
  emit (ResetCompiler (m_sourceCodes d)) ;;
  setCompiler
    (setParserErrorRecovery true
       (setSources (m_sourceCodes d) (reset (m_compiler d)))).

(** [resetCompiler(_callback)] *)
Definition resetCompilerWith : M (CS := CS) unit :=
  d <- get ;;
  emit (ResetCompiler (m_sourceCodes d)) ;;
  setCompiler
    (setParserErrorRecovery true
       (setSources (m_sourceCodes d) newCompilerStack)).

(** [writeInputFile] *)
Definition writeInputFile (_path _source : string) : M (CS := CS) bool :=
  emit (Cout "") ;;
  emit (Cout ("Writing to input file " ++ _path ++ "...")%string) ;;
  emit (WriteInputFile _path _source) ;;
  d <- get ;;
  setDisk (writeFile (unwritable d) _path _source (disk d)) ;;
  ret true.

(** The loop of [readInputFiles] over the paths given.  The status
    queries [exists] and [is_regular_file] and the call of [canonical]
    are taken to answer: a query that fails, and throws, is outside
    this model of the file system. *)
Fixpoint readInputFiles_paths (paths : list string) : M (CS := CS) bool :=
  match paths with
  | [] => ret true
  | path :: rest =>
      d <- get ;;
      let ignoreMissing := argIgnoreMissingFiles (m_args d) in
      match lookup path (disk d) with
      | None =>
          if negb ignoreMissing then
            emit (Cout (quoted path ++ " is not found.")%string) ;; ret false
          else
            emit (Cout (quoted path ++ " is not found. Skipping.")%string) ;;
            readInputFiles_paths rest
      | Some NotRegular =>
          if negb ignoreMissing then
            emit (Cout (quoted path ++ " is not a valid file.")%string) ;; ret false
          else
            emit (Cout (quoted path ++ " is not a valid file. Skipping.")%string) ;;
            readInputFiles_paths rest
      | Some (Regular contents) =>
          setSourceCode path contents ;;
          readInputFiles_paths rest
      end
  end.

(** [readInputFiles] *)
Definition readInputFiles : M (CS := CS) bool :=
  d <- get ;;
  allRead <- readInputFiles_paths (argInputFile (m_args d)) ;;
  if negb allRead then ret false
  else
    d <- get ;;
    match m_sourceCodes d with
    | [] =>
        emit (Cout ("No input files given. If you wish to use the standard input please specify "
                    ++ quoted "-" ++ " explicitly.")%string) ;;
        ret false
    | _ => ret true
    end.

(** The changes of one file: [Upgrade060{}.analyze(m_compiler->ast(name), ...)] *)
Definition runCatalog (name : string) : M (CS := CS) (list UpgradeChange) :=
  d <- get ;;
  sourceUnit <- lift (ast (m_compiler d) name) ;;
  emit (RunCatalog name) ;;
  lift (Upgrade060_analyze multiline sourceUnit).

(** [analyzeAndLog] *)
Definition analyzeAndLog (_sourceCode : string * string) : M (CS := CS) unit :=
  emit (Cout ("Analyzing " ++ fst _sourceCode ++ "...")%string) ;;
  d <- get ;;
  changes <-
    (if State_geb (state (m_compiler d)) AnalysisPerformed
     then runCatalog (fst _sourceCode)
     else ret []) ;;
  match changes with
  | [] => ret tt
  | _ =>
      emit (Cout "Found upgrades which can be done by solidity-upgrade automatically.") ;;
      forEach changes
        (fun change => emit (LogChange change (argShortLog (m_args d))))
  end.

(** The lambda [applyChanges] of [analyzeAndUpgrade] *)
Definition applyChanges (_sourceCode : string * string)
  (_change : UpgradeChange) : M (CS := CS) unit :=
  emit (ApplyChange (fst _sourceCode) _change) ;;
  applied <- lift (apply _change) ;;
  setSourceCode (fst _sourceCode) (m_source applied) ;;
  _ <- writeInputFile (fst _sourceCode) (m_source applied) ;;
  ret tt.

(** [analyzeAndUpgrade] *)
Definition analyzeAndUpgrade (_sourceCode : string * string)
  : M (CS := CS) (bool * bool) :=
  emit (Cout ("Analyzing and upgrading " ++ fst _sourceCode ++ "...")%string) ;;
  changes <- runCatalog (fst _sourceCode) ;;
  d <- get ;;
  match changes with
  | change :: _ =>
      emit (LogChange change (argShortLog (m_args d))) ;;
      match m_level change with
      | Safe =>
          if argAcceptSafe (m_args d) then
            applyChanges _sourceCode change ;; ret (true, true)
          else ret (false, false)
      | Unsafe =>
          if argAcceptUnsafe (m_args d) then
            applyChanges _sourceCode change ;; ret (true, true)
          else ret (false, false)
      end
  | [] => ret (false, false)
  end.

(** The [for] loop of [acceptUpgrade] over [m_sourceCodes], left by
    [break] when a file asks for a recompilation. *)
Fixpoint upgradeFiles (sourceCodes : Sources) (recompile changesFound : bool)
  : M (CS := CS) (bool * bool) :=
  match sourceCodes with
  | [] => ret (recompile, changesFound)
  | sourceCode :: rest =>
      result <- analyzeAndUpgrade sourceCode ;;
      let recompile := fst result in
      let changesFound := changesFound || snd result in
      if recompile then ret (recompile, changesFound)
      else upgradeFiles rest recompile changesFound
  end.

(** One turn of the [while] loop of [acceptUpgrade]: the new values of
    [recompile] and [terminate]. *)
Definition acceptUpgrade_iteration (recompile : bool)
  : M (CS := CS) (bool * bool) :=
  d <- get ;;
  found <- upgradeFiles (m_sourceCodes d) recompile false ;;
  let recompile := fst found in
  let terminate := negb (snd found) in
  (if recompile then resetCompiler ;; tryCompile else ret tt) ;;
  ret (recompile, terminate).

(** The [while] loop of [acceptUpgrade].  The loop has no bound of its
    own: [fuel] bounds the turns, and [None] says it ran out. *)
Fixpoint acceptUpgrade_loop (fuel : nat) (recompile terminate : bool)
  (d : Driver CS) : option (outcome unit) * Driver CS :=
  if negb terminate
     && negb match errors (m_compiler d) with [] => true | _ => false end
  then
    match fuel with
    | O => (None, d)
    | S fuel' =>
        match acceptUpgrade_iteration recompile d with
        | (Ret (recompile', terminate'), d') =>
            acceptUpgrade_loop fuel' recompile' terminate' d'
        | (Throw e, d') => (Some (Throw e), d')
        end
    end
  else (Some (Ret tt), d).

(** [acceptUpgrade] *)
Definition acceptUpgrade (fuel : nat) (d : Driver CS)
  : option (outcome unit) * Driver CS :=
  acceptUpgrade_loop fuel false false d.

(** The part of [processInput] after the first compilation: changes are
    applied one by one, or logged only. *)
Definition upgradeOrLog (fuel : nat) (d : Driver CS)
  : option (outcome unit) * Driver CS :=
  let acceptSafe := argAcceptSafe (m_args d) in
  let acceptUnafe := argAcceptUnsafe (m_args d) in
  if acceptSafe || acceptUnafe then acceptUpgrade fuel d
  else
    let '(r, d') := forEach (m_sourceCodes d) analyzeAndLog d in
    (Some r, d').

(** [processInput] *)
Definition processInput (fuel : nat) (d : Driver CS)
  : option (outcome bool) * Driver CS :=
  match readInputFiles d with
  | (Throw e, d1) => (Some (Throw e), d1)
  | (Ret false, d1) => (Some (Ret false), d1)
  | (Ret true, d1) =>
      match (resetCompilerWith ;; tryCompile) d1 with
      | (Throw e, d2) => (Some (Throw e), d2)
      | (Ret _, d2) =>
          match upgradeOrLog fuel d2 with
          | (None, d3) => (None, d3)
          | (Some (Throw e), d3) => (Some (Throw e), d3)
          | (Some (Ret _), d3) =>
              let '(r, d4) :=
                ((if State_geb (state (m_compiler d3)) CompilationSuccessful
                     || match errors (m_compiler d3) with
                        | [] => true
                        | _ => false
                        end
                  then
                    emit (Cout "") ;;
                    emit (Cout "No errors or upgrades found!")
                  else ret tt) ;;
                 ret true) d3 in
              (Some r, d4)
          end
      end
  end.

End SolidityUpgrade.

(** ** Sample inputs *)

Module Samples.

Definition whole (name text : string) : CharStream :=
  {| cs_source := text; cs_name := name |}.

Definition noNode : ASTNode := OtherNode [].

(** A contract with an unimplemented function, not marked abstract. *)
Definition unimplemented_sol : CharStream :=
  whole "c.sol" "contract C { function f() public virtual; }".

Definition unimplemented_C : ContractInfo :=
  {| ct_location := mkSourceLocation 0 43 unimplemented_sol;
     ct_unimplementedFunctions := ["f"];
     ct_abstract := false;
     ct_isInterface := false |}.

Definition unimplemented_f : FunctionInfo :=
  {| fn_location := mkSourceLocation 13 41 unimplemented_sol;
     fn_isConstructor := false;
     fn_overrides := false;
     fn_virtualSemantics := true;
     fn_visibility := Public;
     fn_inherited := [] |}.

Definition unimplemented_unit : SourceUnit :=
  [ ContractDefinition unimplemented_C
      [ FunctionDefinition unimplemented_f [] ] ].

Definition abstract_record : UpgradeChange :=
  {| m_location := ct_location unimplemented_C;
     m_source := "contract C { function f() public virtual; }";
     m_patch := "abstract contract C { function f() public virtual; }";
     m_level := Safe |}.

(** The same contract once the patch is in. *)
Definition upgraded_sol : CharStream :=
  whole "c.sol" "abstract contract C { function f() public virtual; }".

Definition upgraded_C : ContractInfo :=
  {| ct_location := mkSourceLocation 0 52 upgraded_sol;
     ct_unimplementedFunctions := ["f"];
     ct_abstract := true;
     ct_isInterface := false |}.

Definition upgraded_f : FunctionInfo :=
  {| fn_location := mkSourceLocation 22 50 upgraded_sol;
     fn_isConstructor := false;
     fn_overrides := false;
     fn_virtualSemantics := true;
     fn_visibility := Public;
     fn_inherited := [] |}.

Definition upgraded_unit : SourceUnit :=
  [ ContractDefinition upgraded_C [ FunctionDefinition upgraded_f [] ] ].

(** A write to the length of a dynamic array. *)
Definition length_sol : CharStream :=
  whole "a.sol"
    "contract A { uint[] a; function f() public virtual { a.length = 1; } }".

Definition length_assignment : ASTNode :=
  Assignment (mkSourceLocation 53 65 length_sol)
    (MemberAccess
       {| ma_expressionIsArrayType := true;
          ma_memberName := "length";
          ma_lValueRequested := true |}
       noNode)
    noNode.

Definition length_unit : SourceUnit :=
  [ ContractDefinition
      {| ct_location := mkSourceLocation 0 70 length_sol;
         ct_unimplementedFunctions := [];
         ct_abstract := false;
         ct_isInterface := false |}
      [ OtherNode [];
        FunctionDefinition
          {| fn_location := mkSourceLocation 23 68 length_sol;
             fn_isConstructor := false;
             fn_overrides := false;
             fn_virtualSemantics := true;
             fn_visibility := Public;
             fn_inherited := [] |}
          [ OtherNode [ length_assignment ] ] ] ].

(** A function that overrides a virtual one and says neither
    [override] nor [virtual]. *)
Definition override_sol : CharStream :=
  whole "b.sol"
    "contract A { function f() public virtual {} } contract B is A { function f() public {} }".

Definition inherited_f : SuperFunction :=
  {| super_hasEqualParameterTypes := true;
     super_virtualSemantics := true |}.

Definition override_A : ASTNode :=
  ContractDefinition
    {| ct_location := mkSourceLocation 0 45 override_sol;
       ct_unimplementedFunctions := [];
       ct_abstract := false;
       ct_isInterface := false |}
    [ FunctionDefinition
        {| fn_location := mkSourceLocation 13 43 override_sol;
           fn_isConstructor := false;
           fn_overrides := false;
           fn_virtualSemantics := true;
           fn_visibility := Public;
           fn_inherited := [] |}
        [] ].

Definition override_B_f : FunctionInfo :=
  {| fn_location := mkSourceLocation 64 86 override_sol;
     fn_isConstructor := false;
     fn_overrides := false;
     fn_virtualSemantics := false;
     fn_visibility := Public;
     fn_inherited := [inherited_f] |}.

Definition override_B : ASTNode :=
  ContractDefinition
    {| ct_location := mkSourceLocation 46 88 override_sol;
       ct_unimplementedFunctions := [];
       ct_abstract := false;
       ct_isInterface := false |}
    [ FunctionDefinition override_B_f [] ].

Definition override_unit : SourceUnit := [ override_A; override_B ].

Definition override_record : UpgradeChange :=
  {| m_location := fn_location override_B_f;
     m_source := cs_source override_sol;
     m_patch := "function f() public override {}";
     m_level := Unsafe |}.

Definition virtual_record : UpgradeChange :=
  {| m_location := fn_location override_B_f;
     m_source := cs_source override_sol;
     m_patch := "function f() public virtual {}";
     m_level := Unsafe |}.

(** The same, the overriding function being virtual itself. *)
Definition virtual_sol : CharStream :=
  whole "b.sol"
    "contract A { function f() public virtual {} } contract B is A { function f() public virtual {} }".

Definition virtual_B_f : FunctionInfo :=
  {| fn_location := mkSourceLocation 64 94 virtual_sol;
     fn_isConstructor := false;
     fn_overrides := false;
     fn_virtualSemantics := true;
     fn_visibility := Public;
     fn_inherited := [inherited_f] |}.

Definition virtual_override_record : UpgradeChange :=
  {| m_location := fn_location virtual_B_f;
     m_source := cs_source virtual_sol;
     m_patch := "function f() public override virtual {}";
     m_level := Unsafe |}.

Definition virtual_unit : SourceUnit :=
  [ ContractDefinition
      {| ct_location := mkSourceLocation 0 45 virtual_sol;
         ct_unimplementedFunctions := [];
         ct_abstract := false;
         ct_isInterface := false |}
      [ FunctionDefinition
          {| fn_location := mkSourceLocation 13 43 virtual_sol;
             fn_isConstructor := false;
             fn_overrides := false;
             fn_virtualSemantics := true;
             fn_visibility := Public;
             fn_inherited := [] |}
          [] ];
    ContractDefinition
      {| ct_location := mkSourceLocation 46 96 virtual_sol;
         ct_unimplementedFunctions := [];
         ct_abstract := false;
         ct_isInterface := false |}
      [ FunctionDefinition virtual_B_f [] ] ].

(** A contract that compiles as it is, with a function that is not
    virtual. *)
Definition plain_sol : CharStream :=
  whole "p.sol" "contract A { function f() public {} }".

Definition plain_f : FunctionInfo :=
  {| fn_location := mkSourceLocation 13 35 plain_sol;
     fn_isConstructor := false;
     fn_overrides := false;
     fn_virtualSemantics := false;
     fn_visibility := Public;
     fn_inherited := [] |}.

Definition plain_unit : SourceUnit :=
  [ ContractDefinition
      {| ct_location := mkSourceLocation 0 37 plain_sol;
         ct_unimplementedFunctions := [];
         ct_abstract := false;
         ct_isInterface := false |}
      [ FunctionDefinition plain_f [] ] ].

Definition plain_record : UpgradeChange :=
  {| m_location := fn_location plain_f;
     m_source := cs_source plain_sol;
     m_patch := "function f() public virtual {}";
     m_level := Unsafe |}.

(** A header over three lines, the visibility in the middle of the
    last one. *)
Definition header_text : string :=
  ("function f(" ++ nl ++ "  uint a" ++ nl ++ ") public returns (uint) {}")%string.

Definition header_location : SourceLocation :=
  mkSourceLocation 0 47 (whole "h.sol" header_text).

Definition header_f : FunctionInfo :=
  {| fn_location := header_location;
     fn_isConstructor := false;
     fn_overrides := false;
     fn_virtualSemantics := false;
     fn_visibility := Public;
     fn_inherited := [] |}.

Definition header_record : UpgradeChange :=
  {| m_location := header_location;
     m_source := header_text;
     m_patch :=
       ("function f(" ++ nl ++ "  uint a" ++ nl
        ++ ") public virtual returns (uint) {}")%string;
     m_level := Unsafe |}.

End Samples.

(** ** Statements: helper definitions *)

Unset Implicit Arguments.

(** The text [placeAfterFunctionHeaderKeyword] returns for an extracted
    text. *)
Definition keywordPlaced (multiline : bool)
  (codeBefore _headerKeyword _keyword : string) : string :=
  regex_replace codeBefore _headerKeyword
    (_headerKeyword
     ++ (if isMultiline multiline codeBefore _headerKeyword
         then nl ++ _keyword else " " ++ _keyword))%string.

(** The rules that [Upgrade060::analyze] runs. *)
Definition registeredRules (multiline : bool)
  : list (ASTNode -> outcome (list UpgradeChange)) :=
  [ AbstractContract_endVisit;
    OverridingFunction_endVisit multiline;
    VirtualFunction_endVisit multiline ].

Definition isImplementedOrAbstract (c : ContractInfo) : Prop :=
  ct_abstract c = true \/ ct_isInterface c = true
  \/ ct_unimplementedFunctions c = [].

Definition validLocationb (loc : SourceLocation) : bool :=
  ((0 <=? loc_start loc) && (loc_start loc <=? size (cs_source (loc_source loc))))%Z.

Definition wellLocatedb (su : SourceUnit) : bool :=
  forallb
    (fun n =>
       match nodeLocation n with
       | Some loc => validLocationb loc
       | None => true
       end)
    (accept su).

(** The positions, counted from [i], at which [\bkw\b] matches in [s]. *)
Fixpoint wordPositions (kw : string) (prev : option ascii) (i : nat)
  (s : string) : list nat :=
  (match matchWord kw prev s with Some _ => [i] | None => [] end)
  ++ match s with
     | EmptyString => []
     | String c t => wordPositions kw (Some c) (S i) t
     end.

(** [kw] is a whole word of [text] exactly once, between [pre] and
    [post]. *)
Definition onlyWord (kw text pre post : string) : Prop :=
  text = (pre ++ kw ++ post)%string
  /\ wordPositions kw None 0 text = [String.length pre].

(** A text of more than one line. *)
Fixpoint spansLines (s : string) : bool :=
  match s with
  | EmptyString => false
  | String c t => isLineTerminator c || spansLines t
  end.

(** The header of a function, the part of its text before the body or
    the closing semicolon, is one line and holds the visibility
    keyword [kw], which stands between [pre] and [post]: up to the
    first brace or semicolon behind the keyword there is no line
    terminator. *)
Definition singleLineHeader (pre kw post : string) : Prop :=
  exists rest body,
    post = (rest ++ body)%string
    /\ spansLines (pre ++ kw ++ rest) = false
    /\ (prefix "{" body = true \/ prefix ";" body = true).

(** The characters of a text from the offset [n] on, and its first [n]
    characters. *)
Fixpoint skipChars (n : nat) (s : string) : string :=
  match n, s with
  | O, _ => s
  | S k, String _ t => skipChars k t
  | S _, EmptyString => EmptyString
  end.

Fixpoint firstChars (n : nat) (s : string) : string :=
  match n, s with
  | O, _ => EmptyString
  | S k, String c t => String c (firstChars k t)
  | S _, EmptyString => EmptyString
  end.

(** The original text of a declaration, as the spec has it: the bytes
    of the source from the start offset of the declaration's location
    up to its end offset, which is exclusive.  It is defined on the
    text alone, not by the extraction of the rules. *)
Definition declarationText (loc : SourceLocation) : string :=
  firstChars (Z.to_nat (loc_end loc - loc_start loc))
    (skipChars (Z.to_nat (loc_start loc)) (cs_source (loc_source loc))).

(** A location that is a byte range of its text, with [int] offsets. *)
Definition rangeInText (loc : SourceLocation) : Prop :=
  (0 <= loc_start loc <= loc_end loc
   /\ loc_end loc <= size (cs_source (loc_source loc))
   /\ loc_end loc < 2 ^ 31)%Z.

(** The functions of a unit, in the order their [endVisit] runs. *)
Definition functions (su : SourceUnit) : list FunctionInfo :=
  flat_map
    (fun n => match n with FunctionDefinition f _ => [f] | _ => [] end)
    (accept su).

(** A function other than a constructor with each inherited function
    of its range. *)
Definition inheritedPairs (f : FunctionInfo)
  : list (FunctionInfo * SuperFunction) :=
  if fn_isConstructor f then [] else map (pair f) (fn_inherited f).

(** The pairs that the loops of [OverridingFunction::endVisit] pass. *)
Definition overridePairs (su : SourceUnit)
  : list (FunctionInfo * SuperFunction) :=
  flat_map
    (fun n =>
       match n with
       | ContractDefinition _ subNodes =>
           flat_map inheritedPairs (definedFunctions subNodes)
       | _ => []
       end)
    (accept su).

(** The record that places [keyword] in the header of [f]. *)
Definition keywordRecord (multiline : bool) (f : FunctionInfo)
  (keyword : string) : UpgradeChange :=
  newUpgradeChange Unsafe (fn_location f)
    (keywordPlaced multiline (textOf (fn_location f))
       (visibilityToString (fn_visibility f)) keyword).

Definition pairRecords (multiline : bool)
  (p : FunctionInfo * SuperFunction) : list UpgradeChange :=
  (if super_hasEqualParameterTypes (snd p) && negb (fn_overrides (fst p))
   then [keywordRecord multiline (fst p) "override"] else [])
  ++ (if negb (super_virtualSemantics (snd p))
      then [keywordRecord multiline (fst p) "virtual"] else []).

Definition virtualRecords (multiline : bool) (f : FunctionInfo)
  : list UpgradeChange :=
  if negb (fn_virtualSemantics f)
  then [keywordRecord multiline f "virtual"] else [].

(** Induction over the tree, its lists of children included. *)
Section ASTNode_induction.

Variable P : ASTNode -> Prop.
Hypothesis HContract :
  forall c subNodes, Forall P subNodes -> P (ContractDefinition c subNodes).
Hypothesis HFunction :
  forall f children, Forall P children -> P (FunctionDefinition f children).
Hypothesis HAssignment :
  forall loc l r, P l -> P r -> P (Assignment loc l r).
Hypothesis HMemberAccess : forall m e, P e -> P (MemberAccess m e).
Hypothesis HOther : forall children, Forall P children -> P (OtherNode children).

Fixpoint ASTNode_nested_ind (n : ASTNode) : P n :=
  let all :=
    fix all (l : list ASTNode) : Forall P l :=
      match l with
      | [] => Forall_nil P
      | x :: r => Forall_cons x (ASTNode_nested_ind x) (all r)
      end in
  match n with
  | ContractDefinition c subNodes => HContract c subNodes (all subNodes)
  | FunctionDefinition f children => HFunction f children (all children)
  | Assignment loc l r =>
      HAssignment loc l r (ASTNode_nested_ind l) (ASTNode_nested_ind r)
  | MemberAccess m e => HMemberAccess m e (ASTNode_nested_ind e)
  | OtherNode children => HOther children (all children)
  end.

End ASTNode_induction.

(** ** Statements about the driver: helper definitions *)

Section DriverStatements.

Context {CS : Type} {frontEnd : FrontEnd CS}.
Variable multiline : bool.

(** The driver after further events, all else as it was. *)
Definition addTrace (d : Driver CS) (evs : list Event) : Driver CS :=
  mkDriver (m_args d) (m_sourceCodes d) (m_compiler d) (disk d)
    (unwritable d) (trace d ++ evs).

Definition isApply (e : Event) : bool :=
  match e with ApplyChange _ _ => true | _ => false end.

Definition isWrite (e : Event) : bool :=
  match e with WriteInputFile _ _ => true | _ => false end.

(** Neither a patch nor a write to a file. *)
Definition noPatch (e : Event) : bool := negb (isApply e) && negb (isWrite e).

(** Console output only. *)
Definition isOutput (e : Event) : bool :=
  match e with
  | Cout _ | LogChange _ _ | PrintErrorInformation _ => true
  | _ => false
  end.

(** Neither a patch nor a compilation. *)
Definition isAnalysis (e : Event) : bool :=
  match e with
  | Cout _ | LogChange _ _ | PrintErrorInformation _ | RunCatalog _ => true
  | _ => false
  end.

(** The files the catalogue ran on, in order. *)
Definition catalogRuns (evs : list Event) : list string :=
  flat_map (fun e => match e with RunCatalog f => [f] | _ => [] end) evs.

(** The lines by which [analyzeAndLog] announces a file. *)
Definition announcement (name : string) : Event :=
  Cout ("Analyzing " ++ name ++ "...")%string.

Definition isAnnouncement (e : Event) : bool :=
  match e with
  | Cout text => prefix "Analyzing " text
  | _ => false
  end.

(** The level of a change is one the caller accepts. *)
Definition accepted (args : Args) (c : UpgradeChange) : bool :=
  match m_level c with
  | Safe => argAcceptSafe args
  | Unsafe => argAcceptUnsafe args
  end.

Definition acceptedHead (args : Args) (changes : list UpgradeChange) : bool :=
  match changes with
  | change :: _ => accepted args change
  | [] => false
  end.

(** The changes of a file under the current compilation. *)
Definition catalogOf (stack : CS) (name : string)
  : outcome (list UpgradeChange) :=
  (sourceUnit <- ast stack name ;;
   Upgrade060_analyze multiline sourceUnit)%outcome.

(** The line a [catch] clause of [tryCompile] prints. *)
Definition exceptionText (e : exn) : string :=
  match e with
  | DevException diagnostic =>
      ("Exception during compilation: " ++ diagnostic)%string
  | StdException (Some w) => (": " ++ w)%string
  | StdException None => "."
  | OtherException => "Unknown exception during compilation."
  end.



(** From [d] to [d']: the arguments and the disk are as they were, and
    the events added hold no patch. *)
Definition harmless (d d' : Driver CS) : Prop :=
  m_args d' = m_args d
  /\ disk d' = disk d
  /\ exists evs, trace d' = trace d ++ evs /\ forallb noPatch evs = true.

(** The first change of the file is none that the caller accepts. *)
Definition passes (d : Driver CS) (name : string) : Prop :=
  exists changes,
    catalogOf (m_compiler d) name = Ret changes
    /\ acceptedHead (m_args d) changes = false.

(** The driver once [applied] is stored and written for [file], with
    the events up to the write. *)
Definition patchedDriver (d : Driver CS) (file : string)
  (change applied : UpgradeChange) (pre : list Event) : Driver CS :=
  mkDriver (m_args d)
    (assign file (m_source applied) (m_sourceCodes d))
    (m_compiler d)
    (writeFile (unwritable d) file (m_source applied) (disk d))
    (unwritable d)
    (trace d
     ++ pre
     ++ [ ApplyChange file change;
          Cout "";
          Cout ("Writing to input file " ++ file ++ "...")%string;
          WriteInputFile file (m_source applied) ]).

(** The [for] loop over the files, from [d]: what it returned and the
    driver it left. *)
Inductive FilesTurn (d : Driver CS) (files : Sources)
  (recompile changesFound : bool)
  : outcome (bool * bool) -> Driver CS -> Prop :=
| Files_passed evs :
    (forall name, In name (map fst files) -> passes d name) ->
    forallb isAnalysis evs = true ->
    FilesTurn d files recompile changesFound
      (Ret (match files with [] => recompile | _ => false end, changesFound))
      (addTrace d evs)
| Files_threw before file text after e evs :
    files = before ++ (file, text) :: after ->
    (forall name, In name (map fst before) -> passes d name) ->
    catalogOf (m_compiler d) file = Throw e ->
    forallb isAnalysis evs = true ->
    FilesTurn d files recompile changesFound (Throw e) (addTrace d evs)
| Files_apply_threw before file text after change rest pre e :
    files = before ++ (file, text) :: after ->
    (forall name, In name (map fst before) -> passes d name) ->
    catalogOf (m_compiler d) file = Ret (change :: rest) ->
    accepted (m_args d) change = true ->
    forallb isAnalysis pre = true ->
    apply change = Throw e ->
    FilesTurn d files recompile changesFound (Throw e)
      (addTrace d (pre ++ [ApplyChange file change]))
| Files_patched before file text after change rest pre applied :
    files = before ++ (file, text) :: after ->
    (forall name, In name (map fst before) -> passes d name) ->
    catalogOf (m_compiler d) file = Ret (change :: rest) ->
    accepted (m_args d) change = true ->
    forallb isAnalysis pre = true ->
    apply change = Ret applied ->
    FilesTurn d files recompile changesFound (Ret (true, true))
      (patchedDriver d file change applied pre).



End DriverStatements.

(** ** A small front end, to run the driver on samples *)

Module Toy.

Record Stack : Type := mkStack
  { sources : Sources;
    progress : State;
    diagnostics : list Error }.

(** A front end that parses every file, reports what [check] finds in
    the sources, and answers [treeOf] for the tree of a file. *)
Definition frontEnd (treeOf : string -> string -> SourceUnit)
  (check : Sources -> list Error) : FrontEnd Stack :=
  {| newCompilerStack := mkStack [] Empty [];
     reset := fun _ => mkStack [] Empty [];
     setSources := fun s c => mkStack s SourcesSet (diagnostics c);
     setParserErrorRecovery := fun _ c => c;
     parse := fun _ c =>
       (Ret true, mkStack (sources c) ParsingPerformed (diagnostics c), []);
     analyze := fun c =>
       let found := check (sources c) in
       (Ret match found with [] => true | _ => false end,
        mkStack (sources c) AnalysisPerformed found);
     compile := fun c =>
       (Ret tt, mkStack (sources c) CompilationSuccessful (diagnostics c));
     state := progress;
     errors := diagnostics;
     ast := fun c name =>
       match lookup name (sources c) with
       | Some text => Ret (treeOf name text)
       | None => Throw (DevException "Given source file not found.")
       end |}.

(** Every file holds one contract with an unimplemented function; the
    contract is abstract where the text starts with the keyword. *)
Definition contractTree (name text : string) : SourceUnit :=
  [ ContractDefinition
      {| ct_location :=
           mkSourceLocation 0 (size text) (mkCharStream text name);
         ct_unimplementedFunctions := ["f"];
         ct_abstract := prefix "abstract " text;
         ct_isInterface := false |}
      [] ].

Definition missingAbstract (s : Sources) : list Error :=
  flat_map
    (fun kv =>
       if prefix "abstract " (snd kv) then []
       else [mkError OtherErrorType "Contract should be marked as abstract."])
    s.

Definition contracts : FrontEnd Stack := frontEnd contractTree missingAbstract.

(** A front end with no complaint about a unit that the catalogue
    still has findings for. *)
Definition silent : FrontEnd Stack :=
  frontEnd (fun _ _ => Samples.plain_unit) (fun _ => []).

(** A front end whose parser throws. *)
Definition throwing : FrontEnd Stack :=
  {| newCompilerStack := mkStack [] Empty [];
     reset := fun _ => mkStack [] Empty [];
     setSources := fun s c => mkStack s SourcesSet (diagnostics c);
     setParserErrorRecovery := fun _ c => c;
     parse := fun _ c => (Throw (StdException (Some "bad_alloc")), c, []);
     analyze := fun c => (Ret true, c);
     compile := fun c => (Ret tt, c);
     state := progress;
     errors := diagnostics;
     ast := fun _ _ => Throw (DevException "Parsing not yet performed.") |}.

Definition a_sol : string := "contract A { function f() public virtual; }".
Definition b_sol : string := "contract B { function f() public virtual; }".

Definition files : Disk :=
  [ ("a.sol", Regular a_sol); ("b.sol", Regular b_sol) ].

Definition args (acceptSafe acceptUnsafe : bool) : Args :=
  {| argAcceptSafe := acceptSafe;
     argAcceptUnsafe := acceptUnsafe;
     argShortLog := false;
     argIgnoreMissingFiles := false;
     argInputFile := ["a.sol"; "b.sol"] |}.

(** The driver before [processInput]. *)
Definition start (acceptSafe acceptUnsafe : bool) : Driver Stack :=
  mkDriver (args acceptSafe acceptUnsafe) [] (mkStack [] Empty []) files []
    [].

(** The driver after the files are read and compiled once. *)
Definition compiled (acceptSafe acceptUnsafe : bool) : Driver Stack :=
  mkDriver (args acceptSafe acceptUnsafe)
    [ ("a.sol", a_sol); ("b.sol", b_sol) ]
    (mkStack [ ("a.sol", a_sol); ("b.sol", b_sol) ] AnalysisPerformed
       (missingAbstract [ ("a.sol", a_sol); ("b.sol", b_sol) ]))
    files [] [].

(** The driver of the safe-only pass once both files are upgraded. *)
Definition upgraded : Driver Stack :=
  mkDriver (args true false)
    [ ("a.sol", ("abstract " ++ a_sol)%string);
      ("b.sol", ("abstract " ++ b_sol)%string) ]
    (mkStack
       [ ("a.sol", ("abstract " ++ a_sol)%string);
         ("b.sol", ("abstract " ++ b_sol)%string) ]
       CompilationSuccessful [])
    [ ("a.sol", Regular ("abstract " ++ a_sol)%string);
      ("b.sol", Regular ("abstract " ++ b_sol)%string) ]
    [] [].

(** A driver whose compilation found nothing to complain about. *)
Definition clean : Driver Stack :=
  mkDriver (args true true)
    [ ("p.sol", cs_source Samples.plain_sol) ]
    (mkStack [ ("p.sol", cs_source Samples.plain_sol) ]
       CompilationSuccessful [])
    [ ("p.sol", Regular (cs_source Samples.plain_sol)) ] [] [].

End Toy.

From Stdlib Require Sorted.

(** ** The read callback of [processInput]

    The lambda [fileReader] that the compiler stack calls for an import.
    Of [boost::filesystem] it uses the canonical form of a path, the
    elements a path iterates over, and the file status; the first two
    depend on the file system and are parameters. *)

Section ReadCallback.

(** The elements [begin() .. end()] of a [boost::filesystem::path]. *)
Definition PathElements : Type := list string.

(** [boost::filesystem::weakly_canonical], which may throw; the
    elements of its result, and [canonicalPath.string()]. *)
Variable weakly_canonical : string -> outcome PathElements.
Variable pathString : PathElements -> string.

(** [ReadCallback::Result] *)
Record ReadResult : Type := mkReadResult
  { success : bool;
    responseOrErrorMessage : string }.

(** [std::equal(a.begin(), a.end(), b.begin())], called where [b] is at
    least as long as [a]. *)
Fixpoint equalRange (a b : PathElements) : bool :=
  match a, b with
  | [], _ => true
  | x :: a', y :: b' => String.eqb x y && equalRange a' b'
  | _ :: _, [] => false
  end.

(** The loop over [m_allowedDirectories]: some directory is a prefix of
    the canonical path. *)
Definition isAllowed (m_allowedDirectories : list PathElements)
  (canonicalPath : PathElements) : bool :=
  existsb
    (fun allowedDir =>
       (List.length allowedDir <=? List.length canonicalPath)%nat
       && equalRange allowedDir canonicalPath)
    m_allowedDirectories.

(** The [try] block of the callback: its result and [m_sourceCodes].
    The file is looked up and read under [canonicalPath.string()]; the
    key of the new entry is [path.generic_string()], which for a path
    given in generic form is [_path] itself. *)
Definition fileReader_try (m_allowedDirectories : list PathElements)
  (files : Disk) (_path : string) (sourceCodes : Sources)
  : outcome (ReadResult * Sources) :=
  (canonicalPath <- weakly_canonical _path ;;
   if negb (isAllowed m_allowedDirectories canonicalPath) then
     Ret (mkReadResult false "File outside of allowed directories.",
          sourceCodes)
   else
     match lookup (pathString canonicalPath) files with
     | None => Ret (mkReadResult false "File not found.", sourceCodes)
     | Some NotRegular =>
         Ret (mkReadResult false "Not a valid file.", sourceCodes)
     | Some (Regular contents) =>
         Ret (mkReadResult true contents, assign _path contents sourceCodes)
     end)%outcome.

(** [fileReader], with its two [catch] clauses: [catch (Exception
    const&)] and [catch (...)]. *)
Definition fileReader (m_allowedDirectories : list PathElements)
  (files : Disk) (_path : string) (sourceCodes : Sources)
  : outcome (ReadResult * Sources) :=
  match fileReader_try m_allowedDirectories files _path sourceCodes with
  | Ret r => Ret r
  | Throw e =>
      if isException e then
        Ret (mkReadResult false
               ("Exception in read callback: " ++ diagnostic_information e)%string,
             sourceCodes)
      else
        Ret (mkReadResult false "Unknown exception in read callback.",
             sourceCodes)
  end.

End ReadCallback.

(** ** Further statements: helper definitions *)

(** The keys of a map, in its order. *)
Definition keys {V} (m : StringMap V) : list string := map fst m.

(** The keys of a [std::map] rise strictly. *)
Definition keysRise {V} (m : StringMap V) : Prop :=
  Sorted.StronglySorted (fun a b => String.ltb a b = true) (keys m).

(** A keyword of word characters only. *)
Fixpoint wordChars (s : string) : bool :=
  match s with
  | EmptyString => true
  | String c t => isWordChar c && wordChars t
  end.

(** The changes a run logged, in order. *)
Definition loggedChanges (evs : list Event) : list UpgradeChange :=
  flat_map (fun e => match e with LogChange c _ => [c] | _ => [] end) evs.

(** The errors a run printed, in order. *)
Definition printedErrors (evs : list Event) : list Error :=
  flat_map
    (fun e => match e with PrintErrorInformation x => [x] | _ => [] end) evs.

(** [dev::readFileAsString] on a path that names a regular file. *)
Definition readFile (files : Disk) (path : string) : option string :=
  match lookup path files with
  | Some (Regular contents) => Some contents
  | _ => None
  end.

(** [exists(path) && is_regular_file(path)] *)
Definition isRegularFile (files : Disk) (path : string) : bool :=
  match readFile files path with Some _ => true | None => false end.

(** A map after the assignments [m[k] = v] of a list, in order. *)
Definition assignAll (kvs : list (string * string)) (m : Sources) : Sources :=
  fold_left (fun m kv => assign (fst kv) (snd kv) m) kvs m.

(** From [d] to [d'] the snapshot map changed by assignments only. *)
Definition extends {CS : Type} (d d' : Driver CS) : Prop :=
  exists kvs, m_sourceCodes d' = assignAll kvs (m_sourceCodes d).

(** A step of the driver changes the snapshot map by assignments
    only, whatever it returns. *)
Definition Extending {CS : Type} {A : Type} (m : M (CS := CS) A) : Prop :=
  forall d, extends d (snd (m d)).

(** A start that is negative, as an [int], or behind the end of the
    text. *)
Definition badStart (loc : SourceLocation) : Prop :=
  (- 2 ^ 31 <= loc_start loc < 0
   \/ size (cs_source (loc_source loc)) < loc_start loc < 2 ^ 31)%Z.

(** ** Further sample inputs *)

Module MoreSamples.

(** A contract with an unimplemented function that is not virtual. *)
Definition mixed_sol : CharStream :=
  Samples.whole "m.sol" "contract C { function f() public; }".

Definition mixed_C : ContractInfo :=
  {| ct_location := mkSourceLocation 0 35 mixed_sol;
     ct_unimplementedFunctions := ["f"];
     ct_abstract := false;
     ct_isInterface := false |}.

Definition mixed_f : FunctionInfo :=
  {| fn_location := mkSourceLocation 13 33 mixed_sol;
     fn_isConstructor := false;
     fn_overrides := false;
     fn_virtualSemantics := false;
     fn_visibility := Public;
     fn_inherited := [] |}.

Definition mixed_unit : SourceUnit :=
  [ ContractDefinition mixed_C [ FunctionDefinition mixed_f [] ] ].

Definition mixed_abstract_record : UpgradeChange :=
  {| m_location := ct_location mixed_C;
     m_source := cs_source mixed_sol;
     m_patch := "abstract contract C { function f() public; }";
     m_level := Safe |}.

Definition mixed_virtual_record : UpgradeChange :=
  {| m_location := fn_location mixed_f;
     m_source := cs_source mixed_sol;
     m_patch := "function f() public virtual;";
     m_level := Unsafe |}.

(** A function whose header names no visibility. *)
Definition bare_sol : CharStream :=
  Samples.whole "n.sol" "contract A { function f() {} }".

Definition bare_f : FunctionInfo :=
  {| fn_location := mkSourceLocation 13 28 bare_sol;
     fn_isConstructor := false;
     fn_overrides := false;
     fn_virtualSemantics := false;
     fn_visibility := Public;
     fn_inherited := [] |}.

(** A contract with an unimplemented function between a pragma and a
    second contract. *)
Definition nested_sol : CharStream :=
  Samples.whole "d.sol"
    "pragma solidity ^0.5.0; contract C { function f() public; } contract D {}".

Definition nested_C : ContractInfo :=
  {| ct_location := mkSourceLocation 24 59 nested_sol;
     ct_unimplementedFunctions := ["f"];
     ct_abstract := false;
     ct_isInterface := false |}.

Definition nested_D : ContractInfo :=
  {| ct_location := mkSourceLocation 60 73 nested_sol;
     ct_unimplementedFunctions := [];
     ct_abstract := false;
     ct_isInterface := false |}.

Definition nested_f : FunctionInfo :=
  {| fn_location := mkSourceLocation 37 57 nested_sol;
     fn_isConstructor := false;
     fn_overrides := false;
     fn_virtualSemantics := false;
     fn_visibility := Public;
     fn_inherited := [] |}.

Definition nested_unit : SourceUnit :=
  [ ContractDefinition nested_C [ FunctionDefinition nested_f [] ];
    ContractDefinition nested_D [] ].

Definition nested_record : UpgradeChange :=
  {| m_location := ct_location nested_C;
     m_source := cs_source nested_sol;
     m_patch := "abstract contract C { function f() public; }";
     m_level := Safe |}.

(** An overriding function with a header of one line and a body of
    three. *)
Definition body_text : string :=
  ("function f() public virtual {" ++ nl ++ "  x = 1;" ++ nl ++ "}")%string.

Definition body_sol : CharStream :=
  Samples.whole "o.sol"
    ("contract A { function f() public virtual {} } contract B is A { "
     ++ body_text ++ " }")%string.

Definition body_B_f : FunctionInfo :=
  {| fn_location := mkSourceLocation 64 104 body_sol;
     fn_isConstructor := false;
     fn_overrides := false;
     fn_virtualSemantics := true;
     fn_visibility := Public;
     fn_inherited := [Samples.inherited_f] |}.

Definition body_unit : SourceUnit :=
  [ ContractDefinition
      {| ct_location := mkSourceLocation 0 45 body_sol;
         ct_unimplementedFunctions := [];
         ct_abstract := false;
         ct_isInterface := false |}
      [ FunctionDefinition
          {| fn_location := mkSourceLocation 13 43 body_sol;
             fn_isConstructor := false;
             fn_overrides := false;
             fn_virtualSemantics := true;
             fn_visibility := Public;
             fn_inherited := [] |}
          [] ];
    ContractDefinition
      {| ct_location := mkSourceLocation 46 106 body_sol;
         ct_unimplementedFunctions := [];
         ct_abstract := false;
         ct_isInterface := false |}
      [ FunctionDefinition body_B_f [] ] ].

Definition body_override_record : UpgradeChange :=
  {| m_location := fn_location body_B_f;
     m_source := cs_source body_sol;
     m_patch :=
       ("function f() public override virtual {" ++ nl ++ "  x = 1;" ++ nl
        ++ "}")%string;
     m_level := Unsafe |}.

(** A function whose location was never set. *)
Definition unset_f : FunctionInfo :=
  {| fn_location := mkSourceLocation (-1) (-1) bare_sol;
     fn_isConstructor := false;
     fn_overrides := false;
     fn_virtualSemantics := false;
     fn_visibility := Public;
     fn_inherited := [] |}.

Definition unset_unit : SourceUnit := [ FunctionDefinition unset_f [] ].

(** A function whose body names the visibility keyword in a comment. *)
Definition comment_text : string :=
  "function f() public { /* not public */ }".

End MoreSamples.

(** The first [n] characters of [s] are there and are word characters. *)
Fixpoint prefixWord (n : nat) (s : string) : bool :=
  match n, s with
  | O, _ => true
  | S k, String c t => isWordChar c && prefixWord k t
  | S _, EmptyString => false
  end.

Module ReadSamples.

(** A file system with one source file and one directory. *)
Definition files : Disk :=
  [ ("/home/a.sol", Regular "contract A {}"); ("/home/lib", NotRegular) ].

(** Paths as they are, split at the slashes by hand. *)
Definition weakly_canonical (path : string) : outcome PathElements :=
  if String.eqb path "/home/a.sol" then Ret ["/"; "home"; "a.sol"]
  else if String.eqb path "/home/lib" then Ret ["/"; "home"; "lib"]
  else if String.eqb path "/etc/passwd" then Ret ["/"; "etc"; "passwd"]
  else Throw OtherException.

Definition pathString (p : PathElements) : string :=
  match p with
  | root :: rest => (root ++ String.concat "/" rest)%string
  | [] => ""
  end.

(** A call that names a file that is not there. *)
Definition missing : Driver Toy.Stack :=
  mkDriver
    {| argAcceptSafe := true;
       argAcceptUnsafe := false;
       argShortLog := false;
       argIgnoreMissingFiles := false;
       argInputFile := ["a.sol"; "c.sol"] |}
    [] (Toy.mkStack [] Empty []) Toy.files [] [].

End ReadSamples.

Module DriverSamples.

(** The record of the abstractness rule for the first file of [Toy]. *)
Definition a_location : SourceLocation :=
  mkSourceLocation 0 (size Toy.a_sol) (mkCharStream Toy.a_sol "a.sol").

Definition a_record : UpgradeChange :=
  {| m_location := a_location;
     m_source := Toy.a_sol;
     m_patch := ("abstract " ++ Toy.a_sol)%string;
     m_level := Safe |}.

(** The record once applied. *)
Definition a_applied : UpgradeChange :=
  {| m_location := a_location;
     m_source := ("abstract " ++ Toy.a_sol)%string;
     m_patch := ("abstract " ++ Toy.a_sol)%string;
     m_level := Safe |}.

(** A driver whose compilation failed before any tree was built. *)
Definition unparsed : Driver Toy.Stack :=
  mkDriver (Toy.args true true)
    [ ("a.sol", Toy.a_sol) ]
    (Toy.mkStack [ ("a.sol", Toy.a_sol) ] SourcesSet
       [ mkError OtherErrorType "Source file requires different compiler version." ])
    Toy.files [] [].

(** The files of [Toy] compiled once, the first of them read-only. *)
Definition readOnly : Driver Toy.Stack :=
  mkDriver (Toy.args true false)
    [ ("a.sol", Toy.a_sol); ("b.sol", Toy.b_sol) ]
    (Toy.mkStack [ ("a.sol", Toy.a_sol); ("b.sol", Toy.b_sol) ]
       AnalysisPerformed
       (Toy.missingAbstract [ ("a.sol", Toy.a_sol); ("b.sol", Toy.b_sol) ]))
    Toy.files [ "a.sol" ] [].



End DriverSamples.

(** * Proofs *)

(** ** Strings *)

Lemma append_nil_r (s : string) : (s ++ "")%string = s.
Proof. induction s as [|a s IH]; simpl; [reflexivity|now rewrite IH]. Qed.

Lemma append_assoc (s t u : string) :
  ((s ++ t) ++ u)%string = (s ++ t ++ u)%string.
Proof. induction s as [|a s IH]; simpl; [reflexivity|now rewrite IH]. Qed.

Lemma length_append (s t : string) :
  String.length (s ++ t) = String.length s + String.length t.
Proof. induction s as [|a s IH]; simpl; [reflexivity|now rewrite IH]. Qed.

(** ** Traversals *)

Lemma visitAll_app {A B} (f : A -> outcome (list B)) (l1 l2 : list A) :
  visitAll f (l1 ++ l2)
  = (xs <- visitAll f l1 ;; ys <- visitAll f l2 ;; Ret (xs ++ ys))%outcome.
Proof.
  induction l1 as [|x l1 IH]; simpl.
  - destruct (visitAll f l2); reflexivity.
  - destruct (f x) as [xs|e]; simpl; [|reflexivity].
    rewrite IH. destruct (visitAll f l1) as [ys|e]; simpl; [|reflexivity].
    destruct (visitAll f l2) as [zs|e]; simpl; [|reflexivity].
    now rewrite app_assoc.
Qed.

(** A traversal whose visits all return is the concatenation of what
    they return. *)
Lemma visitAll_pure {A B} (f : A -> outcome (list B)) (g : A -> list B)
  (l : list A) :
  (forall x, In x l -> f x = Ret (g x)) ->
  visitAll f l = Ret (flat_map g l).
Proof.
  induction l as [|x l IH]; intros Hf; simpl; [reflexivity|].
  rewrite (Hf x (or_introl eq_refl)). simpl.
  rewrite IH by (intros y Hy; apply Hf; now right). reflexivity.
Qed.

(** Every record a traversal returns comes from one visit. *)
Lemma visitAll_In {A B} (f : A -> outcome (list B)) (l : list A)
  (rs : list B) (r : B) :
  visitAll f l = Ret rs -> In r rs ->
  exists x xs, In x l /\ f x = Ret xs /\ In r xs.
Proof.
  revert rs. induction l as [|x l IH]; simpl; intros rs Hv Hr.
  - injection Hv as <-. contradiction.
  - destruct (f x) as [xs|e] eqn:Hx; simpl in Hv; [|discriminate].
    destruct (visitAll f l) as [ys|e] eqn:Hl; simpl in Hv; [|discriminate].
    injection Hv as <-. apply in_app_or in Hr as [Hr|Hr].
    + exists x, xs. auto.
    + destruct (IH ys eq_refl Hr) as (y & zs & Hy & Hfy & Hz).
      exists y, zs. auto.
Qed.

Lemma visitAll_nil {A B} (f : A -> outcome (list B)) (l : list A) :
  (forall x, In x l -> f x = Ret []) -> visitAll f l = Ret [].
Proof.
  intros Hf. rewrite (visitAll_pure f (fun _ => [])) by exact Hf.
  f_equal. clear Hf. induction l; simpl; auto.
Qed.

Lemma endVisitOrder_self (n : ASTNode) : In n (endVisitOrder n).
Proof.
  destruct n; simpl; repeat (apply in_or_app; right); now left.
Qed.

(** The nodes below a visited node are visited. *)
Lemma endVisitOrder_trans (n x y : ASTNode) :
  In x (endVisitOrder n) -> In y (endVisitOrder x) -> In y (endVisitOrder n).
Proof.
  revert x y.
  induction n as [c subs IH|f subs IH|loc l IHl r IHr|i e IHe|subs IH]
    using ASTNode_nested_ind; intros x y Hx Hy; simpl in Hx |- *.
  1, 2, 5:
    apply in_app_or in Hx as [Hx|[<-|[]]]; [|exact Hy];
    apply in_or_app; left;
    apply in_flat_map in Hx as (z & Hz & Hx); apply in_flat_map;
    exists z; split; [exact Hz|];
    rewrite Forall_forall in IH; exact (IH z Hz x y Hx Hy).
  - apply in_app_or in Hx as [Hx|Hx].
    + apply in_or_app; left. eauto.
    + apply in_app_or in Hx as [Hx|[<-|[]]]; [|exact Hy].
      apply in_or_app; right; apply in_or_app; left. eauto.
  - apply in_app_or in Hx as [Hx|[<-|[]]]; [|exact Hy].
    apply in_or_app; left. eauto.
Qed.

Lemma accept_child (su : SourceUnit) (n child : ASTNode) :
  In n (accept su) -> In child (endVisitOrder n) -> In child (accept su).
Proof.
  unfold accept. intros Hn Hc.
  apply in_flat_map in Hn as (top & Htop & Hn).
  apply in_flat_map. exists top. split; [exact Htop|].
  eapply endVisitOrder_trans; eassumption.
Qed.

Lemma definedFunctions_In (subNodes : list ASTNode) (f : FunctionInfo) :
  In f (definedFunctions subNodes) ->
  exists children, In (FunctionDefinition f children) subNodes.
Proof.
  induction subNodes as [|n r IH]; simpl; [contradiction|].
  destruct n; simpl; intros H;
    try (destruct (IH H) as [ch Hch]; exists ch; now right).
  destruct H as [<-|H].
  - eexists; left; reflexivity.
  - destruct (IH H) as [ch Hch]; exists ch; now right.
Qed.

(** The functions a contract defines are nodes of the unit. *)
Lemma accept_definedFunctions (su : SourceUnit) c subNodes f :
  In (ContractDefinition c subNodes) (accept su) ->
  In f (definedFunctions subNodes) ->
  exists children, In (FunctionDefinition f children) (accept su).
Proof.
  intros Hc Hf. destruct (definedFunctions_In _ _ Hf) as [ch Hch].
  exists ch. eapply accept_child; [exact Hc|].
  simpl. apply in_or_app; left. apply in_flat_map.
  eexists; split; [exact Hch|apply endVisitOrder_self].
Qed.

(** ** Extraction *)

Lemma substr_valid (s : string) (pos count : Z) :
  (0 <= pos <= size s)%Z -> exists t, substr s pos count = Ret t.
Proof.
  intros Hp. unfold substr.
  assert (to_size_t pos <= pos)%Z
    by (unfold to_size_t; apply Z.mod_le; lia).
  destruct (Z.ltb_spec (size s) (to_size_t pos)); [lia|eauto].
Qed.

Lemma codeAt_valid (loc : SourceLocation) :
  validLocation loc -> codeAt loc = Ret (textOf loc).
Proof.
  intros Hv. unfold textOf.
  destruct (substr_valid (cs_source (loc_source loc)) (loc_start loc)
              (loc_end loc - loc_start loc) Hv) as [t Ht].
  unfold codeAt. now rewrite Ht.
Qed.

Lemma codeAt_textOf (loc : SourceLocation) (s : string) :
  codeAt loc = Ret s -> textOf loc = s.
Proof. unfold textOf. now intros ->. Qed.

(** ** The rules, node by node *)

Lemma placeAfter_keywordPlaced ml loc hk k :
  placeAfterFunctionHeaderKeyword ml loc hk k
  = (codeBefore <- codeAt loc ;; Ret (keywordPlaced ml codeBefore hk k))%outcome.
Proof. reflexivity. Qed.

Lemma placeAfter_valid ml loc hk k :
  validLocation loc ->
  placeAfterFunctionHeaderKeyword ml loc hk k
  = Ret (keywordPlaced ml (textOf loc) hk k).
Proof.
  intros Hv. rewrite placeAfter_keywordPlaced, (codeAt_valid _ Hv). reflexivity.
Qed.

Lemma visitAll_total {A B} (f : A -> outcome (list B)) (l : list A) :
  (forall x, In x l -> exists r, f x = Ret r) ->
  exists rs, visitAll f l = Ret rs.
Proof.
  induction l as [|x l IH]; intros Hf; simpl; [eauto|].
  destruct (Hf x (or_introl eq_refl)) as [r ->].
  destruct IH as [rs ->]; [intros y Hy; apply Hf; now right|].
  simpl. eauto.
Qed.

Lemma visitAll_Forall {A B} (P : B -> Prop) (f : A -> outcome (list B))
  (l : list A) (rs : list B) :
  (forall x xs, In x l -> f x = Ret xs -> Forall P xs) ->
  visitAll f l = Ret rs -> Forall P rs.
Proof.
  intros Hf Hv. apply Forall_forall. intros r Hr.
  destruct (visitAll_In _ _ _ _ Hv Hr) as (x & xs & Hx & Hfx & Hrx).
  specialize (Hf x xs Hx Hfx). rewrite Forall_forall in Hf. auto.
Qed.

Lemma AbstractContract_endVisit_safe n cs :
  AbstractContract_endVisit n = Ret cs ->
  Forall (fun c => m_level c = Safe /\ additionOnly c) cs.
Proof.
  destruct n as [c subs| | | |]; simpl;
    try (intros [= <-]; constructor).
  destruct (isTrigger_AbstractContract c); [|intros [= <-]; constructor].
  destruct (codeAt (ct_location c)) as [t|e] eqn:Ht; simpl; [|discriminate].
  intros [= <-]. constructor; [|constructor]. split; [reflexivity|].
  exists t, "abstract ", "". simpl. split; [exact Ht|].
  now rewrite append_nil_r.
Qed.

Lemma OverridingFunction_super_unsafe ml f s cs :
  OverridingFunction_super ml f s = Ret cs ->
  Forall (fun c => m_level c = Unsafe) cs.
Proof.
  unfold OverridingFunction_super. intros H.
  destruct (super_hasEqualParameterTypes s && negb (fn_overrides f));
    destruct (negb (super_virtualSemantics s));
    repeat match type of H with
      | context [placeAfterFunctionHeaderKeyword ?a ?b ?c ?d] =>
          destruct (placeAfterFunctionHeaderKeyword a b c d);
          simpl in H; [|discriminate]
      end;
    simpl in H; injection H as <-; repeat constructor.
Qed.

Lemma OverridingFunction_endVisit_unsafe ml n cs :
  OverridingFunction_endVisit ml n = Ret cs ->
  Forall (fun c => m_level c = Unsafe) cs.
Proof.
  destruct n as [c subs| | | |]; simpl;
    try (intros [= <-]; constructor).
  apply visitAll_Forall. intros f xs _. unfold OverridingFunction_function.
  destruct (negb (fn_isConstructor f)); [|intros [= <-]; constructor].
  apply visitAll_Forall. intros s ys _.
  apply OverridingFunction_super_unsafe.
Qed.

Lemma VirtualFunction_endVisit_unsafe ml n cs :
  VirtualFunction_endVisit ml n = Ret cs ->
  Forall (fun c => m_level c = Unsafe) cs.
Proof.
  destruct n as [|f ch| | |]; simpl; try (intros [= <-]; constructor).
  destruct (negb (fn_virtualSemantics f)); [|intros [= <-]; constructor].
  destruct (placeAfterFunctionHeaderKeyword _ _ _ _); simpl; [|discriminate].
  intros [= <-]. repeat constructor.
Qed.

Lemma ArrayLength_endVisit_unsafe n cs :
  ArrayLength_endVisit n = Ret cs ->
  Forall (fun c => m_level c = Unsafe /\ m_patch c = "") cs.
Proof.
  destruct n as [| |loc l r| |]; try (intros [= <-]; constructor).
  unfold ArrayLength_endVisit.
  destruct (isTrigger_ArrayLength (Assignment loc l r));
    [|intros [= <-]; constructor].
  destruct (substr (cs_source (loc_source loc)) (loc_start loc) (loc_end loc));
    simpl; [|discriminate].
  intros [= <-]. repeat constructor.
Qed.

(** With valid locations no rule throws. *)
Lemma OverridingFunction_function_total ml f :
  validLocation (fn_location f) ->
  exists cs, OverridingFunction_function ml f = Ret cs.
Proof.
  intros Hv. unfold OverridingFunction_function.
  destruct (negb (fn_isConstructor f)); [|eauto].
  apply visitAll_total. intros s _. unfold OverridingFunction_super.
  rewrite !(placeAfter_valid _ _ _ _ Hv).
  destruct (super_hasEqualParameterTypes s && negb (fn_overrides f));
    destruct (negb (super_virtualSemantics s)); simpl; eauto.
Qed.

Lemma OverridingFunction_analyze_total ml su :
  wellLocated su -> exists cs, OverridingFunction_analyze ml su = Ret cs.
Proof.
  intros Hw. apply visitAll_total. intros n Hn.
  destruct n as [c subs| | | |]; simpl; eauto.
  apply visitAll_total. intros f Hf.
  apply OverridingFunction_function_total.
  destruct (accept_definedFunctions _ _ _ _ Hn Hf) as [ch Hch].
  exact (Hw _ _ Hch eq_refl).
Qed.

Lemma VirtualFunction_analyze_total ml su :
  wellLocated su -> exists cs, VirtualFunction_analyze ml su = Ret cs.
Proof.
  intros Hw. apply visitAll_total. intros n Hn.
  destruct n as [|f ch| | |]; simpl; eauto.
  rewrite (placeAfter_valid _ _ _ _ (Hw _ _ Hn eq_refl)).
  destruct (negb (fn_virtualSemantics f)); simpl; eauto.
Qed.

Lemma AbstractContract_analyze_valid su :
  wellLocated su ->
  AbstractContract_analyze su
  = Ret (map abstractRecord (filter isTrigger_AbstractContract (contracts su))).
Proof.
  intros Hw. unfold AbstractContract_analyze.
  rewrite (visitAll_pure AbstractContract_endVisit
             (fun n => match n with
                       | ContractDefinition c _ =>
                           if isTrigger_AbstractContract c
                           then [abstractRecord c] else []
                       | _ => []
                       end)).
  - f_equal. unfold contracts. induction (accept su) as [|n l IH]; simpl;
      [reflexivity|].
    rewrite filter_app, map_app, <- IH. f_equal.
    destruct n as [c subs| | | |]; simpl; try reflexivity.
    destruct (isTrigger_AbstractContract c); reflexivity.
  - intros n Hn. destruct n as [c subs| | | |]; simpl; try reflexivity.
    destruct (isTrigger_AbstractContract c); [|reflexivity].
    rewrite (codeAt_valid _ (Hw _ _ Hn eq_refl)). reflexivity.
Qed.

Lemma filter_isSafe_unsafe (cs : list UpgradeChange) :
  Forall (fun c => m_level c = Unsafe) cs -> filter isSafe cs = [].
Proof.
  induction 1 as [|c cs Hc _ IH]; simpl; [reflexivity|].
  replace (isSafe c) with false by (unfold isSafe; now rewrite Hc).
  exact IH.
Qed.

Lemma filter_isSafe_safe (cs : list UpgradeChange) :
  Forall (fun c => m_level c = Safe) cs -> filter isSafe cs = cs.
Proof.
  induction 1 as [|c cs Hc _ IH]; simpl; [reflexivity|].
  replace (isSafe c) with true by (unfold isSafe; now rewrite Hc).
  now rewrite IH.
Qed.

(** The safe records of the catalogue are those of the abstractness
    rule. *)
Lemma Upgrade060_analyze_safe ml su changes :
  Upgrade060_analyze ml su = Ret changes ->
  exists abstracts,
    AbstractContract_analyze su = Ret abstracts
    /\ filter isSafe changes = abstracts.
Proof.
  unfold Upgrade060_analyze. intros H.
  destruct (AbstractContract_analyze su) as [xs|e] eqn:Ha; simpl in H;
    [|discriminate].
  destruct (OverridingFunction_analyze ml su) as [ys|e] eqn:Ho; simpl in H;
    [|discriminate].
  destruct (VirtualFunction_analyze ml su) as [zs|e] eqn:Hv; simpl in H;
    [|discriminate].
  injection H as <-. exists xs. split; [reflexivity|].
  rewrite !filter_app.
  rewrite (filter_isSafe_unsafe ys), (filter_isSafe_unsafe zs).
  - rewrite !app_nil_r. apply filter_isSafe_safe.
    eapply visitAll_Forall; [|exact Ha]. intros n cs _ Hn.
    eapply Forall_impl; [|exact (AbstractContract_endVisit_safe _ _ Hn)].
    now intros c [Hc _].
  - eapply visitAll_Forall; [|exact Hv]. intros n cs _.
    apply VirtualFunction_endVisit_unsafe.
  - eapply visitAll_Forall; [|exact Ho]. intros n cs _.
    apply OverridingFunction_endVisit_unsafe.
Qed.

Lemma Upgrade060_analyze_total ml su :
  wellLocated su -> exists changes, Upgrade060_analyze ml su = Ret changes.
Proof.
  intros Hw. unfold Upgrade060_analyze.
  rewrite (AbstractContract_analyze_valid _ Hw).
  destruct (OverridingFunction_analyze_total ml _ Hw) as [ys ->].
  destruct (VirtualFunction_analyze_total ml _ Hw) as [zs ->].
  simpl. eauto.
Qed.

Lemma wellLocatedb_ok (su : SourceUnit) :
  wellLocatedb su = true -> wellLocated su.
Proof.
  unfold wellLocatedb, wellLocated. rewrite forallb_forall.
  intros H n loc Hn Hloc. specialize (H n Hn). rewrite Hloc in H.
  unfold validLocationb in H. apply andb_prop in H as [H1 H2].
  unfold validLocation. lia.
Qed.

Lemma substring_firstChars (s : string) :
  forall n m, substring n m s = firstChars m (skipChars n s).
Proof.
  induction s as [|c s IH]; intros [|n] [|m]; simpl; try reflexivity.
  - now rewrite (IH 0 m).
  - now rewrite (IH n 0).
  - now rewrite (IH n (S m)).
Qed.

Lemma firstChars_length (s : string) :
  forall n, String.length s <= n -> firstChars n s = s.
Proof.
  induction s as [|c s IH]; intros [|n] H; simpl in *; try reflexivity;
    try lia.
  rewrite IH; [reflexivity|lia].
Qed.

Lemma skipChars_length (s : string) :
  forall n, n <= String.length s ->
            String.length (skipChars n s) = String.length s - n.
Proof.
  induction s as [|c s IH]; intros [|n] H; simpl in *; try reflexivity;
    try lia.
  apply IH. lia.
Qed.

Lemma firstChars_min (s : string) (n : nat) :
  firstChars (Nat.min n (String.length s)) s = firstChars n s.
Proof.
  revert n. induction s as [|c s IH]; intros [|n]; simpl; try reflexivity.
  now rewrite IH.
Qed.

(** On a byte range of the text the extraction of the rules returns
    the text of the range. *)
Lemma codeAt_declarationText (loc : SourceLocation) :
  rangeInText loc -> codeAt loc = Ret (declarationText loc).
Proof.
  unfold rangeInText, codeAt, substr, to_size_t, declarationText, size.
  set (s := cs_source (loc_source loc)). intros (Hs & He & Hi).
  rewrite (Z.mod_small (loc_start loc)) by lia.
  rewrite (Z.mod_small (loc_end loc - loc_start loc)) by lia.
  destruct (Z.ltb_spec (Z.of_nat (String.length s)) (loc_start loc)); [lia|].
  f_equal. rewrite substring_firstChars.
  rewrite <- (firstChars_min (skipChars (Z.to_nat (loc_start loc)) s)
                (Z.to_nat (loc_end loc - loc_start loc))).
  f_equal. rewrite skipChars_length by lia. lia.
Qed.

Lemma textOf_declarationText (loc : SourceLocation) :
  rangeInText loc -> textOf loc = declarationText loc.
Proof.
  intros H. unfold textOf. now rewrite (codeAt_declarationText loc H).
Qed.

(** ** The abstractness rule *)

(** C4: with valid locations, those of the contracts being byte ranges
    of their text, the catalogue returns, and its Safe records are, in
    visiting order, one record for every contract that has an
    unimplemented function and is neither abstract nor an interface:
    the record has the contract's own location, and its replacement
    is "abstract " put before the original text of the declaration,
    the bytes of the source from the start to the end of that
    location. *)
Theorem abstract_contract_records (multiline : bool) (su : SourceUnit) :
  wellLocated su ->
  (forall c, In c (contracts su) -> rangeInText (ct_location c)) ->
  exists changes,
    Upgrade060_analyze multiline su = Ret changes
    /\ filter isSafe changes
       = map (fun c =>
                {| m_location := ct_location c;
                   m_source := cs_source (loc_source (ct_location c));
                   m_patch :=
                     ("abstract " ++ declarationText (ct_location c))%string;
                   m_level := Safe |})
           (filter isTrigger_AbstractContract (contracts su)).
Proof.
  intros Hw Hr.
  destruct (Upgrade060_analyze_total multiline su Hw) as [changes Hc].
  exists changes. split; [exact Hc|].
  destruct (Upgrade060_analyze_safe _ _ _ Hc) as (xs & Hxs & ->).
  rewrite (AbstractContract_analyze_valid su Hw) in Hxs.
  injection Hxs as <-. apply map_ext_in. intros c Hin.
  apply filter_In in Hin as [Hin _]. unfold abstractRecord, newUpgradeChange.
  now rewrite (textOf_declarationText _ (Hr c Hin)).
Qed.

Lemma abstract_contract_records_witness :
  wellLocated MoreSamples.nested_unit
  /\ exists changes,
       Upgrade060_analyze false MoreSamples.nested_unit = Ret changes
       /\ filter isSafe changes = [MoreSamples.nested_record].
Proof.
  assert (Hw : wellLocated MoreSamples.nested_unit)
    by (apply wellLocatedb_ok; reflexivity).
  split; [exact Hw|].
  destruct (abstract_contract_records false MoreSamples.nested_unit Hw)
    as (changes & Hc & Hs).
  - intros c [<-|[<-|[]]]; vm_compute;
      repeat split; (discriminate || reflexivity).
  - exists changes. split; [exact Hc|]. rewrite Hs. reflexivity.
Defined.

(** C6: every Safe record that a rule emits at a node, and every Safe
    record of the catalogue, only adds: its replacement text holds the
    text of its own byte range as one contiguous piece. *)
Theorem safe_records_only_add (multiline : bool) :
  (forall rule n changes c,
      In rule (rules multiline) ->
      rule n = Ret changes -> In c changes -> m_level c = Safe ->
      additionOnly c)
  /\ (forall su changes c,
        Upgrade060_analyze multiline su = Ret changes ->
        In c changes -> m_level c = Safe ->
        additionOnly c).
Proof.
  assert (Habs : forall n changes c,
             AbstractContract_endVisit n = Ret changes -> In c changes ->
             additionOnly c).
  { intros n changes c Hn Hc.
    pose proof (AbstractContract_endVisit_safe _ _ Hn) as HF.
    rewrite Forall_forall in HF. exact (proj2 (HF c Hc)). }
  assert (Hno : forall changes c,
             Forall (fun c => m_level c = Unsafe) changes ->
             In c changes -> m_level c = Safe -> additionOnly c).
  { intros changes c HF Hc Hs. rewrite Forall_forall in HF.
    rewrite (HF c Hc) in Hs. discriminate. }
  split.
  - intros rule n changes c Hrule Hn Hc Hs.
    destruct Hrule as [<-|[<-|[<-|[<-|[]]]]].
    + exact (Habs n changes c Hn Hc).
    + exact (Hno changes c
               (OverridingFunction_endVisit_unsafe _ _ _ Hn) Hc Hs).
    + exact (Hno changes c (VirtualFunction_endVisit_unsafe _ _ _ Hn) Hc Hs).
    + refine (Hno changes c _ Hc Hs).
      eapply Forall_impl; [|exact (ArrayLength_endVisit_unsafe _ _ Hn)].
      now intros x [Hx _].
  - intros su changes c Hsu Hc Hs.
    destruct (Upgrade060_analyze_safe _ _ _ Hsu) as (xs & Hxs & Hf).
    assert (Hin : In c xs).
    { rewrite <- Hf. apply filter_In. split; [exact Hc|].
      unfold isSafe. now rewrite Hs. }
    destruct (visitAll_In _ _ _ _ Hxs Hin) as (n & cs & _ & Hn & Hcn).
    eauto.
Qed.

Lemma safe_records_only_add_witness :
  Upgrade060_analyze false Samples.unimplemented_unit
  = Ret [Samples.abstract_record]
  /\ additionOnly Samples.abstract_record.
Proof.
  split; [reflexivity|].
  exact (proj2 (safe_records_only_add false) Samples.unimplemented_unit
           [Samples.abstract_record] Samples.abstract_record
           eq_refl (or_introl eq_refl) eq_refl).
Defined.

(** ** The array-length rule *)

(** C2, as the code has it: the array-length rule, run over a unit with
    valid locations, returns one Unsafe record with an empty
    replacement for every assignment to [.length] of an array in lvalue
    position, at the assignment's location; and every record of the
    catalogue that ships comes from one of its three registered rules,
    the array-length rule not being among them. *)
Theorem array_length_rule_records (multiline : bool) (su : SourceUnit) :
  wellLocated su ->
  ArrayLength_analyze su
  = Ret (map (fun location => newUpgradeChange Unsafe location "")
           (lengthAssignments su))
  /\ forall changes c,
       Upgrade060_analyze multiline su = Ret changes -> In c changes ->
       exists rule n cs,
         In rule (registeredRules multiline)
         /\ In n (accept su) /\ rule n = Ret cs /\ In c cs.
Proof.
  intros Hw. split.
  - unfold ArrayLength_analyze.
    rewrite (visitAll_pure ArrayLength_endVisit
               (fun n => match n with
                         | Assignment location _ _ =>
                             if isTrigger_ArrayLength n
                             then [newUpgradeChange Unsafe location ""]
                             else []
                         | _ => []
                         end)).
    + f_equal. unfold lengthAssignments.
      induction (accept su) as [|n l IH]; [reflexivity|].
      cbn [flat_map]. rewrite map_app, <- IH. f_equal.
      destruct n as [| |loc lhs rhs| |]; try reflexivity.
      destruct (isTrigger_ArrayLength (Assignment loc lhs rhs)); reflexivity.
    + intros n Hn. destruct n as [| |loc lhs rhs| |]; try reflexivity.
      unfold ArrayLength_endVisit.
      destruct (isTrigger_ArrayLength (Assignment loc lhs rhs));
        [|reflexivity].
      destruct (substr_valid (cs_source (loc_source loc)) (loc_start loc)
                  (loc_end loc) (Hw _ _ Hn eq_refl)) as [t ->].
      reflexivity.
  - intros changes c Hsu Hc. unfold Upgrade060_analyze in Hsu.
    destruct (AbstractContract_analyze su) as [xs|e] eqn:Ha; simpl in Hsu;
      [|discriminate].
    destruct (OverridingFunction_analyze multiline su) as [ys|e] eqn:Ho;
      simpl in Hsu; [|discriminate].
    destruct (VirtualFunction_analyze multiline su) as [zs|e] eqn:Hv;
      simpl in Hsu; [|discriminate].
    injection Hsu as <-.
    apply in_app_or in Hc as [Hc|Hc]; [|apply in_app_or in Hc as [Hc|Hc]].
    + destruct (visitAll_In _ _ _ _ Ha Hc) as (n & cs & Hn & Hr & Hcs).
      exists AbstractContract_endVisit, n, cs. simpl. auto.
    + destruct (visitAll_In _ _ _ _ Ho Hc) as (n & cs & Hn & Hr & Hcs).
      exists (OverridingFunction_endVisit multiline), n, cs. simpl. auto.
    + destruct (visitAll_In _ _ _ _ Hv Hc) as (n & cs & Hn & Hr & Hcs).
      exists (VirtualFunction_endVisit multiline), n, cs. simpl. auto 6.
Qed.

Lemma array_length_rule_records_witness :
  wellLocated Samples.length_unit
  /\ ArrayLength_analyze Samples.length_unit
     = Ret [ {| m_location :=
                  mkSourceLocation 53 65 Samples.length_sol;
                m_source := cs_source Samples.length_sol;
                m_patch := "";
                m_level := Unsafe |} ].
Proof.
  assert (Hw : wellLocated Samples.length_unit)
    by (apply wellLocatedb_ok; reflexivity).
  split; [exact Hw|].
  exact (proj1 (array_length_rule_records false Samples.length_unit Hw)).
Defined.

(** C2 as stated fails: the unit holds an assignment to [a.length] of a
    dynamic array in lvalue position, and the catalogue that ships
    returns no record at all, under either reading of [$]. *)
Lemma catalogue_misses_array_length :
  isTrigger_ArrayLength Samples.length_assignment = true
  /\ In Samples.length_assignment (accept Samples.length_unit)
  /\ Upgrade060_analyze false Samples.length_unit = Ret []
  /\ Upgrade060_analyze true Samples.length_unit = Ret [].
Proof.
  repeat split; try reflexivity.
  simpl. auto 10.
Qed.

(** ** A second run of the safe pass *)

(** In a unit whose contracts are all declared abstract, or are
    interfaces, or are fully implemented, the abstractness rule emits
    nothing, and the catalogue returns no Safe record. *)
Lemma settled_unit_no_safe_record (multiline : bool) (su : SourceUnit) :
  (forall c, In c (contracts su) -> isImplementedOrAbstract c) ->
  AbstractContract_analyze su = Ret []
  /\ forall changes,
       Upgrade060_analyze multiline su = Ret changes ->
       filter isSafe changes = [].
Proof.
  intros Hall.
  assert (Ha : AbstractContract_analyze su = Ret []).
  { apply visitAll_nil. intros n Hn.
    destruct n as [c subs| | | |]; try reflexivity. simpl.
    assert (Hc : In c (contracts su)).
    { unfold contracts. apply in_flat_map.
      exists (ContractDefinition c subs). split; [exact Hn|now left]. }
    replace (isTrigger_AbstractContract c) with false; [reflexivity|].
    unfold isTrigger_AbstractContract.
    destruct (Hall c Hc) as [H|[H|H]]; rewrite H; simpl.
    - now rewrite andb_false_r.
    - now rewrite andb_false_r.
    - reflexivity. }
  split; [exact Ha|].
  intros changes Hc.
  destruct (Upgrade060_analyze_safe _ _ _ Hc) as (xs & Hxs & ->).
  rewrite Ha in Hxs. now injection Hxs as <-.
Qed.

(** ** The two regular expressions *)

Lemma lastOr_app (p : option ascii) (a b : string) :
  lastOr p (a ++ b) = lastOr (lastOr p a) b.
Proof. revert p. induction a as [|c a IH]; intros p; simpl; auto. Qed.

Lemma stripPrefix_append (kw s r : string) :
  stripPrefix kw s = Some r -> s = (kw ++ r)%string.
Proof.
  revert s. induction kw as [|a kw IH]; intros s; simpl.
  - now intros [= ->].
  - destruct s as [|b s]; [discriminate|].
    destruct (Ascii.eqb a b) eqn:Hab; [|discriminate].
    apply Ascii.eqb_eq in Hab as ->. intros H. now rewrite (IH s H).
Qed.

Lemma matchWord_append (kw : string) (prev : option ascii) (s r : string) :
  matchWord kw prev s = Some r -> s = (kw ++ r)%string.
Proof.
  unfold matchWord. destruct (wordBoundary prev s); [|discriminate].
  destruct (stripPrefix kw s) as [rest|] eqn:Hs; [|discriminate].
  destruct (wordBoundary (lastOr prev kw) rest); [|discriminate].
  intros [= <-]. now apply stripPrefix_append.
Qed.

Lemma append_inv_length (a1 a2 b1 b2 : string) :
  (a1 ++ a2)%string = (b1 ++ b2)%string ->
  String.length a1 = String.length b1 ->
  a1 = b1 /\ a2 = b2.
Proof.
  revert b1. induction a1 as [|c a1 IH]; intros [|d b1]; simpl;
    try discriminate; [auto|].
  intros [= -> H] [= Hl]. destruct (IH b1 H Hl) as [-> ->]. auto.
Qed.

Lemma append_inv_head (k a b : string) :
  (k ++ a)%string = (k ++ b)%string -> a = b.
Proof. induction k as [|c k IH]; simpl; [auto|]. intros [= H]. auto. Qed.

Lemma wordPositions_In (kw : string) (a1 a2 r : string) :
  forall prev i,
    matchWord kw (lastOr prev a1) a2 = Some r ->
    In (i + String.length a1) (wordPositions kw prev i (a1 ++ a2)).
Proof.
  induction a1 as [|c a1 IH]; intros prev i Hm.
  - simpl in Hm. rewrite Nat.add_0_r.
    destruct a2 as [|d a2]; cbn [append wordPositions]; rewrite Hm;
      now left.
  - cbn [append wordPositions]. apply in_or_app. right.
    replace (i + String.length (String c a1)) with (S i + String.length a1)
      by (simpl; lia).
    apply IH. exact Hm.
Qed.

Lemma wordPositions_split (kw s : string) :
  forall prev i j,
    In j (wordPositions kw prev i s) ->
    exists a1 a2 r,
      s = (a1 ++ a2)%string /\ j = i + String.length a1
      /\ matchWord kw (lastOr prev a1) a2 = Some r.
Proof.
  induction s as [|c s IH]; intros prev i j Hj.
  - cbn [wordPositions] in Hj. rewrite app_nil_r in Hj.
    destruct (matchWord kw prev "") as [r|] eqn:Hm; [|contradiction].
    destruct Hj as [<-|[]]. exists "", "", r. simpl. auto.
  - cbn [wordPositions] in Hj. apply in_app_or in Hj as [Hj|Hj].
    + destruct (matchWord kw prev (String c s)) as [r|] eqn:Hm;
        [|contradiction].
      destruct Hj as [<-|[]]. exists "", (String c s), r. simpl. auto.
    + destruct (IH (Some c) (S i) j Hj) as (a1 & a2 & r & -> & -> & Hm).
      exists (String c a1), a2, r. simpl. split; [reflexivity|].
      split; [lia|exact Hm].
Qed.

Lemma replaceWord_step (kw fmt : string) (prev : option ascii) (c : ascii)
  (t : string) :
  replaceWord kw fmt prev 0 (String c t)
  = match matchWord kw prev (String c t) with
    | Some _ =>
        (fmt ++ replaceWord kw fmt (Some c) (String.length kw - 1) t)%string
    | None => String c (replaceWord kw fmt (Some c) 0 t)
    end.
Proof. reflexivity. Qed.

(** A stretch in which no match starts is copied. *)
Lemma replaceWord_copy (kw fmt : string) (a rest : string) :
  forall prev,
    (forall a1 a2, a = (a1 ++ a2)%string -> a2 <> "" ->
                   matchWord kw (lastOr prev a1) (a2 ++ rest) = None) ->
    replaceWord kw fmt prev 0 (a ++ rest)
    = (a ++ replaceWord kw fmt (lastOr prev a) 0 rest)%string.
Proof.
  induction a as [|c a IH]; intros prev Hno; [reflexivity|].
  cbn [append]. rewrite replaceWord_step.
  assert (H0 : matchWord kw prev (String c (a ++ rest)) = None)
    by (apply (Hno "" (String c a) eq_refl); discriminate).
  rewrite H0. cbn [lastOr]. f_equal. apply IH. intros a1 a2 -> Ha2.
  exact (Hno (String c a1) a2 eq_refl Ha2).
Qed.

(** The characters of a match are passed over. *)
Lemma replaceWord_skip (kw fmt : string) (a rest : string) :
  forall prev,
    replaceWord kw fmt prev (String.length a) (a ++ rest)
    = replaceWord kw fmt (lastOr prev a) 0 rest.
Proof.
  induction a as [|c a IH]; intros prev; [reflexivity|].
  cbn [append String.length replaceWord lastOr]. apply IH.
Qed.

(** At a match the format is written and the search goes on after it. *)
Lemma replaceWord_match (kw fmt : string) (prev : option ascii)
  (post : string) :
  kw <> "" ->
  matchWord kw prev (kw ++ post) = Some post ->
  replaceWord kw fmt prev 0 (kw ++ post)
  = (fmt ++ replaceWord kw fmt (lastOr prev kw) 0 post)%string.
Proof.
  destruct kw as [|c k]; [contradiction|]. intros _ Hm.
  cbn [append] in Hm |- *. rewrite replaceWord_step, Hm. f_equal.
  replace (String.length (String c k) - 1) with (String.length k)
    by (simpl; lia).
  exact (replaceWord_skip (String c k) fmt k post (Some c)).
Qed.

Lemma length_nonempty (s : string) : s <> "" -> 0 < String.length s.
Proof. destruct s; [contradiction|simpl; lia]. Qed.

Lemma searchWordAtEnd_iff (ml : bool) (kw s : string) :
  forall prev,
    searchWordAtEnd ml kw prev s = true
    <-> exists a1 a2 r,
          s = (a1 ++ a2)%string
          /\ matchWord kw (lastOr prev a1) a2 = Some r
          /\ atEnd ml r = true.
Proof.
  induction s as [|c s IH]; intros prev; cbn [searchWordAtEnd].
  - rewrite orb_false_r. split.
    + destruct (matchWord kw prev "") as [r|] eqn:Hm; [|discriminate].
      intros Hr. exists "", "", r. auto.
    + intros (a1 & a2 & r & Hs & Hm & Hr).
      destruct a1; [|discriminate]. simpl in Hs. subst a2.
      simpl in Hm. now rewrite Hm.
  - rewrite orb_true_iff, IH. split.
    + intros [H|(a1 & a2 & r & -> & Hm & Hr)].
      * destruct (matchWord kw prev (String c s)) as [r|] eqn:Hm;
          [|discriminate].
        exists "", (String c s), r. auto.
      * exists (String c a1), a2, r. auto.
    + intros (a1 & a2 & r & Hs & Hm & Hr). destruct a1 as [|d a1].
      * left. simpl in Hs, Hm. subst a2. now rewrite Hm.
      * right. injection Hs as <- ->. exists a1, a2, r. auto.
Qed.

Section OnlyWord.

Variables (kw text pre post : string).
Hypothesis Honly : onlyWord kw text pre post.
Hypothesis Hkw : kw <> "".

(** Every match of the text starts where [pre] ends. *)
Lemma onlyWord_unique (a1 a2 r : string) :
  text = (a1 ++ a2)%string ->
  matchWord kw (lastOr None a1) a2 = Some r ->
  a1 = pre /\ a2 = (kw ++ post)%string /\ r = post.
Proof.
  pose proof Honly as [Ht Hp]. intros Hs Hm.
  pose proof (wordPositions_In kw a1 a2 r None 0 Hm) as Hin.
  rewrite <- Hs, Hp in Hin. destruct Hin as [Hl|[]]. simpl in Hl.
  rewrite Ht in Hs.
  destruct (append_inv_length pre (kw ++ post) a1 a2 Hs Hl) as [E1 E2].
  split; [now symmetry|]. split; [now symmetry|].
  apply matchWord_append in Hm. rewrite <- E2 in Hm. symmetry.
  exact (append_inv_head kw post r Hm).
Qed.

Lemma onlyWord_match :
  matchWord kw (lastOr None pre) (kw ++ post) = Some post.
Proof.
  pose proof Honly as [Ht Hp].
  assert (Hin : In (String.length pre) (wordPositions kw None 0 text))
    by (rewrite Hp; now left).
  destruct (wordPositions_split kw text None 0 _ Hin)
    as (a1 & a2 & r & Hs & Hl & Hm).
  destruct (onlyWord_unique a1 a2 r Hs Hm) as (-> & -> & ->). exact Hm.
Qed.

(** [regex_replace] puts the format in the place of the one match. *)
Lemma regex_replace_onlyWord (fmt : string) :
  regex_replace text kw fmt = (pre ++ fmt ++ post)%string.
Proof.
  pose proof onlyWord_match as Hm. pose proof Honly as [Ht Hp].
  pose proof (length_nonempty kw Hkw) as Hlen.
  unfold regex_replace. rewrite Ht.
  rewrite replaceWord_copy.
  - f_equal. rewrite (replaceWord_match kw fmt _ post Hkw Hm). f_equal.
    rewrite <- (append_nil_r post) at 1.
    rewrite replaceWord_copy; [simpl; apply append_nil_r|].
    intros b1 b2 Hb Hb2. rewrite append_nil_r.
    destruct (matchWord kw (lastOr (lastOr (lastOr None pre) kw) b1) b2)
      as [r|] eqn:Hr; [exfalso|reflexivity].
    assert (Hs : text = ((pre ++ kw ++ b1) ++ b2)%string)
      by (rewrite Ht, Hb, !append_assoc; reflexivity).
    rewrite <- !lastOr_app in Hr.
    destruct (onlyWord_unique _ _ _ Hs Hr) as (Hpre & _ & _).
    apply (f_equal String.length) in Hpre.
    rewrite !length_append in Hpre. lia.
  - intros a1 a2 Ha Ha2.
    destruct (matchWord kw (lastOr None a1) (a2 ++ kw ++ post))
      as [r|] eqn:Hr; [exfalso|reflexivity].
    assert (Hs : text = (a1 ++ a2 ++ kw ++ post)%string)
      by (rewrite Ht, Ha, append_assoc; reflexivity).
    destruct (onlyWord_unique _ _ _ Hs Hr) as (Hpre & _ & _).
    rewrite Hpre in Ha. apply (f_equal String.length) in Ha.
    rewrite length_append in Ha.
    pose proof (length_nonempty a2 Ha2). lia.
Qed.

(** [isMultiline] asks whether [$] holds right after the one match. *)
Lemma isMultiline_onlyWord (ml : bool) :
  isMultiline ml text kw = atEnd ml post.
Proof.
  apply eq_iff_eq_true. unfold isMultiline. rewrite searchWordAtEnd_iff.
  split.
  - intros (a1 & a2 & r & Hs & Hm & Hr).
    destruct (onlyWord_unique a1 a2 r Hs Hm) as (_ & _ & ->). exact Hr.
  - intros Hr. exists pre, (kw ++ post)%string, post.
    split; [exact (proj1 Honly)|]. split; [exact onlyWord_match|exact Hr].
Qed.

(** The keyword lands after the one occurrence of the header keyword:
    after a newline where [$] holds there, after a space elsewhere. *)
Lemma keywordPlaced_onlyWord (ml : bool) (keyword : string) :
  keywordPlaced ml text kw keyword
  = (pre ++ kw ++ (if atEnd ml post then nl else " ") ++ keyword ++ post)%string.
Proof.
  unfold keywordPlaced. rewrite regex_replace_onlyWord, isMultiline_onlyWord.
  destruct (atEnd ml post); now rewrite !append_assoc.
Qed.

End OnlyWord.

(** ** The override and virtual rules *)

Lemma flat_map_comp {A B C} (f : B -> list C) (g : A -> list B)
  (l : list A) :
  flat_map f (flat_map g l) = flat_map (fun x => flat_map f (g x)) l.
Proof.
  induction l as [|x l IH]; simpl; [reflexivity|].
  now rewrite flat_map_app, IH.
Qed.

Lemma flat_map_map {A B C} (f : B -> list C) (g : A -> B) (l : list A) :
  flat_map f (map g l) = flat_map (fun x => f (g x)) l.
Proof. induction l as [|x l IH]; simpl; [reflexivity|now rewrite IH]. Qed.

Lemma flat_map_nil {A B} (f : A -> list B) (l : list A) :
  (forall x, In x l -> f x = []) -> flat_map f l = [].
Proof.
  induction l as [|x l IH]; intros H; simpl; [reflexivity|].
  rewrite (H x (or_introl eq_refl)), IH; [reflexivity|].
  intros y Hy. apply H. now right.
Qed.

Lemma OverridingFunction_super_valid ml f s :
  validLocation (fn_location f) ->
  OverridingFunction_super ml f s = Ret (pairRecords ml (f, s)).
Proof.
  intros Hv. unfold OverridingFunction_super, pairRecords, keywordRecord.
  rewrite !(placeAfter_valid _ _ _ _ Hv). simpl.
  destruct (super_hasEqualParameterTypes s && negb (fn_overrides f));
    destruct (negb (super_virtualSemantics s)); reflexivity.
Qed.

Lemma OverridingFunction_function_valid ml f :
  validLocation (fn_location f) ->
  OverridingFunction_function ml f
  = Ret (flat_map (pairRecords ml) (inheritedPairs f)).
Proof.
  intros Hv. unfold OverridingFunction_function, inheritedPairs.
  destruct (fn_isConstructor f); simpl; [reflexivity|].
  rewrite flat_map_map. apply visitAll_pure. intros s _.
  now apply OverridingFunction_super_valid.
Qed.

Lemma OverridingFunction_analyze_valid ml su :
  wellLocated su ->
  OverridingFunction_analyze ml su
  = Ret (flat_map (pairRecords ml) (overridePairs su)).
Proof.
  intros Hw. unfold OverridingFunction_analyze, overridePairs.
  rewrite flat_map_comp. apply visitAll_pure. intros n Hn.
  destruct n as [c subs| | | |]; try reflexivity. simpl.
  rewrite flat_map_comp. apply visitAll_pure. intros f Hf.
  apply OverridingFunction_function_valid.
  destruct (accept_definedFunctions _ _ _ _ Hn Hf) as [ch Hch].
  exact (Hw _ _ Hch eq_refl).
Qed.

Lemma VirtualFunction_analyze_valid ml su :
  wellLocated su ->
  VirtualFunction_analyze ml su
  = Ret (flat_map (virtualRecords ml) (functions su)).
Proof.
  intros Hw. unfold VirtualFunction_analyze, functions.
  rewrite flat_map_comp. apply visitAll_pure. intros n Hn.
  destruct n as [|f ch| | |]; try reflexivity. simpl.
  unfold virtualRecords, keywordRecord.
  rewrite (placeAfter_valid _ _ _ _ (Hw _ _ Hn eq_refl)).
  destruct (negb (fn_virtualSemantics f)); simpl;
    [reflexivity|reflexivity].
Qed.

(** What the catalogue returns for a unit with valid locations. *)
Lemma Upgrade060_analyze_valid ml su :
  wellLocated su ->
  Upgrade060_analyze ml su
  = Ret (map abstractRecord (filter isTrigger_AbstractContract (contracts su))
         ++ flat_map (pairRecords ml) (overridePairs su)
         ++ flat_map (virtualRecords ml) (functions su)).
Proof.
  intros Hw. unfold Upgrade060_analyze.
  rewrite (AbstractContract_analyze_valid su Hw),
    (OverridingFunction_analyze_valid ml su Hw),
    (VirtualFunction_analyze_valid ml su Hw).
  reflexivity.
Qed.

Lemma filter_isUnsafe_safe (cs : list UpgradeChange) :
  Forall (fun c => m_level c = Safe) cs -> filter isUnsafe cs = [].
Proof.
  induction 1 as [|c cs Hc _ IH]; simpl; [reflexivity|].
  replace (isUnsafe c) with false by (unfold isUnsafe; now rewrite Hc).
  exact IH.
Qed.

(** The records of one inherited function, as the rule builds them. *)
Lemma OverridingFunction_super_record ml f s cs c :
  OverridingFunction_super ml f s = Ret cs -> In c cs ->
  exists keyword,
    (keyword = "override" \/ keyword = "virtual")
    /\ codeAt (fn_location f) = Ret (textOf (fn_location f))
    /\ c = keywordRecord ml f keyword.
Proof.
  unfold OverridingFunction_super, keywordRecord.
  rewrite !placeAfter_keywordPlaced.
  destruct (codeAt (fn_location f)) as [t|e] eqn:Ht.
  - rewrite (codeAt_textOf _ _ Ht). simpl.
    destruct (super_hasEqualParameterTypes s && negb (fn_overrides f));
      destruct (negb (super_virtualSemantics s)); simpl;
      intros [= <-] Hc; simpl in Hc;
      repeat match goal with
        | H : _ \/ _ |- _ => destruct H as [<-|H]
        | H : False |- _ => contradiction
        end; eauto.
  - simpl.
    destruct (super_hasEqualParameterTypes s && negb (fn_overrides f));
      destruct (negb (super_virtualSemantics s)); simpl;
      try discriminate.
    intros [= <-] [].
Qed.

(** C5, as the code has it: a record that the override or the virtual
    rule emits at a node belongs to a function of that node and carries
    one of the two keywords; where the visibility keyword is a whole
    word of the extracted text exactly once, the replacement is that
    text with the keyword put right after the visibility keyword, after
    a newline when the anchor [$] holds behind the visibility keyword
    (the text ends there, or a line does and the engine is
    line-oriented), and after one space in every other case. *)
Theorem keyword_placed_by_anchor (multiline : bool)
  (rule : ASTNode -> outcome (list UpgradeChange)) (n : ASTNode)
  (changes : list UpgradeChange) (c : UpgradeChange) :
  rule = OverridingFunction_endVisit multiline
  \/ rule = VirtualFunction_endVisit multiline ->
  rule n = Ret changes ->
  In c changes ->
  exists f keyword,
    ((exists children, n = FunctionDefinition f children)
     \/ (exists ct subNodes,
           n = ContractDefinition ct subNodes
           /\ In f (definedFunctions subNodes)))
    /\ (keyword = "override" \/ keyword = "virtual")
    /\ m_location c = fn_location f
    /\ forall pre post,
         onlyWord (visibilityToString (fn_visibility f))
           (textOf (fn_location f)) pre post ->
         m_patch c
         = (pre ++ visibilityToString (fn_visibility f)
            ++ (if atEnd multiline post then nl else " ")
            ++ keyword ++ post)%string.
Proof.
  assert (Hshape : forall f keyword,
             m_location (keywordRecord multiline f keyword) = fn_location f
             /\ forall pre post,
                  onlyWord (visibilityToString (fn_visibility f))
                    (textOf (fn_location f)) pre post ->
                  m_patch (keywordRecord multiline f keyword)
                  = (pre ++ visibilityToString (fn_visibility f)
                     ++ (if atEnd multiline post then nl else " ")
                     ++ keyword ++ post)%string).
  { intros f keyword. split; [reflexivity|]. intros pre post Ho.
    apply keywordPlaced_onlyWord; [exact Ho|].
    destruct (fn_visibility f); discriminate. }
  intros [->| ->] Hn Hc.
  - destruct n as [ct subs| | | |]; simpl in Hn;
      try (injection Hn as <-; contradiction).
    destruct (visitAll_In _ _ _ _ Hn Hc) as (f & cs & Hf & Hr & Hcs).
    unfold OverridingFunction_function in Hr.
    destruct (negb (fn_isConstructor f));
      [|injection Hr as <-; contradiction].
    destruct (visitAll_In _ _ _ _ Hr Hcs) as (s & cs' & _ & Hs & Hcs').
    destruct (OverridingFunction_super_record _ _ _ _ _ Hs Hcs')
      as (keyword & Hk & _ & ->).
    exists f, keyword. split; [right; eauto|]. split; [exact Hk|].
    apply Hshape.
  - destruct n as [|f ch| | |]; simpl in Hn;
      try (injection Hn as <-; contradiction).
    destruct (negb (fn_virtualSemantics f));
      [|injection Hn as <-; contradiction].
    rewrite placeAfter_keywordPlaced in Hn.
    destruct (codeAt (fn_location f)) as [t|e] eqn:Ht; simpl in Hn;
      [|discriminate].
    injection Hn as <-. destruct Hc as [<-|[]].
    exists f, "virtual". split; [left; eauto|]. split; [now right|].
    rewrite <- (codeAt_textOf _ _ Ht). apply (Hshape f "virtual").
Qed.

Lemma keyword_placed_by_anchor_witness :
  OverridingFunction_endVisit false Samples.override_B
  = Ret [Samples.override_record]
  /\ exists f keyword,
       ((exists children, Samples.override_B = FunctionDefinition f children)
        \/ (exists ct subNodes,
              Samples.override_B = ContractDefinition ct subNodes
              /\ In f (definedFunctions subNodes)))
       /\ (keyword = "override" \/ keyword = "virtual")
       /\ m_location Samples.override_record = fn_location f
       /\ forall pre post,
            onlyWord (visibilityToString (fn_visibility f))
              (textOf (fn_location f)) pre post ->
            m_patch Samples.override_record
            = (pre ++ visibilityToString (fn_visibility f)
               ++ (if atEnd false post then nl else " ")
               ++ keyword ++ post)%string.
Proof.
  split; [reflexivity|].
  exact (keyword_placed_by_anchor false
           (OverridingFunction_endVisit false) Samples.override_B
           [Samples.override_record] Samples.override_record
           (or_introl eq_refl) eq_refl (or_introl eq_refl)).
Defined.

(** C5 as stated fails: the header of the flagged function spans three
    lines, and the keyword lands on the line of the visibility keyword,
    after one space, under either reading of [$]. *)
Lemma keyword_on_same_line_of_multiline_header :
  spansLines (textOf (fn_location Samples.header_f)) = true
  /\ VirtualFunction_endVisit false (FunctionDefinition Samples.header_f [])
     = Ret [Samples.header_record]
  /\ VirtualFunction_endVisit true (FunctionDefinition Samples.header_f [])
     = Ret [Samples.header_record].
Proof. repeat split. Qed.

Lemma spansLines_append (a b : string) :
  spansLines (a ++ b) = spansLines a || spansLines b.
Proof.
  induction a as [|c a IH]; simpl; [reflexivity|].
  now rewrite IH, orb_assoc.
Qed.

(** In a text of one line [$] holds at its end only. *)
Lemma atEnd_one_line (ml : bool) (pre kw post : string) :
  spansLines (pre ++ kw ++ post) = false -> post <> "" ->
  atEnd ml post = false.
Proof.
  rewrite !spansLines_append. intros H Hp.
  apply orb_false_elim in H as [_ H]. apply orb_false_elim in H as [_ H].
  destruct post as [|c t]; [contradiction|]. simpl in H |- *.
  apply orb_false_elim in H as [-> _]. apply andb_false_r.
Qed.

(** Behind the visibility keyword of a one-line header [$] does not
    hold. *)
Lemma singleLineHeader_atEnd (ml : bool) (pre kw post : string) :
  singleLineHeader pre kw post -> atEnd ml post = false.
Proof.
  intros (rest & body & -> & Hl & Hb). destruct rest as [|c rest].
  - simpl. destruct body as [|c body]; [destruct Hb; discriminate|].
    simpl. replace (isLineTerminator c) with false; [apply andb_false_r|].
    cbn [prefix] in Hb.
    destruct Hb as [Hb|Hb];
      [destruct (ascii_dec "{"%char c) as [<-|]
      |destruct (ascii_dec ";"%char c) as [<-|]];
      try discriminate; reflexivity.
  - rewrite !spansLines_append in Hl.
    apply orb_false_elim in Hl as [_ Hl]. apply orb_false_elim in Hl as [_ Hl].
    simpl in Hl |- *. apply orb_false_elim in Hl as [-> _].
    apply andb_false_r.
Qed.

Lemma flat_map_filter_map {A B} (p : A -> bool) (g : A -> B) (l : list A) :
  flat_map (fun x => if p x then [g x] else []) l = map g (filter p l).
Proof.
  induction l as [|x l IH]; simpl; [reflexivity|].
  destruct (p x); simpl; now rewrite IH.
Qed.

Lemma flat_map_ext_In {A B} (f g : A -> list B) (l : list A) :
  (forall x, In x l -> f x = g x) -> flat_map f l = flat_map g l.
Proof.
  induction l as [|x l IH]; intros H; simpl; [reflexivity|].
  rewrite (H x (or_introl eq_refl)), IH; [reflexivity|].
  intros y Hy. apply H. now right.
Qed.

Lemma filter_isUnsafe_unsafe (cs : list UpgradeChange) :
  Forall (fun c => m_level c = Unsafe) cs -> filter isUnsafe cs = cs.
Proof.
  induction 1 as [|c cs Hc _ IH]; simpl; [reflexivity|].
  replace (isUnsafe c) with true by (unfold isUnsafe; now rewrite Hc).
  now rewrite IH.
Qed.

(** C3, as the code has it: in a unit with valid locations in which
    every inherited function and every function has virtual semantics,
    the Unsafe records of the catalogue are, in visiting order, one
    record for every pair of a function other than a constructor and
    an inherited function of which it has the parameter types and no
    override annotation; the record stands at the location of the
    function, and its replacement is what
    [placeAfterFunctionHeaderKeyword] returns for "override".  Where
    the text of the function holds the visibility keyword as a whole
    word exactly once and its header is one line, whatever the body,
    that replacement is the text with " override" right after the
    visibility keyword. *)
Theorem override_record_alone (multiline : bool) (su : SourceUnit) :
  wellLocated su ->
  (forall p, In p (overridePairs su) ->
             super_virtualSemantics (snd p) = true) ->
  (forall g, In g (functions su) -> fn_virtualSemantics g = true) ->
  exists changes,
    Upgrade060_analyze multiline su = Ret changes
    /\ filter isUnsafe changes
       = map (fun p => keywordRecord multiline (fst p) "override")
           (filter (fun p => super_hasEqualParameterTypes (snd p)
                             && negb (fn_overrides (fst p)))
              (overridePairs su))
    /\ forall f super,
         In (f, super) (overridePairs su) ->
         super_hasEqualParameterTypes super = true ->
         fn_overrides f = false ->
         exists patch,
           In {| m_location := fn_location f;
                 m_source := cs_source (loc_source (fn_location f));
                 m_patch := patch;
                 m_level := Unsafe |}
             (filter isUnsafe changes)
           /\ placeAfterFunctionHeaderKeyword multiline (fn_location f)
                (visibilityToString (fn_visibility f)) "override"
              = Ret patch
           /\ forall pre post,
                onlyWord (visibilityToString (fn_visibility f))
                  (textOf (fn_location f)) pre post ->
                singleLineHeader pre (visibilityToString (fn_visibility f))
                  post ->
                patch
                = (pre ++ visibilityToString (fn_visibility f)
                   ++ " override" ++ post)%string.
Proof.
  intros Hw Hsv Hvirt.
  assert (Hloc : forall f super,
             In (f, super) (overridePairs su) ->
             validLocation (fn_location f)).
  { intros f super Hin. unfold overridePairs in Hin.
    apply in_flat_map in Hin as (n & Hn & Hin).
    destruct n as [ct subs| | | |]; try contradiction.
    apply in_flat_map in Hin as (g & Hg & Hin).
    unfold inheritedPairs in Hin.
    destruct (fn_isConstructor g); [contradiction|].
    apply in_map_iff in Hin as (s' & [= -> ->] & _).
    destruct (accept_definedFunctions _ _ _ _ Hn Hg) as [ch Hch].
    exact (Hw _ _ Hch eq_refl). }
  assert (Hunsafe :
            filter isUnsafe
              (map abstractRecord
                 (filter isTrigger_AbstractContract (contracts su))
               ++ flat_map (pairRecords multiline) (overridePairs su)
               ++ flat_map (virtualRecords multiline) (functions su))
            = map (fun p => keywordRecord multiline (fst p) "override")
                (filter (fun p => super_hasEqualParameterTypes (snd p)
                                  && negb (fn_overrides (fst p)))
                   (overridePairs su))).
  { rewrite !filter_app. rewrite filter_isUnsafe_safe.
    2: { apply Forall_forall. intros c Hc.
         apply in_map_iff in Hc as (ct & <- & _). reflexivity. }
    rewrite (flat_map_nil (virtualRecords multiline) (functions su)).
    2: { intros g Hg. unfold virtualRecords. now rewrite (Hvirt g Hg). }
    cbn [app filter]. rewrite app_nil_r.
    rewrite <- (flat_map_filter_map
                  (fun p => super_hasEqualParameterTypes (snd p)
                            && negb (fn_overrides (fst p)))
                  (fun p => keywordRecord multiline (fst p) "override")).
    rewrite (flat_map_ext_In (pairRecords multiline)
               (fun p => if super_hasEqualParameterTypes (snd p)
                            && negb (fn_overrides (fst p))
                         then [keywordRecord multiline (fst p) "override"]
                         else [])).
    2: { intros p Hp. unfold pairRecords. rewrite (Hsv p Hp). simpl.
         apply app_nil_r. }
    apply filter_isUnsafe_unsafe. apply Forall_forall. intros c Hc.
    apply in_flat_map in Hc as (p & _ & Hc).
    destruct (_ && _); [|contradiction]. destruct Hc as [<-|[]].
    reflexivity. }
  eexists. split; [exact (Upgrade060_analyze_valid multiline su Hw)|].
  split; [exact Hunsafe|].
  intros f super Hin Heq Hov.
  exists (keywordPlaced multiline (textOf (fn_location f))
            (visibilityToString (fn_visibility f)) "override").
  split; [|split].
  - rewrite Hunsafe.
    change {| m_location := fn_location f;
              m_source := cs_source (loc_source (fn_location f));
              m_patch :=
                keywordPlaced multiline (textOf (fn_location f))
                  (visibilityToString (fn_visibility f)) "override";
              m_level := Unsafe |}
      with ((fun p => keywordRecord multiline (fst p) "override") (f, super)).
    apply in_map. apply filter_In. split; [exact Hin|].
    cbn [fst snd]. now rewrite Heq, Hov.
  - exact (placeAfter_valid multiline _ _ _ (Hloc f super Hin)).
  - intros pre post Ho Hh.
    rewrite keywordPlaced_onlyWord with (pre := pre) (post := post);
      [|exact Ho|destruct (fn_visibility f); discriminate].
    now rewrite (singleLineHeader_atEnd multiline pre _ post Hh).
Qed.

Lemma override_record_alone_witness :
  wellLocated MoreSamples.body_unit
  /\ onlyWord "public" (textOf (fn_location MoreSamples.body_B_f))
       "function f() "
       (" virtual {" ++ nl ++ "  x = 1;" ++ nl ++ "}")%string
  /\ singleLineHeader "function f() " "public"
       (" virtual {" ++ nl ++ "  x = 1;" ++ nl ++ "}")%string
  /\ exists changes,
       Upgrade060_analyze false MoreSamples.body_unit = Ret changes
       /\ filter isUnsafe changes = [MoreSamples.body_override_record].
Proof.
  assert (Hw : wellLocated MoreSamples.body_unit)
    by (apply wellLocatedb_ok; reflexivity).
  split; [exact Hw|]. split; [split; reflexivity|].
  split.
  - exists " virtual ", ("{" ++ nl ++ "  x = 1;" ++ nl ++ "}")%string.
    split; [reflexivity|]. split; [reflexivity|]. left. reflexivity.
  - destruct (override_record_alone false MoreSamples.body_unit Hw)
      as (changes & Hc & Hu & _).
    + intros p [<-|[]]. reflexivity.
    + intros g [<-|[<-|[]]]; reflexivity.
    + exists changes. split; [exact Hc|]. rewrite Hu. reflexivity.
Defined.

(** C3 as stated fails: the function of contract B has the signature
    of the inherited virtual function and no override annotation, and
    the catalogue returns two Unsafe records for the unit, the second
    one of the virtual rule, under either reading of [$]. *)
Lemma override_finding_comes_with_virtual :
  overridePairs Samples.override_unit
  = [(Samples.override_B_f, Samples.inherited_f)]
  /\ Upgrade060_analyze false Samples.override_unit
     = Ret [Samples.override_record; Samples.virtual_record]
  /\ Upgrade060_analyze true Samples.override_unit
     = Ret [Samples.override_record; Samples.virtual_record].
Proof. repeat split. Qed.

(** ** The driver *)

Section DriverProofs.

Context {CS : Type} {frontEnd : FrontEnd CS}.
Variable multiline : bool.

Lemma addTrace_nil (d : Driver CS) : addTrace d [] = d.
Proof. destruct d. unfold addTrace. simpl. now rewrite app_nil_r. Qed.

Lemma addTrace_addTrace (d : Driver CS) (e1 e2 : list Event) :
  addTrace (addTrace d e1) e2 = addTrace d (e1 ++ e2).
Proof. unfold addTrace. simpl. now rewrite app_assoc. Qed.

Lemma forallb_app_true {A} (p : A -> bool) (l1 l2 : list A) :
  forallb p l1 = true -> forallb p l2 = true -> forallb p (l1 ++ l2) = true.
Proof. intros H1 H2. now rewrite forallb_app, H1, H2. Qed.

(** The laws by which a run is followed step by step. *)
Lemma bind_emit {B} (e : Event) (k : unit -> M (CS := CS) B) (d : Driver CS) :
  bind (emit e) k d = k tt (addTrace d [e]).
Proof. reflexivity. Qed.

Lemma bind_get {B} (k : Driver CS -> M (CS := CS) B) (d : Driver CS) :
  bind get k d = k d d.
Proof. reflexivity. Qed.

Lemma bind_ret {A B} (a : A) (k : A -> M (CS := CS) B) (d : Driver CS) :
  bind (ret a) k d = k a d.
Proof. reflexivity. Qed.

Lemma bind_lift {A B} (o : outcome A) (k : A -> M (CS := CS) B)
  (d : Driver CS) :
  bind (lift o) k d
  = match o with
    | Ret a => k a d
    | Throw e => (Throw e, d)
    end.
Proof. destruct o; reflexivity. Qed.

Lemma bind_assoc {A B C} (m : M (CS := CS) A) (f : A -> M (CS := CS) B)
  (g : B -> M (CS := CS) C) (d : Driver CS) :
  bind (bind m f) g d = bind m (fun x => bind (f x) g) d.
Proof. unfold bind. destruct (m d) as [[a|e] d']; reflexivity. Qed.

(** A loop that prints for some elements. *)
Lemma forEach_emit {A} (p : A -> bool) (g : A -> Event) (l : list A) :
  forall d : Driver CS,
    forEach l (fun x => if p x then emit (g x) else ret tt) d
    = (Ret tt, addTrace d (map g (filter p l))).
Proof.
  induction l as [|x l IH]; intros d; cbn [forEach filter map].
  - now rewrite addTrace_nil.
  - unfold bind. destruct (p x).
    + change (emit (g x) d) with (Ret tt, addTrace d [g x]).
      cbv beta iota. rewrite IH, addTrace_addTrace. reflexivity.
    + change (ret tt d) with (Ret tt, d). cbv beta iota. apply IH.
Qed.

Lemma printErrors_run (d : Driver CS) :
  printErrors d
  = (Ret tt,
     addTrace d
       (Cout "Compilation errors that solidity-upgrade may resolve occurred."
        :: map PrintErrorInformation
             (filter (fun e => negb (isWarning e)) (errors (m_compiler d))))).
Proof.
  unfold printErrors, bind, get.
  change (emit ?e d) with (Ret tt, addTrace d [e]). cbv beta iota.
  rewrite (forEach_emit (fun e => negb (isWarning e)) PrintErrorInformation).
  rewrite addTrace_addTrace. reflexivity.
Qed.

Lemma printUnresolvableErrors_run (d : Driver CS) :
  printUnresolvableErrors d
  = (Ret tt,
     addTrace d
       (Cout "Compilation errors that solidity-upgrade cannot resolve occurred."
        :: map PrintErrorInformation
             (filter (fun e => negb (isWarning e)) (errors (m_compiler d))))).
Proof.
  unfold printUnresolvableErrors, bind, get.
  change (emit ?e d) with (Ret tt, addTrace d [e]). cbv beta iota.
  rewrite (forEach_emit (fun e => negb (isWarning e)) PrintErrorInformation).
  rewrite addTrace_addTrace. reflexivity.
Qed.

Lemma forallb_isOutput_errors (text : string) (l : list Error) :
  forallb isOutput (Cout text :: map PrintErrorInformation l) = true.
Proof. simpl. induction l; simpl; auto. Qed.

(** The compilation phases print, and touch neither the arguments nor
    the disk. *)
Lemma compilationPhases_frame (d : Driver CS) :
  exists r d' output,
    compilationPhases d = (r, d')
    /\ m_args d' = m_args d
    /\ disk d' = disk d
    /\ trace d' = trace d ++ output
    /\ forallb isOutput output = true.
Proof.
  unfold compilationPhases, bind, callParse, callAnalyze, callCompile.
  destruct (parse (disk d) (m_compiler d)) as [[[parsed|e] stack] loaded].
  - destruct parsed.
    + simpl. destruct (analyze stack) as [[analyzed|e] stack'].
      * destruct analyzed.
        -- simpl. destruct (compile stack') as [r stack''].
           eexists _, _, []. simpl. rewrite app_nil_r. repeat split.
        -- rewrite printErrors_run. eexists _, _, _.
           split; [reflexivity|]. repeat split.
           apply forallb_isOutput_errors.
      * eexists _, _, []. simpl. rewrite app_nil_r. repeat split.
    + rewrite printUnresolvableErrors_run. eexists _, _, _.
      split; [reflexivity|]. repeat split.
      apply forallb_isOutput_errors.
  - eexists _, _, []. simpl. rewrite app_nil_r. repeat split.
Qed.

(** [tryCompile] returns whatever the compilation phases do. *)
Lemma tryCompile_run (d : Driver CS) :
  tryCompile d
  = (Ret tt,
     match compilationPhases
             (addTrace d [TryCompile; Cout "Running compilation phases..."])
     with
     | (Ret _, d1) => d1
     | (Throw e, d1) => addTrace d1 [Cout (exceptionText e)]
     end).
Proof.
  unfold tryCompile, bind, emit, try_. simpl.
  replace (mkDriver (m_args d) (m_sourceCodes d) (m_compiler d) (disk d)
             (unwritable d)
             ((trace d ++ [TryCompile])
              ++ [Cout "Running compilation phases..."]))
    with (addTrace d [TryCompile; Cout "Running compilation phases..."])
    by (unfold addTrace; now rewrite <- app_assoc).
  destruct (compilationPhases _) as [[[]|e] d1]; [reflexivity|].
  destruct e as [diagnostic|[w|]|]; reflexivity.
Qed.

Lemma tryCompile_frame (d : Driver CS) :
  exists d' output,
    tryCompile d = (Ret tt, d')
    /\ m_args d' = m_args d
    /\ disk d' = disk d
    /\ trace d' = trace d ++ TryCompile :: output
    /\ forallb isOutput output = true.
Proof.
  rewrite tryCompile_run.
  destruct (compilationPhases_frame
              (addTrace d [TryCompile; Cout "Running compilation phases..."]))
    as (r & d1 & output & -> & Ha & Hd & Ht & Ho).
  simpl in Ha, Hd, Ht. rewrite <- app_assoc in Ht. simpl in Ht.
  destruct r as [u|e].
  - exists d1, (Cout "Running compilation phases..." :: output).
    repeat split; auto.
  - exists (addTrace d1 [Cout (exceptionText e)]),
      (Cout "Running compilation phases..."
       :: output ++ [Cout (exceptionText e)]).
    split; [reflexivity|]. simpl. repeat split; auto.
    + rewrite Ht, <- app_assoc. reflexivity.
    + apply forallb_app_true; [exact Ho|reflexivity].
Qed.


Lemma catalogOf_unfold (stack : CS) (name : string) :
  catalogOf multiline stack name
  = match ast stack name with
    | Ret su => Upgrade060_analyze multiline su
    | Throw e => Throw e
    end.
Proof. reflexivity. Qed.

Ltac as_addTrace d evs :=
  match goal with
  | |- FilesTurn _ _ _ _ _ _ ?D =>
      replace D with (addTrace d evs)
        by (unfold addTrace; cbn; rewrite <- ?app_assoc; reflexivity)
  end.

(** One file of the loop: passed over, left by an exception, or
    patched. *)
Lemma analyzeAndUpgrade_turn (file text : string) (recompile : bool)
  (d : Driver CS) :
  FilesTurn multiline d [(file, text)] recompile false
    (fst (analyzeAndUpgrade multiline (file, text) d))
    (snd (analyzeAndUpgrade multiline (file, text) d)).
Proof.
  pose proof (catalogOf_unfold (m_compiler d) file) as Hcat.
  unfold analyzeAndUpgrade, runCatalog, applyChanges, writeInputFile,
    bind, get, lift, emit, setSourceCode, setDisk, ret.
  cbn [fst snd m_args m_sourceCodes m_compiler disk trace].
  destruct (ast (m_compiler d) file) as [su|e].
  2: { cbn [fst snd].
       as_addTrace d [Cout ("Analyzing and upgrading " ++ file ++ "...")%string].
       apply (Files_threw multiline d [(file, text)] recompile false
                [] file text []); auto.
       intros name []. }
  destruct (Upgrade060_analyze multiline su) as [changes|e].
  2: { cbn [fst snd].
       as_addTrace d [Cout ("Analyzing and upgrading " ++ file ++ "...")%string;
                      RunCatalog file].
       apply (Files_threw multiline d [(file, text)] recompile false
                [] file text []); auto.
       intros name []. }
  destruct changes as [|change rest].
  { cbn [fst snd].
    as_addTrace d [Cout ("Analyzing and upgrading " ++ file ++ "...")%string;
                   RunCatalog file].
    apply (Files_passed multiline d [(file, text)] recompile false);
      [|reflexivity].
    intros name [<-|[]]. exists []. auto. }
  assert (Hpass : accepted (m_args d) change = false ->
                  forall name, In name (map fst [(file, text)]) ->
                               passes multiline d name).
  { intros Hacc name [<-|[]]. exists (change :: rest). auto. }
  assert (Hpatched :
            accepted (m_args d) change = true ->
            FilesTurn multiline d [(file, text)] recompile false
              (fst match apply change with
                   | Ret applied =>
                       (Ret (true, true),
                        patchedDriver d file change applied
                          [Cout ("Analyzing and upgrading " ++ file ++ "...")%string;
                           RunCatalog file;
                           LogChange change (argShortLog (m_args d))])
                   | Throw e =>
                       (Throw e,
                        addTrace d
                          ([Cout ("Analyzing and upgrading " ++ file ++ "...")%string;
                            RunCatalog file;
                            LogChange change (argShortLog (m_args d))]
                           ++ [ApplyChange file change]))
                   end)
              (snd match apply change with
                   | Ret applied =>
                       (Ret (true, true),
                        patchedDriver d file change applied
                          [Cout ("Analyzing and upgrading " ++ file ++ "...")%string;
                           RunCatalog file;
                           LogChange change (argShortLog (m_args d))])
                   | Throw e =>
                       (Throw e,
                        addTrace d
                          ([Cout ("Analyzing and upgrading " ++ file ++ "...")%string;
                            RunCatalog file;
                            LogChange change (argShortLog (m_args d))]
                           ++ [ApplyChange file change]))
                   end)).
  { intros Hacc. destruct (apply change) as [applied|e] eqn:Happ; cbn [fst snd].
    - apply (Files_patched multiline d [(file, text)] recompile false
               [] file text [] change rest); auto.
      intros name [].
    - apply (Files_apply_threw multiline d [(file, text)] recompile false
               [] file text [] change rest); auto.
      intros name []. }
  assert (Hnot :
            accepted (m_args d) change = false ->
            FilesTurn multiline d [(file, text)] recompile false
              (Ret (false, false))
              (addTrace d
                 [Cout ("Analyzing and upgrading " ++ file ++ "...")%string;
                  RunCatalog file;
                  LogChange change (argShortLog (m_args d))])).
  { intros Hacc.
    apply (Files_passed multiline d [(file, text)] recompile false);
      [auto|reflexivity]. }
  unfold accepted in Hpatched, Hnot.
  unfold patchedDriver, addTrace in Hpatched, Hnot.
  repeat (cbn [fst snd m_args m_sourceCodes m_compiler disk trace app]
            in Hpatched, Hnot |- *;
          rewrite <- ?app_assoc in Hpatched, Hnot |- *).
  destruct (m_level change).
  - destruct (argAcceptSafe (m_args d)).
    + specialize (Hpatched eq_refl).
      destruct (apply change) as [applied|e];
        cbn [fst snd m_args m_sourceCodes m_compiler disk trace app]
          in Hpatched |- *;
        repeat rewrite <- app_assoc; cbn [app]; exact Hpatched.
    + repeat rewrite <- app_assoc. cbn [app]. exact (Hnot eq_refl).
  - destruct (argAcceptUnsafe (m_args d)).
    + specialize (Hpatched eq_refl).
      destruct (apply change) as [applied|e];
        cbn [fst snd m_args m_sourceCodes m_compiler disk trace app]
          in Hpatched |- *;
        repeat rewrite <- app_assoc; cbn [app]; exact Hpatched.
    + repeat rewrite <- app_assoc. cbn [app]. exact (Hnot eq_refl).
Qed.

Lemma singleton_split {A} (x y : A) (before after : list A) :
  [x] = before ++ y :: after -> before = [] /\ y = x /\ after = [].
Proof.
  destruct before as [|b before]; simpl.
  - intros [= -> <-]. auto.
  - intros [= _ H]. destruct before; discriminate.
Qed.

Lemma patchedDriver_addTrace (d : Driver CS) (evs : list Event)
  (file : string) (change applied : UpgradeChange) (pre : list Event) :
  patchedDriver (addTrace d evs) file change applied pre
  = patchedDriver d file change applied (evs ++ pre).
Proof.
  unfold patchedDriver, addTrace. simpl. now rewrite <- !app_assoc.
Qed.

(** The loop over the files stops at the first file whose first change
    is accepted. *)
Lemma upgradeFiles_turn (files : Sources) :
  forall (recompile changesFound : bool) (d : Driver CS) r d',
    upgradeFiles multiline files recompile changesFound d = (r, d') ->
    FilesTurn multiline d files recompile changesFound r d'.
Proof.
  induction files as [|[file text] rest IH];
    intros recompile changesFound d r d' Hrun.
  - injection Hrun as <- <-. rewrite <- (addTrace_nil d) at 2.
    now apply Files_passed.
  - cbn [upgradeFiles] in Hrun. unfold bind in Hrun.
    pose proof (analyzeAndUpgrade_turn file text recompile d) as Hfile.
    destruct (analyzeAndUpgrade multiline (file, text) d) as [r1 d1].
    cbn [fst snd] in Hfile.
    inversion Hfile as [evs Hpass Hevs
                       |before f t after e evs Hsplit Hbefore Hcat Hevs
                       |before f t after change more pre e
                          Hsplit Hbefore Hcat Hacc Hpre Happ
                       |before f t after change more pre applied
                          Hsplit Hbefore Hcat Hacc Hpre Happ];
      subst r1 d1.
    + cbn [fst snd] in Hrun. rewrite orb_false_r in Hrun.
      specialize (IH false changesFound (addTrace d evs) r d' Hrun).
      inversion IH as [evs2 Hpass2 Hevs2
                      |before f t after e evs2 Hsplit Hbefore Hcat Hevs2
                      |before f t after change more pre e
                         Hsplit Hbefore Hcat Hacc Hpre Happ
                      |before f t after change more pre applied
                         Hsplit Hbefore Hcat Hacc Hpre Happ];
        subst r d'.
      * rewrite addTrace_addTrace.
        replace (if match rest with [] => false | _ :: _ => false end
                 then true else false) with false by (now destruct rest).
        replace (match rest with [] => false | _ :: _ => false end)
          with (match (file, text) :: rest with
                | [] => recompile
                | _ :: _ => false
                end) by (now destruct rest).
        apply Files_passed.
        -- intros name [<-|Hn]; [apply Hpass; now left|exact (Hpass2 _ Hn)].
        -- now apply forallb_app_true.
      * rewrite addTrace_addTrace.
        apply (Files_threw multiline d ((file, text) :: rest)
                 recompile changesFound ((file, text) :: before) f t after);
          auto.
        -- now rewrite Hsplit.
        -- intros name [<-|Hn]; [apply Hpass; now left|exact (Hbefore _ Hn)].
        -- now apply forallb_app_true.
      * rewrite addTrace_addTrace, app_assoc.
        apply (Files_apply_threw multiline d ((file, text) :: rest)
                 recompile changesFound ((file, text) :: before) f t after
                 change more (evs ++ pre) e); auto.
        -- now rewrite Hsplit.
        -- intros name [<-|Hn]; [apply Hpass; now left|exact (Hbefore _ Hn)].
        -- now apply forallb_app_true.
      * rewrite patchedDriver_addTrace.
        apply (Files_patched multiline d ((file, text) :: rest)
                 recompile changesFound ((file, text) :: before) f t after
                 change more (evs ++ pre) applied); auto.
        -- now rewrite Hsplit.
        -- intros name [<-|Hn]; [apply Hpass; now left|exact (Hbefore _ Hn)].
        -- now apply forallb_app_true.
    + injection Hrun as <- <-.
      destruct (singleton_split _ _ _ _ Hsplit) as (-> & [= -> ->] & ->).
      apply (Files_threw multiline d ((file, text) :: rest)
               recompile changesFound [] file text rest); auto.
    + injection Hrun as <- <-.
      destruct (singleton_split _ _ _ _ Hsplit) as (-> & [= -> ->] & ->).
      apply (Files_apply_threw multiline d ((file, text) :: rest)
               recompile changesFound [] file text rest change more pre e);
        auto.
    + cbn [fst snd] in Hrun. rewrite orb_true_r in Hrun.
      injection Hrun as <- <-.
      destruct (singleton_split _ _ _ _ Hsplit) as (-> & [= -> ->] & ->).
      apply (Files_patched multiline d ((file, text) :: rest)
               recompile changesFound [] file text rest change more pre
               applied); auto.
Qed.

Lemma forallb_weaken {A} (p q : A -> bool) (l : list A) :
  (forall x, p x = true -> q x = true) ->
  forallb p l = true -> forallb q l = true.
Proof.
  intros Hpq. rewrite !forallb_forall. intros H x Hx. auto.
Qed.

Lemma isAnalysis_no_patch (e : Event) :
  isAnalysis e = true -> noPatch e = true.
Proof. destruct e; unfold noPatch; simpl; auto; discriminate. Qed.

Lemma isOutput_no_patch (e : Event) :
  isOutput e = true -> noPatch e = true.
Proof. destruct e; unfold noPatch; simpl; auto; discriminate. Qed.

Lemma isOutput_isAnalysis (e : Event) :
  isOutput e = true -> isAnalysis e = true.
Proof. destruct e; simpl; auto. Qed.








(** *** The dry run *)

Lemma forEach_emit_all {A} (g : A -> Event) (l : list A) :
  forall d : Driver CS,
    forEach l (fun x => emit (g x)) d = (Ret tt, addTrace d (map g l)).
Proof.
  induction l as [|x l IH]; intros d; cbn [forEach map].
  - now rewrite addTrace_nil.
  - unfold bind. change (emit (g x) d) with (Ret tt, addTrace d [g x]).
    cbv beta iota. rewrite IH, addTrace_addTrace. reflexivity.
Qed.

Lemma logged_changes (shorten : bool) (l : list UpgradeChange) :
  forallb isAnalysis (map (fun c => LogChange c shorten) l) = true
  /\ filter isAnnouncement (map (fun c => LogChange c shorten) l) = []
  /\ catalogRuns (map (fun c => LogChange c shorten) l) = [].
Proof. induction l as [|c l (H1 & H2 & H3)]; simpl; auto. Qed.

(** [analyzeAndLog] announces the file, runs the catalogue where the
    analysis was performed, and logs. *)
Lemma analyzeAndLog_run (sc : string * string) (d : Driver CS) :
  exists r evs,
    analyzeAndLog multiline sc d
    = (r, addTrace d (announcement (fst sc) :: evs))
    /\ forallb isAnalysis evs = true
    /\ filter isAnnouncement evs = []
    /\ (r = Ret tt ->
        catalogRuns evs
        = if State_geb (state (m_compiler d)) AnalysisPerformed
          then [fst sc] else []).
Proof.
  unfold analyzeAndLog. rewrite bind_emit, bind_get.
  change (m_compiler (addTrace d [Cout ("Analyzing " ++ fst sc ++ "...")%string]))
    with (m_compiler d).
  change (m_args (addTrace d [Cout ("Analyzing " ++ fst sc ++ "...")%string]))
    with (m_args d).
  fold (announcement (fst sc)).
  destruct (State_geb (state (m_compiler d)) AnalysisPerformed).
  - unfold runCatalog. rewrite bind_assoc, bind_get, bind_assoc, bind_lift.
    change (m_compiler (addTrace d [announcement (fst sc)]))
      with (m_compiler d).
    destruct (ast (m_compiler d) (fst sc)) as [su|e].
    + rewrite bind_assoc, bind_emit, bind_lift, addTrace_addTrace.
      destruct (Upgrade060_analyze multiline su) as [[|c cs]|e].
      * exists (Ret tt), [RunCatalog (fst sc)]. auto.
      * rewrite bind_emit, addTrace_addTrace.
        rewrite (forEach_emit_all
                   (fun change => LogChange change (argShortLog (m_args d)))).
        rewrite addTrace_addTrace.
        destruct (logged_changes (argShortLog (m_args d)) (c :: cs))
          as (H1 & H2 & H3).
        exists (Ret tt),
          (RunCatalog (fst sc)
           :: Cout "Found upgrades which can be done by solidity-upgrade automatically."
           :: map (fun change => LogChange change (argShortLog (m_args d)))
                (c :: cs)).
        split; [reflexivity|].
        split; [exact H1|]. split; [exact H2|].
        intros _. unfold catalogRuns in H3 |- *.
        cbn [flat_map app]. now rewrite H3.
      * exists (Throw e), [RunCatalog (fst sc)].
        repeat split; auto; discriminate.
    + exists (Throw e), []. repeat split; auto; discriminate.
  - rewrite bind_ret. exists (Ret tt), []. repeat split; auto.
Qed.

(** The loop of the dry run: every file announced once, in map order,
    and the catalogue run once for each where the analysis was
    performed. *)
Lemma forEach_analyzeAndLog (files : Sources) :
  forall d : Driver CS,
  exists r evs,
    forEach files (analyzeAndLog multiline) d = (r, addTrace d evs)
    /\ forallb isAnalysis evs = true
    /\ (r = Ret tt ->
        filter isAnnouncement evs
        = map (fun sc => announcement (fst sc)) files
        /\ catalogRuns evs
           = if State_geb (state (m_compiler d)) AnalysisPerformed
             then map fst files else []).
Proof.
  induction files as [|sc files IH]; intros d; cbn [forEach].
  - exists (Ret tt), []. rewrite addTrace_nil. repeat split; auto.
    now destruct (State_geb _ _).
  - unfold bind.
    destruct (analyzeAndLog_run sc d) as (r1 & evs1 & -> & Ha & Hf & Hc).
    destruct r1 as [[]|e].
    + destruct (IH (addTrace d (announcement (fst sc) :: evs1)))
        as (r & evs & -> & Ha2 & Hrest).
      exists r, ((announcement (fst sc) :: evs1) ++ evs).
      split; [now rewrite addTrace_addTrace|].
      split; [apply forallb_app_true; [exact Ha|exact Ha2]|].
      intros Hr. destruct (Hrest Hr) as [Hf2 Hc2].
      cbn [m_compiler addTrace] in Hc2. split.
      * assert (Hann : isAnnouncement (announcement (fst sc)) = true)
          by (simpl; now destruct (fst sc ++ "...")%string).
        cbn [app map]. cbn [filter]. rewrite Hann, filter_app, Hf, Hf2.
        reflexivity.
      * unfold catalogRuns in *. cbn [app flat_map announcement].
        rewrite flat_map_app, (Hc eq_refl), Hc2.
        now destruct (State_geb _ _).
    + exists (Throw e), (announcement (fst sc) :: evs1).
      repeat split; auto; discriminate.
Qed.

Lemma harmless_refl (d : Driver CS) : harmless d d.
Proof.
  repeat split. exists []. now rewrite app_nil_r.
Qed.

Lemma harmless_trans (d1 d2 d3 : Driver CS) :
  harmless d1 d2 -> harmless d2 d3 -> harmless d1 d3.
Proof.
  intros (Ha & Hd & e1 & Ht & He) (Ha' & Hd' & e2 & Ht' & He').
  split; [congruence|]. split; [congruence|].
  exists (e1 ++ e2). split; [now rewrite Ht', Ht, app_assoc|].
  now apply forallb_app_true.
Qed.

Lemma harmless_addTrace (d : Driver CS) (evs : list Event) :
  forallb noPatch evs = true -> harmless d (addTrace d evs).
Proof. intros H. repeat split. exists evs. auto. Qed.

(** Reading the input files stores their texts and prints. *)
Lemma readInputFiles_paths_harmless (paths : list string) :
  forall d : Driver CS, harmless d (snd (readInputFiles_paths paths d)).
Proof.
  induction paths as [|path rest IH]; intros d; cbn [readInputFiles_paths].
  - apply harmless_refl.
  - rewrite bind_get. cbv zeta.
    destruct (lookup path (disk d)) as [[contents|]|].
    + unfold bind. cbn [setSourceCode].
      eapply harmless_trans; [|apply IH].
      repeat split. exists []. simpl. now rewrite app_nil_r.
    + destruct (negb (argIgnoreMissingFiles (m_args d)));
        rewrite bind_emit.
      * now apply harmless_addTrace.
      * eapply harmless_trans; [|apply IH]. now apply harmless_addTrace.
    + destruct (negb (argIgnoreMissingFiles (m_args d)));
        rewrite bind_emit.
      * now apply harmless_addTrace.
      * eapply harmless_trans; [|apply IH]. now apply harmless_addTrace.
Qed.

Lemma readInputFiles_harmless (d : Driver CS) :
  harmless d (snd (readInputFiles d)).
Proof.
  unfold readInputFiles. rewrite bind_get. unfold bind at 1.
  pose proof (readInputFiles_paths_harmless (argInputFile (m_args d)) d) as H.
  destruct (readInputFiles_paths (argInputFile (m_args d)) d) as [[allRead|e] d1].
  - cbn [snd] in H. destruct allRead; cbn [negb].
    + rewrite bind_get. destruct (m_sourceCodes d1).
      * rewrite bind_emit. cbn [snd ret].
        eapply harmless_trans; [exact H|]. now apply harmless_addTrace.
      * exact H.
    + exact H.
  - exact H.
Qed.

Lemma resetCompilerWith_run (d : Driver CS) :
  resetCompilerWith d
  = (Ret tt,
     mkDriver (m_args d) (m_sourceCodes d)
       (setParserErrorRecovery true
          (setSources (m_sourceCodes d) newCompilerStack))
       (disk d) (unwritable d) (trace d ++ [ResetCompiler (m_sourceCodes d)])).
Proof. reflexivity. Qed.

Lemma tryCompile_harmless (d : Driver CS) :
  fst (tryCompile d) = Ret tt /\ harmless d (snd (tryCompile d)).
Proof.
  destruct (tryCompile_frame d) as (d' & output & -> & Ha & Hd & Ht & Ho).
  split; [reflexivity|]. cbn [snd]. split; [exact Ha|]. split; [exact Hd|].
  exists (TryCompile :: output). split; [exact Ht|].
  simpl. exact (forallb_weaken _ _ _ isOutput_no_patch Ho).
Qed.

(** The dry run of [upgradeOrLog] adds analysis events and nothing
    else. *)
Lemma upgradeOrLog_dry_run (fuel : nat) (d : Driver CS) :
  argAcceptSafe (m_args d) = false ->
  argAcceptUnsafe (m_args d) = false ->
  exists r evs,
    upgradeOrLog multiline fuel d = (Some r, addTrace d evs)
    /\ forallb isAnalysis evs = true
    /\ (r = Ret tt ->
        filter isAnnouncement evs
        = map (fun sc => announcement (fst sc)) (m_sourceCodes d)
        /\ catalogRuns evs
           = if State_geb (state (m_compiler d)) AnalysisPerformed
             then map fst (m_sourceCodes d) else []).
Proof.
  intros Hs Hu. unfold upgradeOrLog. rewrite Hs, Hu. cbn [orb].
  destruct (forEach_analyzeAndLog (m_sourceCodes d) d)
    as (r & evs & -> & Ha & Hr).
  exists r, evs. auto.
Qed.

Lemma processInput_dry_run (fuel : nat) (d : Driver CS) :
  argAcceptSafe (m_args d) = false ->
  argAcceptUnsafe (m_args d) = false ->
  exists r d',
    processInput multiline fuel d = (Some r, d') /\ harmless d d'.
Proof.
  intros Hs Hu. unfold processInput.
  pose proof (readInputFiles_harmless d) as H1.
  destruct (readInputFiles d) as [[[|]|e] d1]; cbn [snd] in H1;
    [|eauto|eauto].
  unfold bind at 1. rewrite resetCompilerWith_run.
  match goal with
  | |- context [tryCompile ?D] =>
      pose proof (tryCompile_harmless D) as [Hr H2];
      destruct (tryCompile D) as [r2 d2]
  end.
  cbn [fst snd] in Hr, H2. subst r2.
  assert (H12 : harmless d d2).
  { eapply harmless_trans; [exact H1|]. eapply harmless_trans; [|exact H2].
    repeat split. exists [ResetCompiler (m_sourceCodes d1)]. auto. }
  pose proof H12 as (Ha & _).
  destruct (upgradeOrLog_dry_run fuel d2) as (r & evs & -> & Hev & _);
    [congruence|congruence|].
  assert (H3 : harmless d (addTrace d2 evs)).
  { eapply harmless_trans; [exact H12|].
    apply harmless_addTrace.
    exact (forallb_weaken _ _ _ isAnalysis_no_patch Hev). }
  destruct r as [[]|e]; [|eauto].
  change (m_compiler (addTrace d2 evs)) with (m_compiler d2).
  destruct (State_geb (state (m_compiler d2)) CompilationSuccessful
            || match errors (m_compiler d2) with
               | [] => true
               | _ => false
               end).
  - rewrite bind_assoc, bind_emit, bind_emit. cbn [ret].
    eexists _, _. split; [reflexivity|].
    eapply harmless_trans; [exact H3|].
    rewrite addTrace_addTrace. now apply harmless_addTrace.
  - rewrite bind_ret. cbn [ret]. eauto.
Qed.

(** *** A turn that finds nothing to apply *)

Lemma no_safe_record_passes (args : Args) (changes : list UpgradeChange) :
  argAcceptUnsafe args = false ->
  filter isSafe changes = [] ->
  acceptedHead args changes = false.
Proof.
  intros Hu Hs. destruct changes as [|c cs]; [reflexivity|].
  simpl in Hs |- *. unfold accepted. unfold isSafe in Hs.
  destruct (m_level c); [discriminate|exact Hu].
Qed.

(** Where every file passes, the turn applies nothing, leaves the
    driver as it was up to the trace, and ends the loop. *)
Lemma acceptUpgrade_iteration_settled (d : Driver CS) :
  (forall name, In name (map fst (m_sourceCodes d)) ->
                passes multiline d name) ->
  exists evs,
    acceptUpgrade_iteration multiline false d
    = (Ret (false, true), addTrace d evs)
    /\ forallb isAnalysis evs = true.
Proof.
  intros Hall. unfold acceptUpgrade_iteration. rewrite bind_get.
  unfold bind at 1.
  destruct (upgradeFiles multiline (m_sourceCodes d) false false d)
    as [r1 d1] eqn:Hfiles.
  apply upgradeFiles_turn in Hfiles.
  assert (Hin : forall before f t after,
             m_sourceCodes d = before ++ (f, t) :: after ->
             passes multiline d f).
  { intros before f t after Hsplit. apply Hall. rewrite Hsplit, map_app.
    apply in_or_app. right. now left. }
  inversion Hfiles as [evs Hpass Hevs
                      |before f t after e evs Hsplit Hbefore Hcat Hevs
                      |before f t after change more pre e
                         Hsplit Hbefore Hcat Hacc Hpre Happ
                      |before f t after change more pre applied
                         Hsplit Hbefore Hcat Hacc Hpre Happ];
    subst r1 d1.
  - exists evs. split; [|exact Hevs].
    replace (match m_sourceCodes d with [] => false | _ :: _ => false end)
      with false by (now destruct (m_sourceCodes d)).
    reflexivity.
  - destruct (Hin _ _ _ _ Hsplit) as (changes & Hc & _). congruence.
  - destruct (Hin _ _ _ _ Hsplit) as (changes & Hc & Hh).
    rewrite Hcat in Hc. injection Hc as <-. simpl in Hh. congruence.
  - destruct (Hin _ _ _ _ Hsplit) as (changes & Hc & Hh).
    rewrite Hcat in Hc. injection Hc as <-. simpl in Hh. congruence.
Qed.

(** A file whose front record is not accepted is passed over. *)
Lemma analyzeAndUpgrade_passes (file text : string) (d : Driver CS) :
  passes multiline d file ->
  exists evs,
    analyzeAndUpgrade multiline (file, text) d
    = (Ret (false, false), addTrace d evs)
    /\ forallb isAnalysis evs = true.
Proof.
  intros (changes & Hc & Hh).
  pose proof (analyzeAndUpgrade_turn file text false d) as H.
  destruct (analyzeAndUpgrade multiline (file, text) d) as [r d'].
  cbn [fst snd] in H.
  inversion H as [evs Hpass Hevs
                 |before f t after e evs Hsplit Hbefore Hcat Hevs
                 |before f t after change more pre e
                    Hsplit Hbefore Hcat Hacc Hpre Happ
                 |before f t after change more pre applied
                    Hsplit Hbefore Hcat Hacc Hpre Happ];
    subst r d'.
  - exists evs. auto.
  - apply singleton_split in Hsplit as (_ & [= -> ->] & _). congruence.
  - apply singleton_split in Hsplit as (_ & [= -> ->] & _).
    rewrite Hcat in Hc. injection Hc as <-. simpl in Hh. congruence.
  - apply singleton_split in Hsplit as (_ & [= -> ->] & _).
    rewrite Hcat in Hc. injection Hc as <-. simpl in Hh. congruence.
Qed.

(** A file for which the front end or the catalogue throws. *)
Lemma analyzeAndUpgrade_throws (file text : string) (d : Driver CS)
  (e : exn) :
  catalogOf multiline (m_compiler d) file = Throw e ->
  exists evs,
    analyzeAndUpgrade multiline (file, text) d = (Throw e, addTrace d evs)
    /\ forallb isAnalysis evs = true.
Proof.
  intros Hc.
  pose proof (analyzeAndUpgrade_turn file text false d) as H.
  destruct (analyzeAndUpgrade multiline (file, text) d) as [r d'].
  cbn [fst snd] in H.
  inversion H as [evs Hpass Hevs
                 |before f t after e' evs Hsplit Hbefore Hcat Hevs
                 |before f t after change more pre e'
                    Hsplit Hbefore Hcat Hacc Hpre Happ
                 |before f t after change more pre applied
                    Hsplit Hbefore Hcat Hacc Hpre Happ];
    subst r d'.
  - destruct (Hpass file (or_introl eq_refl)) as (changes & Hc' & _).
    congruence.
  - apply singleton_split in Hsplit as (_ & [= -> ->] & _).
    rewrite Hcat in Hc. injection Hc as ->. exists evs. auto.
  - apply singleton_split in Hsplit as (_ & [= -> ->] & _). congruence.
  - apply singleton_split in Hsplit as (_ & [= -> ->] & _). congruence.
Qed.





(** C8: [tryCompile] returns normally for every driver and every front
    end: where the compilation phases throw, the clause that admits
    the exception prints its line and nothing leaves the function. *)
Theorem tryCompile_catches_everything (d : Driver CS) :
  fst (tryCompile d) = Ret tt
  /\ snd (tryCompile d)
     = match compilationPhases
               (addTrace d [TryCompile; Cout "Running compilation phases..."])
       with
       | (Ret _, d1) => d1
       | (Throw e, d1) => addTrace d1 [Cout (exceptionText e)]
       end.
Proof. rewrite tryCompile_run. split; reflexivity. Qed.

(** C10: with an empty error list at the head of the loop,
    [acceptUpgrade] returns at once and leaves the driver as it was:
    no file is analysed and no change applied, whatever the catalogue
    would return. *)
Theorem no_errors_no_upgrade (fuel : nat) (recompile terminate : bool)
  (d : Driver CS) :
  errors (m_compiler d) = [] ->
  acceptUpgrade_loop multiline fuel recompile terminate d = (Some (Ret tt), d)
  /\ acceptUpgrade multiline fuel d = (Some (Ret tt), d).
Proof.
  intros Herr. unfold acceptUpgrade.
  split; destruct fuel; cbn [acceptUpgrade_loop]; rewrite Herr;
    now rewrite andb_false_r.
Qed.

(** C7: in a unit whose contracts are all declared abstract, or are
    interfaces, or are fully implemented, the abstractness rule emits
    nothing and the catalogue returns no Safe record; and a turn of the
    safe-only pass over sources whose units are all such applies no
    change, leaves the snapshot map, the compiler and the disk as they
    were, and ends the loop. *)
Theorem safe_pass_finds_nothing_new :
  (forall su : SourceUnit,
      (forall c, In c (contracts su) -> isImplementedOrAbstract c) ->
      AbstractContract_analyze su = Ret []
      /\ forall changes,
           Upgrade060_analyze multiline su = Ret changes ->
           filter isSafe changes = [])
  /\ (forall d : Driver CS,
        argAcceptUnsafe (m_args d) = false ->
        (forall name, In name (map fst (m_sourceCodes d)) ->
           exists su,
             ast (m_compiler d) name = Ret su
             /\ wellLocated su
             /\ forall c, In c (contracts su) -> isImplementedOrAbstract c) ->
        exists evs,
          acceptUpgrade_iteration multiline false d
          = (Ret (false, true), addTrace d evs)
          /\ forallb isAnalysis evs = true).
Proof.
  split.
  - intros su. apply settled_unit_no_safe_record.
  - intros d Hu Hall. apply acceptUpgrade_iteration_settled.
    intros name Hn. destruct (Hall name Hn) as (su & Hast & Hw & Hc).
    destruct (Upgrade060_analyze_total multiline su Hw) as [changes Hch].
    exists changes. split.
    + unfold catalogOf. rewrite Hast. exact Hch.
    + apply no_safe_record_passes; [exact Hu|].
      exact (proj2 (settled_unit_no_safe_record multiline su Hc) changes Hch).
Qed.

(** C9: with neither flag given, the branch of [processInput] after
    the first compilation leaves the snapshot map, the compiler and the
    disk as they were and adds analysis events only (no [ApplyChange],
    no write, no compilation); where it returns, every file of the map
    was announced by [analyzeAndLog] exactly once, in map order, and
    the catalogue ran exactly once for each file (the front end having
    performed the analysis; [analyzeAndLog] does not run it before).
    Over the whole of [processInput] the disk stays as it was and no
    change is applied or written. *)
Theorem dry_run_changes_nothing (fuel : nat) (d : Driver CS) :
  argAcceptSafe (m_args d) = false ->
  argAcceptUnsafe (m_args d) = false ->
  (exists r evs,
      upgradeOrLog multiline fuel d = (Some r, addTrace d evs)
      /\ forallb isAnalysis evs = true
      /\ (r = Ret tt ->
          filter isAnnouncement evs
          = map (fun sc => announcement (fst sc)) (m_sourceCodes d)
          /\ catalogRuns evs
             = if State_geb (state (m_compiler d)) AnalysisPerformed
               then map fst (m_sourceCodes d) else []))
  /\ (exists r d' evs,
        processInput multiline fuel d = (Some r, d')
        /\ m_args d' = m_args d
        /\ disk d' = disk d
        /\ trace d' = trace d ++ evs
        /\ forallb noPatch evs = true).
Proof.
  intros Hs Hu. split.
  - now apply upgradeOrLog_dry_run.
  - destruct (processInput_dry_run fuel d Hs Hu)
      as (r & d' & Hrun & Ha & Hd & evs & Ht & He).
    exists r, d', evs. auto.
Qed.

End DriverProofs.



(** The run of the sample: one change applied in the turn, to the first
    file. *)
Lemma one_patch_then_recompile_sample :
  filter isApply
    (trace (snd (acceptUpgrade_iteration (frontEnd := Toy.contracts) false
                   false (Toy.compiled true false))))
  = [ ApplyChange "a.sol"
        (newUpgradeChange Safe
           (mkSourceLocation 0 43 (mkCharStream Toy.a_sol "a.sol"))
           "abstract contract A { function f() public virtual; }") ].
Proof. vm_compute. reflexivity. Qed.

Lemma tryCompile_catches_everything_witness :
  tryCompile (frontEnd := Toy.throwing) (Toy.start true false)
  = (Ret tt,
     addTrace (Toy.start true false)
       [TryCompile; Cout "Running compilation phases..."; Cout ": bad_alloc"]).
Proof.
  pose proof (tryCompile_catches_everything (frontEnd := Toy.throwing)
                (Toy.start true false)) as [H1 H2].
  destruct (tryCompile (frontEnd := Toy.throwing) (Toy.start true false))
    as [r d]. cbn [fst snd] in H1, H2. rewrite H1, H2. reflexivity.
Defined.

Lemma no_errors_no_upgrade_witness :
  errors (FrontEnd := Toy.silent) (m_compiler Toy.clean) = []
  /\ catalogOf (frontEnd := Toy.silent) false (m_compiler Toy.clean) "p.sol"
     = Ret [Samples.plain_record]
  /\ accepted (m_args Toy.clean) Samples.plain_record = true
  /\ acceptUpgrade (frontEnd := Toy.silent) false 5 Toy.clean
     = (Some (Ret tt), Toy.clean).
Proof.
  split; [reflexivity|]. split; [reflexivity|]. split; [reflexivity|].
  exact (proj2 (no_errors_no_upgrade (frontEnd := Toy.silent) false 5
                  false false Toy.clean eq_refl)).
Defined.

Lemma dry_run_changes_nothing_witness :
  (exists r evs,
      upgradeOrLog (frontEnd := Toy.contracts) false 5 (Toy.compiled false false)
      = (Some r, addTrace (Toy.compiled false false) evs)
      /\ forallb isAnalysis evs = true
      /\ (r = Ret tt ->
          filter isAnnouncement evs
          = [announcement "a.sol"; announcement "b.sol"]
          /\ catalogRuns evs = ["a.sol"; "b.sol"]))
  /\ (exists r d' evs,
        processInput (frontEnd := Toy.contracts) false 5 (Toy.start false false)
        = (Some r, d')
        /\ m_args d' = m_args (Toy.start false false)
        /\ disk d' = Toy.files
        /\ trace d' = trace (Toy.start false false) ++ evs
        /\ forallb noPatch evs = true).
Proof.
  split.
  - exact (proj1 (dry_run_changes_nothing (frontEnd := Toy.contracts) false 5
                    (Toy.compiled false false) eq_refl eq_refl)).
  - exact (proj2 (dry_run_changes_nothing (frontEnd := Toy.contracts) false 5
                    (Toy.start false false) eq_refl eq_refl)).
Defined.

Lemma safe_pass_finds_nothing_new_witness :
  (AbstractContract_analyze Samples.upgraded_unit = Ret []
   /\ forall changes,
        Upgrade060_analyze false Samples.upgraded_unit = Ret changes ->
        filter isSafe changes = [])
  /\ exists evs,
       acceptUpgrade_iteration (frontEnd := Toy.contracts) false false
         Toy.upgraded
       = (Ret (false, true), addTrace Toy.upgraded evs)
       /\ forallb isAnalysis evs = true.
Proof.
  split.
  - apply (proj1 (safe_pass_finds_nothing_new (frontEnd := Toy.contracts)
                    false) Samples.upgraded_unit).
    intros c [<-|[]]. left. reflexivity.
  - apply (proj2 (safe_pass_finds_nothing_new (frontEnd := Toy.contracts)
                    false) Toy.upgraded eq_refl).
    intros name [<-|[<-|[]]]; eexists; (split; [reflexivity|]);
      (split; [apply wellLocatedb_ok; reflexivity|]);
      intros c [<-|[]]; left; reflexivity.
Defined.

(** * Further properties of the rules *)

(** The list of the catalogue is made of the lists of its three
    rules, in the order in which it runs them. *)
Lemma Upgrade060_analyze_parts (multiline : bool) (su : SourceUnit)
  (changes : list UpgradeChange) :
  Upgrade060_analyze multiline su = Ret changes ->
  exists abstracts overridings virtuals,
    AbstractContract_analyze su = Ret abstracts
    /\ OverridingFunction_analyze multiline su = Ret overridings
    /\ VirtualFunction_analyze multiline su = Ret virtuals
    /\ changes = abstracts ++ overridings ++ virtuals.
Proof.
  unfold Upgrade060_analyze. intros H.
  destruct (AbstractContract_analyze su) as [xs|e]; simpl in H;
    [|discriminate].
  destruct (OverridingFunction_analyze multiline su) as [ys|e];
    simpl in H; [|discriminate].
  destruct (VirtualFunction_analyze multiline su) as [zs|e];
    simpl in H; [|discriminate].
  injection H as <-. now exists xs, ys, zs.
Qed.

Lemma AbstractContract_analyze_levels (su : SourceUnit)
  (abstracts : list UpgradeChange) :
  AbstractContract_analyze su = Ret abstracts ->
  Forall (fun c => m_level c = Safe) abstracts.
Proof.
  intros Ha. eapply visitAll_Forall; [|exact Ha]. intros n cs _ Hn.
  eapply Forall_impl; [|exact (AbstractContract_endVisit_safe _ _ Hn)].
  now intros c [Hc _].
Qed.

Lemma keyword_rules_levels (multiline : bool) (su : SourceUnit)
  (overridings virtuals : list UpgradeChange) :
  OverridingFunction_analyze multiline su = Ret overridings ->
  VirtualFunction_analyze multiline su = Ret virtuals ->
  Forall (fun c => m_level c = Unsafe) (overridings ++ virtuals).
Proof.
  intros Ho Hv. apply Forall_app. split.
  - eapply visitAll_Forall; [|exact Ho]. intros n cs _.
    apply OverridingFunction_endVisit_unsafe.
  - eapply visitAll_Forall; [|exact Hv]. intros n cs _.
    apply VirtualFunction_endVisit_unsafe.
Qed.

(** A Safe record anywhere in the list makes the front record Safe. *)
Lemma safe_record_is_front (multiline : bool) (su : SourceUnit)
  (changes : list UpgradeChange) (c : UpgradeChange) :
  Upgrade060_analyze multiline su = Ret changes ->
  In c changes -> m_level c = Safe ->
  exists front rest, changes = front :: rest /\ m_level front = Safe.
Proof.
  intros H Hin Hc.
  destruct (Upgrade060_analyze_parts multiline su changes H)
    as (xs & ys & zs & Ha & Ho & Hv & ->).
  pose proof (AbstractContract_analyze_levels su xs Ha) as Hs.
  pose proof (keyword_rules_levels multiline su ys zs Ho Hv) as Hu.
  destruct xs as [|front xs].
  - simpl in Hin. rewrite Forall_forall in Hu. rewrite (Hu c Hin) in Hc.
    discriminate.
  - exists front, (xs ++ ys ++ zs). split; [reflexivity|].
    now inversion Hs.
Qed.

(** X1: in the list the catalogue returns, the Safe records, which are
    those of the abstractness rule, stand before every Unsafe record. *)
Theorem safe_records_come_first (multiline : bool) (su : SourceUnit)
  (changes : list UpgradeChange) :
  Upgrade060_analyze multiline su = Ret changes ->
  exists safe unsafe,
    changes = safe ++ unsafe
    /\ AbstractContract_analyze su = Ret safe
    /\ Forall (fun c => m_level c = Safe) safe
    /\ Forall (fun c => m_level c = Unsafe) unsafe.
Proof.
  intros H.
  destruct (Upgrade060_analyze_parts multiline su changes H)
    as (xs & ys & zs & Ha & Ho & Hv & ->).
  exists xs, (ys ++ zs). split; [reflexivity|]. split; [exact Ha|].
  split.
  - exact (AbstractContract_analyze_levels su xs Ha).
  - exact (keyword_rules_levels multiline su ys zs Ho Hv).
Qed.

Lemma safe_records_come_first_witness :
  Upgrade060_analyze false MoreSamples.mixed_unit
  = Ret [MoreSamples.mixed_abstract_record; MoreSamples.mixed_virtual_record]
  /\ exists safe unsafe,
       [MoreSamples.mixed_abstract_record; MoreSamples.mixed_virtual_record]
       = safe ++ unsafe
       /\ AbstractContract_analyze MoreSamples.mixed_unit = Ret safe
       /\ Forall (fun c => m_level c = Safe) safe
       /\ Forall (fun c => m_level c = Unsafe) unsafe.
Proof.
  split; [reflexivity|].
  exact (safe_records_come_first false MoreSamples.mixed_unit _ eq_refl).
Defined.

Lemma length_flat_map_filter {A B} (p : A -> bool) (g : A -> B)
  (l : list A) :
  List.length (flat_map (fun x => if p x then [g x] else []) l)
  = List.length (filter p l).
Proof.
  induction l as [|x l IH]; simpl; [reflexivity|].
  destruct (p x); simpl; now rewrite IH.
Qed.

Lemma length_flat_map_app {A B} (f g : A -> list B) (l : list A) :
  List.length (flat_map (fun x => f x ++ g x) l)
  = List.length (flat_map f l) + List.length (flat_map g l).
Proof.
  induction l as [|x l IH]; simpl; [reflexivity|].
  rewrite !length_app, IH. lia.
Qed.

(** X2: for a unit with valid locations the catalogue returns, in this
    order: one record for every contract to be marked abstract; for
    every pair of a function and an inherited function, an "override"
    record where the parameter types are equal and the function has no
    override annotation, then a "virtual" record where the inherited
    function has no virtual semantics; and one "virtual" record for
    every function definition without virtual semantics, constructors
    included.  The number of records is the sum of these counts. *)
Theorem catalogue_output (multiline : bool) (su : SourceUnit) :
  wellLocated su ->
  exists changes,
    Upgrade060_analyze multiline su = Ret changes
    /\ changes
       = map abstractRecord (filter isTrigger_AbstractContract (contracts su))
         ++ flat_map (pairRecords multiline) (overridePairs su)
         ++ flat_map (virtualRecords multiline) (functions su)
    /\ List.length changes
       = List.length (filter isTrigger_AbstractContract (contracts su))
         + List.length
             (filter (fun p => super_hasEqualParameterTypes (snd p)
                               && negb (fn_overrides (fst p)))
                (overridePairs su))
         + List.length
             (filter (fun p => negb (super_virtualSemantics (snd p)))
                (overridePairs su))
         + List.length
             (filter (fun f => negb (fn_virtualSemantics f)) (functions su)).
Proof.
  intros Hw. eexists. split; [exact (Upgrade060_analyze_valid multiline su Hw)|].
  split; [reflexivity|].
  rewrite !length_app, length_map.
  unfold pairRecords, virtualRecords.
  rewrite (length_flat_map_app
             (fun p => if super_hasEqualParameterTypes (snd p)
                          && negb (fn_overrides (fst p))
                       then [keywordRecord multiline (fst p) "override"]
                       else [])
             (fun p => if negb (super_virtualSemantics (snd p))
                       then [keywordRecord multiline (fst p) "virtual"]
                       else [])).
  rewrite !length_flat_map_filter. lia.
Qed.

Lemma catalogue_output_witness :
  wellLocated MoreSamples.mixed_unit
  /\ exists changes,
       Upgrade060_analyze true MoreSamples.mixed_unit = Ret changes
       /\ changes
          = [MoreSamples.mixed_abstract_record;
             MoreSamples.mixed_virtual_record]
       /\ List.length changes = 1 + 0 + 0 + 1.
Proof.
  assert (Hw : wellLocated MoreSamples.mixed_unit)
    by (apply wellLocatedb_ok; reflexivity).
  split; [exact Hw|].
  exact (catalogue_output true MoreSamples.mixed_unit Hw).
Defined.

(** *** A header without the visibility keyword *)

Lemma no_word_no_match (kw text : string) (a1 a2 : string) :
  wordPositions kw None 0 text = [] ->
  text = (a1 ++ a2)%string ->
  matchWord kw (lastOr None a1) a2 = None.
Proof.
  intros Hp Ht.
  destruct (matchWord kw (lastOr None a1) a2) as [r|] eqn:Hm; [|reflexivity].
  pose proof (wordPositions_In kw a1 a2 r None 0 Hm) as Hin.
  rewrite <- Ht, Hp in Hin. contradiction.
Qed.

Lemma regex_replace_no_word (kw fmt text : string) :
  wordPositions kw None 0 text = [] -> regex_replace text kw fmt = text.
Proof.
  intros Hp. unfold regex_replace.
  rewrite <- (append_nil_r text) at 1.
  rewrite replaceWord_copy; [simpl; apply append_nil_r|].
  intros a1 a2 Ht _. rewrite append_nil_r.
  now apply (no_word_no_match kw text).
Qed.

Lemma isMultiline_no_word (ml : bool) (kw text : string) :
  wordPositions kw None 0 text = [] -> isMultiline ml text kw = false.
Proof.
  intros Hp. destruct (isMultiline ml text kw) eqn:Hm; [|reflexivity].
  unfold isMultiline in Hm. apply searchWordAtEnd_iff in Hm.
  destruct Hm as (a1 & a2 & r & Ht & Hr & _).
  rewrite (no_word_no_match kw text a1 a2 Hp Ht) in Hr. discriminate.
Qed.

(** X3: where the text of a function does not hold its visibility
    keyword as a whole word (a header that names no visibility),
    [placeAfterFunctionHeaderKeyword] returns the text as it is, and
    the virtual rule still emits a record for the function: a patch
    that changes nothing. *)
Theorem keyword_absent_patch_changes_nothing (multiline : bool)
  (f : FunctionInfo) (children : list ASTNode) (text keyword : string) :
  codeAt (fn_location f) = Ret text ->
  wordPositions (visibilityToString (fn_visibility f)) None 0 text = [] ->
  placeAfterFunctionHeaderKeyword multiline (fn_location f)
    (visibilityToString (fn_visibility f)) keyword
  = Ret text
  /\ (fn_virtualSemantics f = false ->
      VirtualFunction_endVisit multiline (FunctionDefinition f children)
      = Ret [ {| m_location := fn_location f;
                 m_source := cs_source (loc_source (fn_location f));
                 m_patch := text;
                 m_level := Unsafe |} ]).
Proof.
  intros Hc Hp.
  assert (Hplace : forall k,
             placeAfterFunctionHeaderKeyword multiline (fn_location f)
               (visibilityToString (fn_visibility f)) k
             = Ret text).
  { intros k. rewrite placeAfter_keywordPlaced, Hc. simpl.
    unfold keywordPlaced. now rewrite regex_replace_no_word. }
  split; [apply Hplace|].
  intros Hv. simpl. rewrite Hv, Hplace. reflexivity.
Qed.

Lemma keyword_absent_patch_changes_nothing_witness :
  VirtualFunction_endVisit false (FunctionDefinition MoreSamples.bare_f [])
  = Ret [ {| m_location := fn_location MoreSamples.bare_f;
             m_source := cs_source MoreSamples.bare_sol;
             m_patch := "function f() {}";
             m_level := Unsafe |} ].
Proof.
  exact (proj2 (keyword_absent_patch_changes_nothing false MoreSamples.bare_f
                  [] "function f() {}" "virtual" eq_refl eq_refl) eq_refl).
Defined.

(** *** Keywords made of word characters *)

Lemma stripPrefix_same (kw r : string) : stripPrefix kw (kw ++ r) = Some r.
Proof.
  induction kw as [|a kw IH]; simpl; [reflexivity|].
  now rewrite Ascii.eqb_refl.
Qed.

Lemma wordChars_first (kw : string) :
  wordChars kw = true -> kw <> "" -> forall r, isWord (first (kw ++ r)) = true.
Proof.
  destruct kw as [|c k]; [contradiction|]. simpl.
  intros H _ _. now apply andb_prop in H as [H _].
Qed.

Lemma wordChars_last (kw : string) :
  wordChars kw = true -> kw <> "" ->
  forall prev, isWord (lastOr prev kw) = true.
Proof.
  induction kw as [|c k IH]; [contradiction|]. simpl.
  intros H _ prev. apply andb_prop in H as [Hc Hk].
  destruct k as [|d k]; [exact Hc|]. apply IH; [exact Hk|discriminate].
Qed.

Lemma wordChars_prefixWord (k r : string) :
  wordChars k = true -> prefixWord (String.length k) (k ++ r) = true.
Proof.
  induction k as [|c k IH]; simpl; [reflexivity|].
  intros H. apply andb_prop in H as [-> Hk]. simpl. auto.
Qed.

Lemma atEnd_first (ml : bool) (post : string) :
  atEnd ml post = true -> isWord (first post) = false.
Proof.
  destruct post as [|c post]; simpl; [reflexivity|].
  intros H. apply andb_prop in H as [_ H].
  unfold isLineTerminator in H. unfold isWordChar.
  apply orb_prop in H as [H|H]; apply Nat.eqb_eq in H; rewrite H;
    reflexivity.
Qed.

Lemma matchWord_boundary (kw : string) (prev : option ascii) (s r : string) :
  matchWord kw prev s = Some r -> wordBoundary prev s = true.
Proof.
  unfold matchWord. destruct (wordBoundary prev s); [auto|discriminate].
Qed.

(** X4: [isMultiline] answers true exactly where the text holds the
    keyword as a whole word with [$] right after it: the end of the
    text, or in the multi-line dialect a line terminator.  With [$]
    read as the end of the input only, a text that ends in a character
    that is no word character (the closing brace or the semicolon of a
    function) is never taken for multi-line. *)
Theorem isMultiline_iff (multiline : bool) (text kw : string) :
  wordChars kw = true -> kw <> "" ->
  (isMultiline multiline text kw = true
   <-> exists pre post,
         text = (pre ++ kw ++ post)%string
         /\ isWord (lastOr None pre) = false
         /\ atEnd multiline post = true)
  /\ (forall body c,
        text = (body ++ String c "")%string -> isWordChar c = false ->
        isMultiline false text kw = false).
Proof.
  intros Hw Hne.
  assert (Hiff : forall ml,
    isMultiline ml text kw = true
    <-> exists pre post,
          text = (pre ++ kw ++ post)%string
          /\ isWord (lastOr None pre) = false
          /\ atEnd ml post = true).
  { intros ml. unfold isMultiline. rewrite searchWordAtEnd_iff. split.
    - intros (a1 & a2 & r & Ht & Hm & Hr).
      pose proof (matchWord_append kw _ a2 r Hm) as Ha2.
      pose proof (matchWord_boundary kw _ a2 r Hm) as Hb.
      exists a1, r. split; [now rewrite Ht, Ha2|]. split; [|exact Hr].
      unfold wordBoundary in Hb. rewrite Ha2, (wordChars_first kw Hw Hne) in Hb.
      now destruct (isWord (lastOr None a1)).
    - intros (pre & post & Ht & Hp & Hr).
      exists pre, (kw ++ post)%string, post. split; [exact Ht|].
      split; [|exact Hr]. unfold matchWord, wordBoundary.
      rewrite Hp, (wordChars_first kw Hw Hne), stripPrefix_same,
        (wordChars_last kw Hw Hne), (atEnd_first ml post Hr).
      reflexivity. }
  split; [apply Hiff|].
  intros body c Ht Hc.
  destruct (isMultiline false text kw) eqn:Hm; [exfalso|reflexivity].
  apply Hiff in Hm as (pre & post & Ht' & _ & Hr).
  destruct post as [|d post]; [|discriminate]. rewrite Ht in Ht'.
  apply (f_equal (lastOr None)) in Ht'. rewrite !lastOr_app in Ht'.
  simpl in Ht'.
  pose proof (wordChars_last kw Hw Hne (lastOr None pre)) as Hl.
  rewrite <- Ht' in Hl. simpl in Hl. congruence.
Qed.

Lemma isMultiline_iff_witness :
  isMultiline false "function f() public {}" "public" = false.
Proof.
  exact (proj2 (isMultiline_iff false "function f() public {}" "public"
                  eq_refl ltac:(discriminate))
           "function f() public {" "}"%char eq_refl eq_refl).
Defined.

Lemma replaceWord_length (kw fmt : string) :
  wordChars kw = true -> kw <> "" ->
  forall s prev skip i,
    prefixWord skip s = true ->
    (0 < skip -> isWord prev = true) ->
    String.length (replaceWord kw fmt prev skip s)
    + List.length (wordPositions kw prev i s) * String.length kw + skip
    = String.length s
      + List.length (wordPositions kw prev i s) * String.length fmt.
Proof.
  intros Hw Hne. induction s as [|c t IH]; intros prev skip i Hp Hprev.
  - destruct skip; [|discriminate]. cbn [replaceWord wordPositions].
    assert (Hm : matchWord kw prev "" = None).
    { unfold matchWord. destruct kw; [contradiction|]. simpl.
      now destruct (wordBoundary prev ""). }
    rewrite Hm. reflexivity.
  - destruct skip as [|k].
    + rewrite replaceWord_step. cbn [wordPositions].
      destruct (matchWord kw prev (String c t)) as [r|] eqn:Hm.
      * pose proof (matchWord_append kw _ _ r Hm) as Hs.
        destruct kw as [|c' k']; [contradiction|]. cbn [append] in Hs.
        injection Hs as -> ->. simpl in Hw. apply andb_prop in Hw as [Hc Hk].
        replace (String.length (String c' k') - 1) with (String.length k')
          by (simpl; lia).
        specialize (IH (Some c') (String.length k') (S i)
                      (wordChars_prefixWord k' r Hk) (fun _ => Hc)).
        rewrite length_append. cbn [app List.length String.length] in *.
        lia.
      * specialize (IH (Some c) 0 (S i) eq_refl
                      (fun H => False_ind _ (Nat.lt_irrefl 0 H))).
        cbn [app String.length]. lia.
    + simpl in Hp. apply andb_prop in Hp as [Hc Hp].
      specialize (Hprev (Nat.lt_0_succ k)).
      assert (Hm : matchWord kw prev (String c t) = None).
      { unfold matchWord, wordBoundary. simpl. now rewrite Hprev, Hc. }
      cbn [replaceWord wordPositions]. rewrite Hm. cbn [app String.length].
      specialize (IH (Some c) k (S i) Hp (fun _ => Hc)). lia.
Qed.

(** X5: [regex_replace] rewrites every whole-word occurrence of the
    header keyword, wherever it stands in the extracted text: the text
    that [placeAfterFunctionHeaderKeyword] builds is longer than the
    extracted one by one separator and the keyword for each
    occurrence. *)
Theorem keyword_placed_at_every_occurrence (multiline : bool)
  (text kw keyword : string) :
  wordChars kw = true -> kw <> "" ->
  String.length (keywordPlaced multiline text kw keyword)
  = String.length text
    + List.length (wordPositions kw None 0 text)
      * (1 + String.length keyword).
Proof.
  intros Hw Hne. unfold keywordPlaced, regex_replace.
  set (fmt := (kw ++ _)%string).
  pose proof (replaceWord_length kw fmt Hw Hne text None 0 0 eq_refl
                (fun H => False_ind _ (Nat.lt_irrefl 0 H))) as H.
  assert (Hf : String.length fmt = String.length kw + (1 + String.length keyword)).
  { unfold fmt. rewrite length_append.
    destruct (isMultiline multiline text kw); rewrite length_append;
      reflexivity. }
  rewrite Hf, Nat.mul_add_distr_l in H. lia.
Qed.

Lemma keyword_placed_at_every_occurrence_witness :
  keywordPlaced false MoreSamples.comment_text "public" "virtual"
  = "function f() public virtual { /* not public virtual */ }"
  /\ String.length
       (keywordPlaced false MoreSamples.comment_text "public" "virtual")
     = String.length MoreSamples.comment_text + 2 * (1 + 7).
Proof.
  split; [reflexivity|].
  exact (keyword_placed_at_every_occurrence false MoreSamples.comment_text
           "public" "virtual" eq_refl ltac:(discriminate)).
Defined.

(** *** Locations that leave the text *)

Lemma substr_throws (s : string) (pos count : Z) (e : exn) :
  substr s pos count = Throw e -> e = out_of_range.
Proof.
  unfold substr. destruct (size s <? to_size_t pos)%Z; [|discriminate].
  now intros [= <-].
Qed.

Lemma obind_throws {A B} (m : outcome A) (k : A -> outcome B) (e0 e : exn) :
  (forall e', m = Throw e' -> e' = e0) ->
  (forall a e', k a = Throw e' -> e' = e0) ->
  obind m k = Throw e -> e = e0.
Proof.
  intros Hm Hk. destruct m as [a|e']; simpl.
  - apply Hk.
  - intros [= <-]. now apply Hm.
Qed.

Lemma visitAll_throws {A B} (f : A -> outcome (list B)) (l : list A)
  (e0 e : exn) :
  (forall x e', f x = Throw e' -> e' = e0) ->
  visitAll f l = Throw e -> e = e0.
Proof.
  intros Hf. revert e. induction l as [|x l IH]; intros e; simpl;
    [discriminate|].
  apply obind_throws; [apply Hf|]. intros xs e'.
  apply obind_throws; [exact IH|]. discriminate.
Qed.

Lemma visitAll_throws_In {A B} (f : A -> outcome (list B)) (l : list A)
  (e0 : exn) (x : A) :
  (forall y e', f y = Throw e' -> e' = e0) ->
  In x l -> f x = Throw e0 -> visitAll f l = Throw e0.
Proof.
  intros Hf Hin Hx. induction l as [|y l IH]; [contradiction|]. simpl.
  destruct (f y) as [ys|e'] eqn:Hy; simpl.
  - destruct Hin as [->|Hin]; [congruence|]. now rewrite (IH Hin).
  - now rewrite (Hf y e' Hy).
Qed.

Lemma placeAfter_throws (ml : bool) (loc : SourceLocation)
  (hk k : string) (e : exn) :
  placeAfterFunctionHeaderKeyword ml loc hk k = Throw e -> e = out_of_range.
Proof.
  rewrite placeAfter_keywordPlaced.
  apply obind_throws; [apply substr_throws|discriminate].
Qed.

Lemma AbstractContract_endVisit_throws (n : ASTNode) (e : exn) :
  AbstractContract_endVisit n = Throw e -> e = out_of_range.
Proof.
  destruct n as [c subs| | | |]; simpl; try discriminate.
  destruct (isTrigger_AbstractContract c); [|discriminate].
  apply obind_throws; [apply substr_throws|discriminate].
Qed.

Lemma VirtualFunction_endVisit_throws (ml : bool) (n : ASTNode) (e : exn) :
  VirtualFunction_endVisit ml n = Throw e -> e = out_of_range.
Proof.
  destruct n as [|f ch| | |]; simpl; try discriminate.
  destruct (negb (fn_virtualSemantics f)); [|discriminate].
  apply obind_throws; [apply placeAfter_throws|discriminate].
Qed.

Lemma OverridingFunction_endVisit_throws (ml : bool) (n : ASTNode)
  (e : exn) :
  OverridingFunction_endVisit ml n = Throw e -> e = out_of_range.
Proof.
  destruct n as [c subs| | | |]; simpl; try discriminate.
  apply visitAll_throws. intros f e'. unfold OverridingFunction_function.
  destruct (negb (fn_isConstructor f)); [|discriminate].
  apply visitAll_throws. intros super e''. unfold OverridingFunction_super.
  apply obind_throws.
  - intros e3. destruct (_ && _); [|discriminate].
    apply obind_throws; [apply placeAfter_throws|discriminate].
  - intros overrides e3. apply obind_throws; [|discriminate].
    intros e4. destruct (negb _); [|discriminate].
    apply obind_throws; [apply placeAfter_throws|discriminate].
Qed.

Lemma Upgrade060_analyze_throws (ml : bool) (su : SourceUnit) (e : exn) :
  Upgrade060_analyze ml su = Throw e -> e = out_of_range.
Proof.
  unfold Upgrade060_analyze.
  apply obind_throws;
    [intros e0; apply visitAll_throws;
     apply AbstractContract_endVisit_throws|].
  intros xs e1. apply obind_throws;
    [intros e0; apply visitAll_throws;
     apply OverridingFunction_endVisit_throws|].
  intros ys e2. apply obind_throws;
    [intros e0; apply visitAll_throws;
     apply VirtualFunction_endVisit_throws|].
  discriminate.
Qed.

Lemma codeAt_badStart (loc : SourceLocation) :
  (size (cs_source (loc_source loc)) < 2 ^ 63)%Z ->
  badStart loc -> codeAt loc = Throw out_of_range.
Proof.
  unfold badStart, codeAt, substr, to_size_t. intros Hs Hb.
  set (n := size (cs_source (loc_source loc))) in *.
  set (p := loc_start loc) in *.
  assert (Hn : (0 <= n)%Z) by (unfold n, size; lia).
  assert (Hlt : (n < p mod 2 ^ 64)%Z).
  { destruct Hb as [[Hlo Hhi]|[Hlo Hhi]].
    - replace (p mod 2 ^ 64)%Z with (p + 2 ^ 64)%Z; [lia|].
      apply (Z.mod_unique _ _ (-1)); lia.
    - rewrite Z.mod_small; lia. }
  apply Z.ltb_lt in Hlt. now rewrite Hlt.
Qed.

(** X12: a location whose start is negative (the unset location has
    -1) or lies behind the end of its text makes [substr] throw
    [std::out_of_range], and no rule catches it: where the unit holds
    a function without virtual semantics, or a contract to be marked
    abstract, at such a location, the catalogue throws and returns no
    record at all. *)
Theorem bad_location_throws (multiline : bool) (su : SourceUnit) :
  (forall f children,
      In (FunctionDefinition f children) (accept su) ->
      fn_virtualSemantics f = false ->
      (size (cs_source (loc_source (fn_location f))) < 2 ^ 63)%Z ->
      badStart (fn_location f) ->
      Upgrade060_analyze multiline su = Throw out_of_range)
  /\ (forall c subNodes,
        In (ContractDefinition c subNodes) (accept su) ->
        isTrigger_AbstractContract c = true ->
        (size (cs_source (loc_source (ct_location c))) < 2 ^ 63)%Z ->
        badStart (ct_location c) ->
        Upgrade060_analyze multiline su = Throw out_of_range).
Proof.
  split.
  - intros f ch Hin Hv Hs Hb.
    destruct (Upgrade060_analyze multiline su) as [changes|e] eqn:Hu;
      [exfalso|now rewrite (Upgrade060_analyze_throws multiline su e Hu)].
    unfold Upgrade060_analyze in Hu.
    destruct (AbstractContract_analyze su); simpl in Hu; [|discriminate].
    destruct (OverridingFunction_analyze multiline su); simpl in Hu;
      [|discriminate].
    unfold VirtualFunction_analyze in Hu.
    rewrite (visitAll_throws_In (VirtualFunction_endVisit multiline)
               (accept su) out_of_range (FunctionDefinition f ch)
               (VirtualFunction_endVisit_throws multiline) Hin) in Hu;
      [discriminate|].
    simpl. rewrite Hv. simpl. rewrite placeAfter_keywordPlaced.
    now rewrite (codeAt_badStart _ Hs Hb).
  - intros c subs Hin Ht Hs Hb. unfold Upgrade060_analyze.
    unfold AbstractContract_analyze.
    rewrite (visitAll_throws_In AbstractContract_endVisit (accept su)
               out_of_range (ContractDefinition c subs)
               AbstractContract_endVisit_throws Hin); [reflexivity|].
    simpl. rewrite Ht. now rewrite (codeAt_badStart _ Hs Hb).
Qed.

Lemma bad_location_throws_witness :
  Upgrade060_analyze false MoreSamples.unset_unit = Throw out_of_range.
Proof.
  refine (proj1 (bad_location_throws false MoreSamples.unset_unit)
            MoreSamples.unset_f [] (or_introl eq_refl) eq_refl _ _).
  - vm_compute. reflexivity.
  - left. vm_compute. split; [discriminate|reflexivity].
Defined.

(** * Further properties of the maps and of the read callback *)

Lemma lookup_assign_same {V} (k : string) (v : V) (m : StringMap V) :
  lookup k (assign k v m) = Some v.
Proof.
  induction m as [|[k' v'] r IH]; simpl.
  - now rewrite String.eqb_refl.
  - destruct (String.eqb k k') eqn:He; simpl.
    + now rewrite String.eqb_refl.
    + destruct (String.ltb k k'); simpl.
      * now rewrite String.eqb_refl.
      * now rewrite He.
Qed.

Lemma lookup_assign_other {V} (k k0 : string) (v : V) (m : StringMap V) :
  k0 <> k -> lookup k0 (assign k v m) = lookup k0 m.
Proof.
  intros Hne. apply String.eqb_neq in Hne.
  induction m as [|[k' v'] r IH]; simpl.
  - now rewrite Hne.
  - destruct (String.eqb k k') eqn:He; simpl.
    + apply String.eqb_eq in He as <-. now rewrite Hne.
    + destruct (String.ltb k k'); simpl.
      * now rewrite Hne.
      * now rewrite IH.
Qed.

Lemma keys_assign {V} (k : string) (v : V) (m : StringMap V) (k0 : string) :
  In k0 (keys (assign k v m)) <-> k0 = k \/ In k0 (keys m).
Proof.
  unfold keys. induction m as [|[k' v'] r IH]; simpl.
  - intuition.
  - destruct (String.eqb k k') eqn:He; simpl.
    + apply String.eqb_eq in He as <-. intuition.
    + destruct (String.ltb k k'); simpl; [intuition|].
      rewrite IH. intuition.
Qed.

Lemma Ascii_compare_refl (a : ascii) : Ascii.compare a a = Eq.
Proof. unfold Ascii.compare. apply N.compare_refl. Qed.

Lemma Ascii_compare_trans (a b c : ascii) :
  Ascii.compare a b = Lt -> Ascii.compare b c = Lt -> Ascii.compare a c = Lt.
Proof.
  unfold Ascii.compare. rewrite !N.compare_lt_iff. apply N.lt_trans.
Qed.

Lemma String_ltb_trans (a b c : string) :
  String.ltb a b = true -> String.ltb b c = true -> String.ltb a c = true.
Proof.
  unfold String.ltb.
  assert (H : String.compare a b = Lt -> String.compare b c = Lt ->
              String.compare a c = Lt).
  { revert b c. induction a as [|x a IH]; intros [|y b] [|z c]; simpl;
      try discriminate; auto.
    destruct (Ascii.compare x y) eqn:Hxy; try discriminate;
      destruct (Ascii.compare y z) eqn:Hyz; try discriminate; intros H1 H2.
    - apply Ascii.compare_eq_iff in Hxy as ->.
      apply Ascii.compare_eq_iff in Hyz as ->.
      rewrite Ascii_compare_refl. eauto.
    - apply Ascii.compare_eq_iff in Hxy as ->. now rewrite Hyz.
    - apply Ascii.compare_eq_iff in Hyz as <-. now rewrite Hxy.
    - now rewrite (Ascii_compare_trans x y z Hxy Hyz). }
  destruct (String.compare a b); try discriminate.
  destruct (String.compare b c); try discriminate.
  now rewrite H.
Qed.

Lemma String_ltb_total (a b : string) :
  String.eqb a b = false -> String.ltb a b = false -> String.ltb b a = true.
Proof.
  unfold String.ltb. intros He Hl. rewrite String.compare_antisym.
  destruct (String.compare a b) eqn:Hc; simpl; try discriminate; auto.
  apply String.compare_eq_iff in Hc. apply String.eqb_neq in He.
  contradiction.
Qed.

Lemma keysRise_assign {V} (k : string) (v : V) (m : StringMap V) :
  keysRise m -> keysRise (assign k v m).
Proof.
  unfold keysRise. induction m as [|[k' v'] r IH]; simpl; intros Hs.
  - constructor; constructor.
  - inversion Hs as [|? ? Hr Hall]; subst.
    destruct (String.eqb k k') eqn:He.
    + apply String.eqb_eq in He as <-. simpl. now constructor.
    + destruct (String.ltb k k') eqn:Hl.
      * simpl. constructor; [exact Hs|]. constructor; [exact Hl|].
        eapply Forall_impl; [|exact Hall]. intros x Hx.
        exact (String_ltb_trans k k' x Hl Hx).
      * simpl. constructor; [now apply IH|].
        apply Forall_forall. intros x Hx.
        apply (keys_assign k v r x) in Hx as [->|Hx].
        -- now apply String_ltb_total.
        -- rewrite Forall_forall in Hall. now apply Hall.
Qed.

Lemma assignAll_keysRise (kvs : list (string * string)) :
  forall m, keysRise m -> keysRise (assignAll kvs m).
Proof.
  unfold assignAll. induction kvs as [|[k v] kvs IH]; intros m Hm; simpl;
    [exact Hm|].
  apply IH. now apply keysRise_assign.
Qed.

Lemma assignAll_keys (kvs : list (string * string)) :
  forall m k, In k (keys m) -> In k (keys (assignAll kvs m)).
Proof.
  unfold assignAll. induction kvs as [|[k v] kvs IH]; intros m k0 Hm; simpl;
    [exact Hm|].
  apply IH. apply keys_assign. now right.
Qed.

Lemma assignAll_app (l1 l2 : list (string * string)) (m : Sources) :
  assignAll (l1 ++ l2) m = assignAll l2 (assignAll l1 m).
Proof. unfold assignAll. apply fold_left_app. Qed.

(** *** The read callback *)

Lemma equalRange_prefix (a b : PathElements) :
  (List.length a <=? List.length b)%nat && equalRange a b = true
  <-> exists rest, b = a ++ rest.
Proof.
  split.
  - intros H. apply andb_prop in H as [_ H]. revert b H.
    induction a as [|x a IH]; intros b H; [now exists b|].
    destruct b as [|y b]; [discriminate|]. simpl in H.
    apply andb_prop in H as [Hxy H]. apply String.eqb_eq in Hxy as ->.
    destruct (IH b H) as [rest ->]. now exists rest.
  - intros [rest ->]. apply andb_true_intro. split.
    + apply Nat.leb_le. rewrite length_app. lia.
    + induction a as [|x a IH]; simpl; [reflexivity|].
      now rewrite String.eqb_refl.
Qed.

Lemma isAllowed_prefix (dirs : list PathElements) (p : PathElements) :
  isAllowed dirs p = true
  <-> exists dir rest, In dir dirs /\ p = dir ++ rest.
Proof.
  unfold isAllowed. rewrite existsb_exists. split.
  - intros (dir & Hin & H). apply equalRange_prefix in H as [rest ->].
    now exists dir, rest.
  - intros (dir & rest & Hin & ->). exists dir. split; [exact Hin|].
    apply equalRange_prefix. now exists rest.
Qed.

(** X6: the read callback never throws, and where it reports a failure
    the snapshot map is as it was.  With no allowed directory, which
    is the state in which [parseArguments] leaves the list when the
    option for allowed paths is not given, it refuses every path. *)
Theorem fileReader_refuses
  (weakly_canonical : string -> outcome PathElements)
  (pathString : PathElements -> string)
  (m_allowedDirectories : list PathElements) (files : Disk)
  (_path : string) (sourceCodes : Sources) :
  exists result sourceCodes',
    fileReader weakly_canonical pathString m_allowedDirectories files _path
      sourceCodes
    = Ret (result, sourceCodes')
    /\ (success result = false -> sourceCodes' = sourceCodes)
    /\ (m_allowedDirectories = [] ->
        success result = false
        /\ forall canonicalPath,
             weakly_canonical _path = Ret canonicalPath ->
             responseOrErrorMessage result
             = "File outside of allowed directories.").
Proof.
  unfold fileReader, fileReader_try.
  destruct (weakly_canonical _path) as [p|e] eqn:Hc; simpl.
  - destruct (isAllowed m_allowedDirectories p) eqn:Ha; simpl.
    + destruct (lookup (pathString p) files) as [[contents|]|] eqn:Hl;
        eexists; eexists; (split; [reflexivity|]); simpl;
        (split; [try reflexivity; discriminate|]);
        intros ->; discriminate.
    + eexists; eexists; split; [reflexivity|]. simpl.
      split; [reflexivity|]. intros _. split; [reflexivity|]. reflexivity.
  - destruct (isException e); eexists; eexists; (split; [reflexivity|]);
      simpl; (split; [reflexivity|]); intros _; (split; [reflexivity|]);
      intros p Hp; discriminate.
Qed.

Lemma fileReader_refuses_witness :
  exists result sourceCodes',
    fileReader ReadSamples.weakly_canonical ReadSamples.pathString []
      ReadSamples.files "/home/a.sol" []
    = Ret (result, sourceCodes')
    /\ success result = false
    /\ responseOrErrorMessage result = "File outside of allowed directories."
    /\ sourceCodes' = [].
Proof.
  destruct (fileReader_refuses ReadSamples.weakly_canonical
              ReadSamples.pathString [] ReadSamples.files "/home/a.sol" [])
    as (result & sourceCodes' & Hr & Hs & He).
  destruct (He eq_refl) as [Hf Hm].
  exists result, sourceCodes'. split; [exact Hr|]. split; [exact Hf|].
  split; [exact (Hm _ eq_refl)|exact (Hs Hf)].
Defined.

(** X7: the read callback reports success exactly where the canonical
    form of the path has an allowed directory as a prefix of its
    elements and names a regular file; it then returns the contents of
    that file and stores them in the snapshot map under the path as it
    was given. *)
Theorem fileReader_success
  (weakly_canonical : string -> outcome PathElements)
  (pathString : PathElements -> string)
  (m_allowedDirectories : list PathElements) (files : Disk)
  (_path : string) (sourceCodes : Sources)
  (result : ReadResult) (sourceCodes' : Sources) :
  fileReader weakly_canonical pathString m_allowedDirectories files _path
    sourceCodes
  = Ret (result, sourceCodes') ->
  (success result = true
   <-> exists canonicalPath allowedDir rest contents,
         weakly_canonical _path = Ret canonicalPath
         /\ In allowedDir m_allowedDirectories
         /\ canonicalPath = allowedDir ++ rest
         /\ lookup (pathString canonicalPath) files = Some (Regular contents))
  /\ (success result = true ->
      exists canonicalPath,
        weakly_canonical _path = Ret canonicalPath
        /\ readFile files (pathString canonicalPath)
           = Some (responseOrErrorMessage result)
        /\ sourceCodes'
           = assign _path (responseOrErrorMessage result) sourceCodes
        /\ lookup _path sourceCodes' = Some (responseOrErrorMessage result)).
Proof.
  unfold fileReader, fileReader_try, readFile.
  destruct (weakly_canonical _path) as [p|e] eqn:Hc; simpl.
  - destruct (isAllowed m_allowedDirectories p) eqn:Ha; simpl.
    + apply isAllowed_prefix in Ha as (dir & rest & Hin & Hp).
      destruct (lookup (pathString p) files) as [[contents|]|] eqn:Hl;
        intros [= <- <-]; simpl.
      * split.
        -- split; [intros _|reflexivity].
           exists p, dir, rest, contents. auto.
        -- intros _. exists p. rewrite Hl, lookup_assign_same. auto.
      * split; [split; [discriminate|]|discriminate].
        intros (p' & _ & _ & c & [= <-] & _ & _ & Hl'). congruence.
      * split; [split; [discriminate|]|discriminate].
        intros (p' & _ & _ & c & [= <-] & _ & _ & Hl'). congruence.
    + intros [= <- <-]. simpl.
      split; [split; [discriminate|]|discriminate].
      intros (p' & dir & rest & c & [= <-] & Hin & Hp & _).
      assert (Ht : isAllowed m_allowedDirectories p = true)
        by (apply isAllowed_prefix; now exists dir, rest).
      congruence.
  - destruct (isException e); intros [= <- <-]; simpl;
      (split; [split; [discriminate|]|discriminate]);
      intros (p' & _ & _ & _ & Hp & _); discriminate.
Qed.

Lemma fileReader_success_witness :
  exists canonicalPath,
    ReadSamples.weakly_canonical "/home/a.sol" = Ret canonicalPath
    /\ readFile ReadSamples.files (ReadSamples.pathString canonicalPath)
       = Some "contract A {}"
    /\ [("/home/a.sol", "contract A {}")]
       = assign "/home/a.sol" "contract A {}" []
    /\ lookup "/home/a.sol" [("/home/a.sol", "contract A {}")]
       = Some "contract A {}".
Proof.
  exact (proj2 (fileReader_success ReadSamples.weakly_canonical
                  ReadSamples.pathString [["/"; "home"]] ReadSamples.files
                  "/home/a.sol" []
                  (mkReadResult true "contract A {}")
                  [("/home/a.sol", "contract A {}")] eq_refl) eq_refl).
Defined.

(** * Further properties of the driver *)

Section ExtraDriver.

Context {CS : Type} {frontEnd : FrontEnd CS}.
Variable multiline : bool.

(** *** Reading the input files *)

Lemma assignAll_nonempty (kvs : list (string * string)) (m : Sources) :
  m <> [] -> assignAll kvs m <> [].
Proof.
  destruct m as [|[k v] m]; [contradiction|]. intros _ H.
  pose proof (assignAll_keys kvs ((k, v) :: m) k (or_introl eq_refl)) as Hin.
  rewrite H in Hin. contradiction.
Qed.

(** The loop over the paths: the flag it returns, and the map it
    leaves. *)
Lemma readInputFiles_paths_run (paths : list string) :
  forall d : Driver CS,
  exists b m' evs,
    readInputFiles_paths paths d
    = (Ret b,
       mkDriver (m_args d) m' (m_compiler d) (disk d) (unwritable d)
         (trace d ++ evs))
    /\ forallb isOutput evs = true
    /\ (argIgnoreMissingFiles (m_args d) = false ->
        b = forallb (isRegularFile (disk d)) paths)
    /\ (argIgnoreMissingFiles (m_args d) = true -> b = true)
    /\ (b = true ->
        forall k,
          lookup k m'
          = match (if existsb (String.eqb k) paths
                   then readFile (disk d) k else None)
            with
            | Some contents => Some contents
            | None => lookup k (m_sourceCodes d)
            end)
    /\ (paths = [] -> m' = m_sourceCodes d)
    /\ (exists kvs, m' = assignAll kvs (m_sourceCodes d)).
Proof.
  induction paths as [|path rest IH]; intros d; cbn [readInputFiles_paths].
  - exists true, (m_sourceCodes d), []. unfold ret. rewrite app_nil_r.
    split; [now destruct d|]. repeat split; auto. now exists [].
  - rewrite bind_get. cbv zeta. cbn [forallb existsb].
    assert (Hreg : isRegularFile (disk d) path
                   = match lookup path (disk d) with
                     | Some (Regular _) => true
                     | _ => false
                     end).
    { unfold isRegularFile, readFile.
      now destruct (lookup path (disk d)) as [[c|]|]. }
    assert (Hread : readFile (disk d) path
                    = match lookup path (disk d) with
                      | Some (Regular c) => Some c
                      | _ => None
                      end) by reflexivity.
    rewrite Hreg.
    destruct (lookup path (disk d)) as [[contents|]|] eqn:Hl.
    + unfold bind at 1. cbn [setSourceCode].
      match goal with
      | |- context [readInputFiles_paths rest ?D] =>
          destruct (IH D) as (b & m' & evs & -> & Hev & Hs & Hi & Hk & _ & Hx)
      end.
      cbn [m_args m_sourceCodes m_compiler disk trace] in *.
      exists b, m', evs. split; [reflexivity|]. split; [exact Hev|].
      split; [exact Hs|]. split; [exact Hi|]. split.
      * intros Hb k. rewrite (Hk Hb k).
        destruct (String.eqb k path) eqn:He; cbn [orb].
        -- apply String.eqb_eq in He as ->. rewrite Hread.
           destruct (existsb (String.eqb path) rest);
             [reflexivity|apply lookup_assign_same].
        -- apply String.eqb_neq in He.
           rewrite (lookup_assign_other path k contents _ He). reflexivity.
      * split; [discriminate|]. destruct Hx as [kvs ->].
        exists ((path, contents) :: kvs). reflexivity.
    + destruct (argIgnoreMissingFiles (m_args d)) eqn:Hig; cbn [negb];
        rewrite bind_emit.
      * match goal with
        | |- context [readInputFiles_paths rest ?D] =>
            destruct (IH D)
              as (b & m' & evs & -> & Hev & _ & Hi & Hk & _ & Hx)
        end.
        cbn [addTrace m_args m_sourceCodes m_compiler disk trace] in *.
        specialize (Hi Hig). subst b.
        exists true, m', (Cout (quoted path ++ " is not a valid file. Skipping.")
                          :: evs)%string.
        rewrite <- app_assoc. split; [reflexivity|]. split; [exact Hev|].
        split; [discriminate|]. split; [reflexivity|]. split.
        -- intros _ k. rewrite (Hk eq_refl k).
           destruct (String.eqb k path) eqn:He; cbn [orb]; [|reflexivity].
           apply String.eqb_eq in He as ->. rewrite Hread.
           now destruct (existsb (String.eqb path) rest).
        -- split; [discriminate|exact Hx].
      * unfold ret, addTrace.
        exists false, (m_sourceCodes d),
          [Cout (quoted path ++ " is not a valid file.")%string].
        split; [reflexivity|]. split; [reflexivity|].
        split; [reflexivity|]. split; [discriminate|].
        split; [discriminate|]. split; [discriminate|now exists []].
    + destruct (argIgnoreMissingFiles (m_args d)) eqn:Hig; cbn [negb];
        rewrite bind_emit.
      * match goal with
        | |- context [readInputFiles_paths rest ?D] =>
            destruct (IH D)
              as (b & m' & evs & -> & Hev & _ & Hi & Hk & _ & Hx)
        end.
        cbn [addTrace m_args m_sourceCodes m_compiler disk trace] in *.
        specialize (Hi Hig). subst b.
        exists true, m', (Cout (quoted path ++ " is not found. Skipping.")
                          :: evs)%string.
        rewrite <- app_assoc. split; [reflexivity|]. split; [exact Hev|].
        split; [discriminate|]. split; [reflexivity|]. split.
        -- intros _ k. rewrite (Hk eq_refl k).
           destruct (String.eqb k path) eqn:He; cbn [orb]; [|reflexivity].
           apply String.eqb_eq in He as ->. rewrite Hread.
           now destruct (existsb (String.eqb path) rest).
        -- split; [discriminate|exact Hx].
      * unfold ret, addTrace.
        exists false, (m_sourceCodes d),
          [Cout (quoted path ++ " is not found.")%string].
        split; [reflexivity|]. split; [reflexivity|].
        split; [reflexivity|]. split; [discriminate|].
        split; [discriminate|]. split; [discriminate|now exists []].
Qed.

(** [readInputFiles]: the same, with the test for an empty map. *)
Lemma readInputFiles_run (d : Driver CS) :
  exists b m' evs,
    readInputFiles d
    = (Ret b,
       mkDriver (m_args d) m' (m_compiler d) (disk d) (unwritable d)
         (trace d ++ evs))
    /\ forallb isOutput evs = true
    /\ (argIgnoreMissingFiles (m_args d) = false ->
        b = forallb (isRegularFile (disk d)) (argInputFile (m_args d))
            && match m' with [] => false | _ => true end)
    /\ (argIgnoreMissingFiles (m_args d) = true ->
        b = match m' with [] => false | _ => true end)
    /\ (b = true ->
        forall k,
          lookup k m'
          = match (if existsb (String.eqb k) (argInputFile (m_args d))
                   then readFile (disk d) k else None)
            with
            | Some contents => Some contents
            | None => lookup k (m_sourceCodes d)
            end)
    /\ (argInputFile (m_args d) = [] -> m' = m_sourceCodes d)
    /\ (exists kvs, m' = assignAll kvs (m_sourceCodes d)).
Proof.
  unfold readInputFiles. rewrite bind_get. unfold bind at 1.
  destruct (readInputFiles_paths_run (argInputFile (m_args d)) d)
    as (b & m' & evs & -> & Hev & Hs & Hi & Hk & He & Hx).
  destruct b; cbn [negb].
  - rewrite bind_get. cbn [m_sourceCodes].
    destruct m' as [|kv m'].
    + rewrite bind_emit. unfold ret, addTrace.
      cbn [m_args m_sourceCodes m_compiler disk trace].
      rewrite <- app_assoc.
      eexists false, [], _. split; [reflexivity|].
      split; [now apply forallb_app_true|].
      split; [intros H; now rewrite andb_false_r|].
      split; [reflexivity|]. split; [discriminate|]. split; [exact He|exact Hx].
    + unfold ret. exists true, (kv :: m'), evs. split; [reflexivity|].
      split; [exact Hev|].
      split; [intros H; now rewrite <- (Hs H)|].
      split; [reflexivity|]. split; [exact Hk|]. split; [exact He|exact Hx].
  - unfold ret. exists false, m', evs. split; [reflexivity|].
    split; [exact Hev|].
    split; [intros H; now rewrite <- (Hs H)|].
    split; [intros H; specialize (Hi H); discriminate|].
    split; [discriminate|]. split; [exact He|exact Hx].
Qed.

(** X8: without the flag that ignores missing files, [readInputFiles]
    returns true exactly where every path given names a regular file
    and the snapshot map is not left empty: a path that is missing or
    is no regular file keeps it from returning true, and so does a
    call with no path and an empty map. *)
Theorem readInputFiles_strict (d : Driver CS) :
  argIgnoreMissingFiles (m_args d) = false ->
  (fst (readInputFiles d) = Ret true
   <-> forallb (isRegularFile (disk d)) (argInputFile (m_args d)) = true
       /\ (argInputFile (m_args d) = [] -> m_sourceCodes d <> [])).
Proof.
  intros Hig.
  assert (H : exists b,
             fst (readInputFiles d) = Ret b
             /\ (b = true
                 <-> forallb (isRegularFile (disk d)) (argInputFile (m_args d))
                     = true
                     /\ (argInputFile (m_args d) = [] ->
                         m_sourceCodes d <> []))).
  { unfold readInputFiles. rewrite bind_get. unfold bind at 1.
    destruct (readInputFiles_paths_run (argInputFile (m_args d)) d)
      as (b & m' & evs & -> & _ & Hs & _ & Hk & He & _).
    specialize (Hs Hig). destruct b; cbn [negb].
    - rewrite bind_get. cbn [m_sourceCodes]. symmetry in Hs.
      specialize (Hk eq_refl). destruct m' as [|kv m'].
      + rewrite bind_emit. exists false. split; [reflexivity|].
        split; [discriminate|]. intros [_ Hne]. exfalso.
        destruct (argInputFile (m_args d)) as [|path rest].
        * apply (Hne eq_refl). symmetry. now apply He.
        * specialize (Hk path). cbn [existsb forallb lookup] in Hk, Hs.
          rewrite String.eqb_refl in Hk. cbn [orb] in Hk.
          apply andb_prop in Hs as [Hr _]. unfold isRegularFile in Hr.
          destruct (readFile (disk d) path); discriminate.
      + exists true. split; [reflexivity|]. split; [|reflexivity].
        intros _. split; [exact Hs|]. intros Hp. rewrite <- (He Hp).
        discriminate.
    - exists false. split; [reflexivity|]. split; [discriminate|].
      intros [Hall _]. congruence. }
  destruct H as (b & -> & Hiff). split.
  - intros [= ->]. now apply Hiff.
  - intros H. f_equal. now apply Hiff.
Qed.

(** X9: where [readInputFiles] returns true, the snapshot map holds for
    every path given that names a regular file the contents of that
    file, under the path as given, and is as it was at every other
    key; the compiler and the disk are untouched. *)
Theorem readInputFiles_stores (d : Driver CS) :
  fst (readInputFiles d) = Ret true ->
  (forall path contents,
      In path (argInputFile (m_args d)) ->
      readFile (disk d) path = Some contents ->
      lookup path (m_sourceCodes (snd (readInputFiles d))) = Some contents)
  /\ (forall k,
        ~ In k (argInputFile (m_args d)) \/ readFile (disk d) k = None ->
        lookup k (m_sourceCodes (snd (readInputFiles d)))
        = lookup k (m_sourceCodes d))
  /\ m_compiler (snd (readInputFiles d)) = m_compiler d
  /\ disk (snd (readInputFiles d)) = disk d.
Proof.
  destruct (readInputFiles_run d)
    as (b & m' & evs & -> & _ & _ & _ & Hk & _ & _). cbn [fst snd].
  intros [= ->]. specialize (Hk eq_refl).
  cbn [m_sourceCodes m_compiler disk]. split; [|split; [|split; reflexivity]].
  - intros path contents Hin Hr. rewrite Hk, Hr.
    assert (He : existsb (String.eqb path) (argInputFile (m_args d)) = true).
    { apply existsb_exists. exists path. split; [exact Hin|].
      apply String.eqb_refl. }
    now rewrite He.
  - intros k [Hn|Hn]; rewrite Hk.
    + destruct (existsb (String.eqb k) (argInputFile (m_args d))) eqn:He;
        [|reflexivity].
      apply existsb_exists in He as (x & Hx & He).
      apply String.eqb_eq in He as <-. contradiction.
    + rewrite Hn. now destruct (existsb _ _).
Qed.

(** X10: without the flag that ignores missing files, a path among
    those given that names no regular file makes [processInput] return
    false before anything is compiled or analysed: the compiler and
    the disk are as they were and the events are console output
    only. *)
Theorem missing_input_stops_processInput (fuel : nat) (d : Driver CS)
  (path : string) :
  argIgnoreMissingFiles (m_args d) = false ->
  In path (argInputFile (m_args d)) ->
  isRegularFile (disk d) path = false ->
  exists d' evs,
    processInput multiline fuel d = (Some (Ret false), d')
    /\ m_compiler d' = m_compiler d
    /\ disk d' = disk d
    /\ trace d' = trace d ++ evs
    /\ forallb isOutput evs = true.
Proof.
  intros Hig Hin Hreg. unfold processInput.
  destruct (readInputFiles_run d)
    as (b & m' & evs & -> & Hev & Hs & _ & _ & _ & _).
  specialize (Hs Hig).
  assert (Hall : forallb (isRegularFile (disk d)) (argInputFile (m_args d))
                 = false).
  { destruct (forallb (isRegularFile (disk d)) (argInputFile (m_args d)))
      eqn:Hall; [|reflexivity].
    rewrite forallb_forall in Hall. rewrite (Hall path Hin) in Hreg.
    discriminate. }
  rewrite Hall in Hs. cbn [andb] in Hs. subst b.
  eexists _, evs. split; [reflexivity|]. auto.
Qed.

(** *** The snapshot map changes by assignments only *)

Lemma extends_refl (d : Driver CS) : extends d d.
Proof. now exists []. Qed.

Lemma extends_trans (d1 d2 d3 : Driver CS) :
  extends d1 d2 -> extends d2 d3 -> extends d1 d3.
Proof.
  intros [l1 H1] [l2 H2]. exists (l1 ++ l2).
  now rewrite assignAll_app, <- H1.
Qed.

Lemma extends_same (d d' : Driver CS) :
  m_sourceCodes d' = m_sourceCodes d -> extends d d'.
Proof. intros H. now exists []. Qed.

Lemma Extending_ret {A} (a : A) : Extending (CS := CS) (ret a).
Proof. intros d. apply extends_refl. Qed.

Lemma Extending_lift {A} (o : outcome A) : Extending (CS := CS) (lift o).
Proof. intros d. apply extends_refl. Qed.

Lemma Extending_get : Extending (CS := CS) get.
Proof. intros d. apply extends_refl. Qed.

Lemma Extending_emit (e : Event) : Extending (CS := CS) (emit e).
Proof. intros d. now apply extends_same. Qed.

Lemma Extending_setCompiler (c : CS) : Extending (setCompiler c).
Proof. intros d. now apply extends_same. Qed.

Lemma Extending_setDisk (k : Disk) : Extending (CS := CS) (setDisk k).
Proof. intros d. now apply extends_same. Qed.

Lemma Extending_setSourceCode (k v : string) :
  Extending (CS := CS) (setSourceCode k v).
Proof. intros d. now exists [(k, v)]. Qed.

Lemma Extending_bind {A B} (m : M (CS := CS) A) (k : A -> M (CS := CS) B) :
  Extending m -> (forall a, Extending (k a)) -> Extending (bind m k).
Proof.
  intros Hm Hk d. unfold bind. specialize (Hm d).
  destruct (m d) as [[a|e] d1]; cbn [snd] in Hm |- *; [|exact Hm].
  eapply extends_trans; [exact Hm|apply Hk].
Qed.

Lemma Extending_forEach {A} (l : list A) (body : A -> M (CS := CS) unit) :
  (forall x, Extending (body x)) -> Extending (forEach l body).
Proof.
  intros Hb. induction l as [|x l IH]; cbn [forEach].
  - apply Extending_ret.
  - apply Extending_bind; [apply Hb|]. intros _. exact IH.
Qed.

Lemma Extending_try (body : M (CS := CS) unit) (handlers : list Handler) :
  Extending body ->
  Forall (fun h => forall e, Extending (handle h e)) handlers ->
  Extending (try_ body handlers).
Proof.
  intros Hb Hh d. unfold try_. specialize (Hb d).
  destruct (body d) as [[a|e] d1]; cbn [snd] in Hb |- *; [exact Hb|].
  eapply extends_trans; [exact Hb|]. clear Hb.
  induction Hh as [|h r Hh _ IH]; cbn [dispatch].
  - apply extends_refl.
  - destruct (admits h e); [apply Hh|exact IH].
Qed.

Ltac extending :=
  repeat first
    [ apply Extending_ret | apply Extending_lift | apply Extending_get
    | apply Extending_emit | apply Extending_setCompiler
    | apply Extending_setDisk | apply Extending_setSourceCode
    | assumption
    | apply Extending_bind; [|intros ?]
    | apply Extending_forEach; intros ?
    | match goal with
      | |- Extending (if ?b then _ else _) => destruct b
      | |- Extending (match ?x with _ => _ end) => destruct x
      end ].

Lemma Extending_callParse : Extending callParse.
Proof.
  intros d. unfold callParse.
  destruct (parse (disk d) (m_compiler d)) as [[r stack] loaded].
  now exists loaded.
Qed.

Lemma Extending_callAnalyze : Extending callAnalyze.
Proof.
  intros d. unfold callAnalyze. destruct (analyze (m_compiler d)).
  now apply extends_same.
Qed.

Lemma Extending_callCompile : Extending callCompile.
Proof.
  intros d. unfold callCompile. destruct (compile (m_compiler d)).
  now apply extends_same.
Qed.

Lemma Extending_tryCompile : Extending tryCompile.
Proof.
  unfold tryCompile. extending. apply Extending_try.
  - unfold compilationPhases, printErrors, printUnresolvableErrors.
    apply Extending_bind; [apply Extending_callParse|]. intros parsed.
    destruct parsed; [|extending].
    apply Extending_bind; [apply Extending_callAnalyze|]. intros analyzed.
    destruct analyzed; [apply Extending_callCompile|extending].
  - unfold compilationHandlers.
    repeat constructor; intros e; cbn [handle]; extending.
Qed.

Lemma Extending_resetCompiler : Extending resetCompiler.
Proof. unfold resetCompiler. extending. Qed.

Lemma Extending_resetCompilerWith : Extending resetCompilerWith.
Proof. unfold resetCompilerWith. extending. Qed.

Lemma Extending_readInputFiles : Extending (CS := CS) readInputFiles.
Proof.
  intros d. destruct (readInputFiles_run d)
    as (b & m' & evs & -> & _ & _ & _ & _ & _ & Hx).
  exact Hx.
Qed.

Lemma Extending_runCatalog (name : string) :
  Extending (runCatalog multiline name).
Proof. unfold runCatalog. extending. Qed.

Lemma Extending_analyzeAndLog (sc : string * string) :
  Extending (analyzeAndLog multiline sc).
Proof.
  unfold analyzeAndLog. extending.
Qed.

Lemma Extending_analyzeAndUpgrade (sc : string * string) :
  Extending (analyzeAndUpgrade multiline sc).
Proof.
  unfold analyzeAndUpgrade, applyChanges, writeInputFile.
  apply Extending_bind; [extending|]. intros _.
  apply Extending_bind; [apply Extending_runCatalog|]. intros changes.
  extending.
Qed.

Lemma Extending_upgradeFiles (files : Sources) :
  forall recompile changesFound,
    Extending (upgradeFiles multiline files recompile changesFound).
Proof.
  induction files as [|sc rest IH]; intros recompile changesFound;
    cbn [upgradeFiles]; [extending|].
  apply Extending_bind; [apply Extending_analyzeAndUpgrade|].
  intros result. cbv zeta. destruct (fst result); [extending|apply IH].
Qed.

Lemma Extending_acceptUpgrade_iteration (recompile : bool) :
  Extending (acceptUpgrade_iteration multiline recompile).
Proof.
  unfold acceptUpgrade_iteration. apply Extending_bind; [extending|].
  intros d0. apply Extending_bind; [apply Extending_upgradeFiles|].
  intros found. cbv zeta. apply Extending_bind; [|intros _; extending].
  destruct (fst found); [|extending].
  apply Extending_bind; [apply Extending_resetCompiler|]. intros _.
  apply Extending_tryCompile.
Qed.

Lemma extends_acceptUpgrade_loop (fuel : nat) :
  forall recompile terminate (d : Driver CS),
    extends d (snd (acceptUpgrade_loop multiline fuel recompile terminate d)).
Proof.
  induction fuel as [|fuel IH]; intros recompile terminate d;
    cbn [acceptUpgrade_loop];
    destruct (negb terminate
              && negb match errors (m_compiler d) with
                      | [] => true
                      | _ => false
                      end);
    try apply extends_refl.
  pose proof (Extending_acceptUpgrade_iteration recompile d) as H.
  destruct (acceptUpgrade_iteration multiline recompile d)
    as [[[recompile' terminate']|e] d1]; cbn [snd] in H |- *; [|exact H].
  eapply extends_trans; [exact H|apply IH].
Qed.

Lemma extends_upgradeOrLog (fuel : nat) (d : Driver CS) :
  extends d (snd (upgradeOrLog multiline fuel d)).
Proof.
  unfold upgradeOrLog. cbv zeta.
  destruct (argAcceptSafe (m_args d) || argAcceptUnsafe (m_args d)).
  - apply extends_acceptUpgrade_loop.
  - pose proof (Extending_forEach (m_sourceCodes d)
                  (analyzeAndLog multiline) Extending_analyzeAndLog d) as H.
    destruct (forEach (m_sourceCodes d) (analyzeAndLog multiline) d).
    exact H.
Qed.

Lemma extends_processInput (fuel : nat) (d : Driver CS) :
  extends d (snd (processInput multiline fuel d)).
Proof.
  unfold processInput.
  pose proof (Extending_readInputFiles d) as H1.
  destruct (readInputFiles d) as [[[|]|e] d1]; cbn [snd] in H1 |- *;
    [|exact H1|exact H1].
  assert (H2 : Extending (bind resetCompilerWith (fun _ => tryCompile))).
  { apply Extending_bind; [apply Extending_resetCompilerWith|].
    intros _. apply Extending_tryCompile. }
  specialize (H2 d1).
  destruct (bind resetCompilerWith (fun _ => tryCompile) d1) as [[[]|e] d2];
    cbn [snd] in H2 |- *; [|eapply extends_trans; eassumption].
  pose proof (extends_upgradeOrLog fuel d2) as H3.
  assert (H12 : extends d d2) by (eapply extends_trans; eassumption).
  destruct (upgradeOrLog multiline fuel d2) as [[[[]|e]|] d3];
    cbn [snd] in H3 |- *; try (eapply extends_trans; eassumption).
  match goal with
  | |- context [bind ?m ?k d3] =>
      assert (H4 : Extending (bind m k)) by extending;
      specialize (H4 d3); destruct (bind m k d3) as [r d4]
  end.
  cbn [snd] in H4 |- *.
  eapply extends_trans; [exact H12|]. eapply extends_trans; eassumption.
Qed.

(** X11: through the whole of [processInput], whatever the front end
    answers and whatever is thrown, the snapshot map only gains
    entries or has entries overwritten: no file once in the map leaves
    it, and its keys stay in strictly rising order, which is the order
    in which the loops go through the files. *)
Theorem snapshot_map_only_grows (fuel : nat) (d : Driver CS) :
  (forall name,
      In name (keys (m_sourceCodes d)) ->
      In name (keys (m_sourceCodes (snd (processInput multiline fuel d)))))
  /\ (keysRise (m_sourceCodes d) ->
      keysRise (m_sourceCodes (snd (processInput multiline fuel d)))).
Proof.
  destruct (extends_processInput fuel d) as [kvs ->]. split.
  - intros name. apply assignAll_keys.
  - apply assignAll_keysRise.
Qed.

(** *** The two ways through the files *)

Lemma loggedChanges_app (l1 l2 : list Event) :
  loggedChanges (l1 ++ l2) = loggedChanges l1 ++ loggedChanges l2.
Proof. unfold loggedChanges. apply flat_map_app. Qed.

Lemma loggedChanges_map (shorten : bool) (l : list UpgradeChange) :
  loggedChanges (map (fun c => LogChange c shorten) l) = l.
Proof.
  induction l as [|c l IH]; simpl; [reflexivity|]. now rewrite IH.
Qed.

Lemma printedErrors_app (l1 l2 : list Event) :
  printedErrors (l1 ++ l2) = printedErrors l1 ++ printedErrors l2.
Proof. unfold printedErrors. apply flat_map_app. Qed.

Lemma printedErrors_map (l : list Error) :
  printedErrors (map PrintErrorInformation l) = l.
Proof.
  induction l as [|c l IH]; simpl; [reflexivity|]. now rewrite IH.
Qed.

(** The loop over the files up to a file that throws. *)
Lemma upgradeFiles_throws (before : Sources) (file text : string)
  (after : Sources) (e : exn) :
  forall (d : Driver CS) (recompile changesFound : bool),
    (forall name, In name (map fst before) -> passes multiline d name) ->
    catalogOf multiline (m_compiler d) file = Throw e ->
    exists evs,
      upgradeFiles multiline (before ++ (file, text) :: after) recompile
        changesFound d
      = (Throw e, addTrace d evs)
      /\ forallb isAnalysis evs = true.
Proof.
  induction before as [|[f t] before IH]; intros d recompile changesFound
    Hpass Hc; cbn [app upgradeFiles]; unfold bind at 1.
  - destruct (analyzeAndUpgrade_throws multiline file text d e Hc) as (evs & -> & Hev).
    exists evs. auto.
  - destruct (analyzeAndUpgrade_passes multiline f t d
                (Hpass f (or_introl eq_refl)))
      as (evs & -> & Hev).
    cbv zeta. cbn [fst snd].
    destruct (IH (addTrace d evs) false (changesFound || false))
      as (evs' & -> & Hev').
    + intros name Hin. exact (Hpass name (or_intror Hin)).
    + exact Hc.
    + rewrite addTrace_addTrace. exists (evs ++ evs').
      split; [reflexivity|]. now apply forallb_app_true.
Qed.

(** X13: nothing in the loop of [acceptUpgrade] catches an exception of
    the analysis: where the files before it are passed over and the
    front end has no tree for a file, or the catalogue throws on it,
    the exception leaves [acceptUpgrade] in the first turn; no change
    is applied and no file is written. *)
Theorem analysis_exception_leaves_the_loop (fuel : nat) (d : Driver CS)
  (before : Sources) (file text : string) (after : Sources) (e : exn) :
  errors (m_compiler d) <> [] ->
  m_sourceCodes d = before ++ (file, text) :: after ->
  (forall name, In name (map fst before) -> passes multiline d name) ->
  catalogOf multiline (m_compiler d) file = Throw e ->
  exists evs,
    acceptUpgrade multiline (S fuel) d = (Some (Throw e), addTrace d evs)
    /\ forallb isAnalysis evs = true.
Proof.
  intros Herr Hsplit Hpass Hc. unfold acceptUpgrade.
  cbn [acceptUpgrade_loop negb andb].
  destruct (errors (m_compiler d)) as [|x xs]; [contradiction|].
  cbn [negb]. unfold acceptUpgrade_iteration. rewrite bind_get.
  unfold bind at 1. rewrite Hsplit.
  destruct (upgradeFiles_throws before file text after e d false false
              Hpass Hc) as (evs & -> & Hev).
  exists evs. auto.
Qed.

(** X14: while a Safe record stands in the list the catalogue returns
    for a file, a run that accepts only Unsafe changes passes the file
    over: [analyzeAndUpgrade] logs the front record, which is Safe,
    applies nothing and reports no change found. *)
Theorem unsafe_only_run_stops_at_safe_record (d : Driver CS)
  (file text : string) (changes : list UpgradeChange) (c : UpgradeChange) :
  argAcceptSafe (m_args d) = false ->
  catalogOf multiline (m_compiler d) file = Ret changes ->
  In c changes -> m_level c = Safe ->
  exists front rest,
    changes = front :: rest
    /\ m_level front = Safe
    /\ analyzeAndUpgrade multiline (file, text) d
       = (Ret (false, false),
          addTrace d
            [ Cout ("Analyzing and upgrading " ++ file ++ "...")%string;
              RunCatalog file;
              LogChange front (argShortLog (m_args d)) ]).
Proof.
  intros Hs Hc Hin Hl. rewrite catalogOf_unfold in Hc.
  destruct (ast (m_compiler d) file) as [su|e] eqn:Hast; [|discriminate].
  destruct (safe_record_is_front multiline su changes c Hc Hin Hl)
    as (front & rest & -> & Hf).
  exists front, rest. split; [reflexivity|]. split; [exact Hf|].
  unfold analyzeAndUpgrade, runCatalog. cbn [fst].
  rewrite bind_emit, bind_assoc, bind_get.
  change (m_compiler (addTrace d [Cout ("Analyzing and upgrading " ++ file ++ "...")%string]))
    with (m_compiler d).
  rewrite Hast, bind_assoc, bind_lift, bind_assoc, bind_emit, bind_lift, Hc.
  rewrite bind_get, bind_emit, Hf. rewrite !addTrace_addTrace. cbn [app].
  change (m_args (addTrace d
                    [Cout ("Analyzing and upgrading " ++ file ++ "...")%string;
                     RunCatalog file]))
    with (m_args d).
  rewrite Hs. reflexivity.
Qed.

(** X15: where every file of the map is passed over, one turn ends the
    loop of [acceptUpgrade] although errors still stand: a fuel of one
    is enough, and the turn adds analysis events only. *)
Theorem settled_loop_stops (fuel : nat) (d : Driver CS) :
  errors (m_compiler d) <> [] ->
  (forall name, In name (map fst (m_sourceCodes d)) ->
                passes multiline d name) ->
  exists evs,
    acceptUpgrade multiline (S fuel) d = (Some (Ret tt), addTrace d evs)
    /\ forallb isAnalysis evs = true
    /\ errors (m_compiler (addTrace d evs)) = errors (m_compiler d).
Proof.
  intros Herr Hall. unfold acceptUpgrade.
  cbn [acceptUpgrade_loop negb andb].
  destruct (errors (m_compiler d)) as [|x xs] eqn:He; [contradiction|].
  cbn [negb].
  destruct (acceptUpgrade_iteration_settled multiline d Hall)
    as (evs & -> & Hev).
  exists evs. split; [now destruct fuel|]. split; [exact Hev|exact He].
Qed.

(** X16: [analyzeAndLog] logs every record of the list the catalogue
    returns, in the order of the list, and applies none; below the
    state [AnalysisPerformed] it asks for no tree and prints the
    announcement only. *)
Theorem dry_run_logs_every_record (d : Driver CS) (file text : string) :
  (forall changes,
      State_geb (state (m_compiler d)) AnalysisPerformed = true ->
      catalogOf multiline (m_compiler d) file = Ret changes ->
      exists evs,
        analyzeAndLog multiline (file, text) d = (Ret tt, addTrace d evs)
        /\ loggedChanges evs = changes
        /\ forallb isAnalysis evs = true)
  /\ (State_geb (state (m_compiler d)) AnalysisPerformed = false ->
      analyzeAndLog multiline (file, text) d
      = (Ret tt, addTrace d [announcement file])).
Proof.
  split.
  - intros changes Hst Hc. rewrite catalogOf_unfold in Hc.
    destruct (ast (m_compiler d) file) as [su|e] eqn:Hast; [|discriminate].
    unfold analyzeAndLog, runCatalog. cbn [fst].
    rewrite bind_emit, bind_get.
    change (m_compiler (addTrace d [Cout ("Analyzing " ++ file ++ "...")%string]))
      with (m_compiler d).
    change (m_args (addTrace d [Cout ("Analyzing " ++ file ++ "...")%string]))
      with (m_args d).
    rewrite Hst, bind_assoc, bind_get.
    change (m_compiler (addTrace d [Cout ("Analyzing " ++ file ++ "...")%string]))
      with (m_compiler d).
    rewrite Hast, bind_assoc, bind_lift, bind_assoc, bind_emit, bind_lift, Hc.
    rewrite addTrace_addTrace. destruct changes as [|c cs].
    + unfold ret. eexists. split; [reflexivity|]. auto.
    + rewrite bind_emit, addTrace_addTrace.
      rewrite (forEach_emit_all
                 (fun change => LogChange change (argShortLog (m_args d)))).
      rewrite addTrace_addTrace. eexists. split; [reflexivity|].
      destruct (logged_changes (argShortLog (m_args d)) (c :: cs))
        as (H1 & _ & _).
      split.
      * rewrite loggedChanges_app. cbn [app].
        change (loggedChanges
                  (map (fun change => LogChange change (argShortLog (m_args d)))
                     (c :: cs)) = c :: cs).
        apply loggedChanges_map.
      * apply forallb_app_true; [reflexivity|exact H1].
  - intros Hst. unfold analyzeAndLog. cbn [fst].
    rewrite bind_emit, bind_get.
    change (m_compiler (addTrace d [Cout ("Analyzing " ++ file ++ "...")%string]))
      with (m_compiler d).
    rewrite Hst, bind_ret. reflexivity.
Qed.

(** *** Compiling and patching *)

(** X17: [tryCompile] prints errors only where [parse] or [analyze]
    returned false: then every error of the stack that is no warning,
    once and in order.  Where the phases ran through, or one of them
    threw, it prints no error, whatever the error list holds; and it
    never prints a warning. *)
Theorem tryCompile_prints_errors (d : Driver CS) :
  exists evs,
    trace (snd (tryCompile d)) = trace d ++ evs
    /\ printedErrors evs
       = match parse (disk d) (m_compiler d) with
         | (Ret false, stack, _) =>
             filter (fun error => negb (isWarning error)) (errors stack)
         | (Ret true, stack, _) =>
             match analyze stack with
             | (Ret false, stack') =>
                 filter (fun error => negb (isWarning error)) (errors stack')
             | _ => []
             end
         | (Throw _, _, _) => []
         end
    /\ Forall (fun error => isWarning error = false) (printedErrors evs).
Proof.
  assert (Hnw : forall l : list Error,
             Forall (fun error => isWarning error = false)
               (filter (fun error => negb (isWarning error)) l)).
  { intros l. apply Forall_forall. intros x Hx.
    apply filter_In in Hx as [_ Hx]. now destruct (isWarning x). }
  rewrite tryCompile_run. unfold compilationPhases, bind at 1.
  unfold callParse at 1.
  cbn [addTrace m_args m_sourceCodes m_compiler disk trace].
  destruct (parse (disk d) (m_compiler d)) as [[[[|]|e] stack] loaded].
  - unfold bind at 1, callAnalyze at 1.
    cbn [m_args m_sourceCodes m_compiler disk trace].
    destruct (analyze stack) as [[[|]|e] stack'].
    + unfold callCompile.
      cbn [m_args m_sourceCodes m_compiler disk trace].
      destruct (compile stack') as [[[]|e] stack''];
        cbn [snd addTrace trace]; rewrite <- ?app_assoc;
        eexists; (split; [reflexivity|]); split; [reflexivity| |reflexivity|];
        constructor.
    + rewrite printErrors_run.
      cbn [snd addTrace m_compiler trace]. rewrite <- app_assoc.
      eexists. split; [reflexivity|].
      rewrite printedErrors_app. cbn [app printedErrors flat_map].
      change (flat_map
                (fun e0 => match e0 with
                           | PrintErrorInformation x => [x]
                           | _ => []
                           end))
        with printedErrors.
      rewrite printedErrors_map. split; [reflexivity|apply Hnw].
    + cbn [snd addTrace trace]. rewrite <- app_assoc.
      eexists. split; [reflexivity|]. split; [reflexivity|constructor].
  - rewrite printUnresolvableErrors_run.
    cbn [snd addTrace m_compiler trace]. rewrite <- app_assoc.
    eexists. split; [reflexivity|].
    rewrite printedErrors_app. cbn [app printedErrors flat_map].
    change (flat_map
              (fun e0 => match e0 with
                         | PrintErrorInformation x => [x]
                         | _ => []
                         end))
      with printedErrors.
    rewrite printedErrors_map. split; [reflexivity|apply Hnw].
  - cbn [snd addTrace trace]. rewrite <- app_assoc.
    eexists. split; [reflexivity|]. split; [reflexivity|constructor].
Qed.

(** X18: where [apply] returns, [applyChanges] stores the patched text
    under the name of the file in the snapshot map, and writes it to
    the file of that name where the output stream opens on it, so that
    map and disk then agree on the file; every other entry of the map
    and of the disk is as it was, and the compiler still holds what it
    held.  Where the stream does not open nothing is written, and the
    function goes on all the same, the map then being ahead of the
    disk.  Where [apply] throws, neither map nor disk changes. *)
Theorem applyChanges_stores_and_writes (d : Driver CS) (file text : string)
  (change : UpgradeChange) :
  (forall applied,
      apply change = Ret applied ->
      exists d',
        applyChanges (file, text) change d = (Ret tt, d')
        /\ lookup file (m_sourceCodes d') = Some (m_source applied)
        /\ (opens (unwritable d) file (disk d) = true ->
            lookup file (disk d') = Some (Regular (m_source applied)))
        /\ (opens (unwritable d) file (disk d) = false -> disk d' = disk d)
        /\ (forall k, k <> file ->
              lookup k (m_sourceCodes d') = lookup k (m_sourceCodes d)
              /\ lookup k (disk d') = lookup k (disk d))
        /\ m_compiler d' = m_compiler d)
  /\ (forall e,
        apply change = Throw e ->
        applyChanges (file, text) change d
        = (Throw e, addTrace d [ApplyChange file change])).
Proof.
  split.
  - intros applied Happ. unfold applyChanges, writeInputFile. cbn [fst].
    rewrite bind_emit, bind_lift, Happ.
    unfold bind, emit, get, setSourceCode, setDisk, ret, addTrace.
    cbn [m_args m_sourceCodes m_compiler disk unwritable trace].
    eexists. split; [reflexivity|].
    cbn [m_args m_sourceCodes m_compiler disk unwritable trace].
    split; [apply lookup_assign_same|]. unfold writeFile.
    split; [|split; [|split; [|reflexivity]]].
    + intros ->. apply lookup_assign_same.
    + now intros ->.
    + intros k Hk. split; [now apply lookup_assign_other|].
      destruct (opens (unwritable d) file (disk d));
        [now apply lookup_assign_other|reflexivity].
  - intros e Happ. unfold applyChanges. cbn [fst].
    now rewrite bind_emit, bind_lift, Happ.
Qed.


End ExtraDriver.

Lemma readInputFiles_strict_witness :
  fst (readInputFiles (Toy.start false false)) = Ret true.
Proof.
  exact (proj2 (readInputFiles_strict (Toy.start false false) eq_refl)
           (conj eq_refl
              (fun H : ["a.sol"; "b.sol"] = [] =>
                 False_ind _ (nil_cons (eq_sym H))))).
Defined.

Lemma readInputFiles_stores_witness :
  lookup "b.sol"
    (m_sourceCodes (snd (readInputFiles (Toy.start false false))))
  = Some Toy.b_sol.
Proof.
  exact (proj1 (readInputFiles_stores (Toy.start false false) eq_refl)
           "b.sol" Toy.b_sol (or_intror (or_introl eq_refl)) eq_refl).
Defined.

Lemma missing_input_stops_processInput_witness :
  exists d' evs,
    processInput (frontEnd := Toy.contracts) false 3 ReadSamples.missing
    = (Some (Ret false), d')
    /\ m_compiler d' = m_compiler ReadSamples.missing
    /\ disk d' = disk ReadSamples.missing
    /\ trace d' = trace ReadSamples.missing ++ evs
    /\ forallb isOutput evs = true.
Proof.
  exact (missing_input_stops_processInput (frontEnd := Toy.contracts) false 3
           ReadSamples.missing "c.sol" eq_refl (or_intror (or_introl eq_refl))
           eq_refl).
Defined.

Lemma snapshot_map_only_grows_witness :
  keysRise
    (m_sourceCodes
       (snd (processInput (frontEnd := Toy.contracts) false 5
               (Toy.start true false)))).
Proof.
  exact (proj2 (snapshot_map_only_grows (frontEnd := Toy.contracts) false 5
                  (Toy.start true false))
           (Sorted.SSorted_nil _)).
Defined.

Lemma analysis_exception_leaves_the_loop_witness :
  exists evs,
    acceptUpgrade (frontEnd := Toy.throwing) false 1 DriverSamples.unparsed
    = (Some (Throw (DevException "Parsing not yet performed.")),
       addTrace DriverSamples.unparsed evs)
    /\ forallb isAnalysis evs = true.
Proof.
  refine (analysis_exception_leaves_the_loop (frontEnd := Toy.throwing)
            false 0 DriverSamples.unparsed [] "a.sol" Toy.a_sol []
            (DevException "Parsing not yet performed.") _ eq_refl _ eq_refl).
  - discriminate.
  - intros name [].
Defined.

Lemma unsafe_only_run_stops_at_safe_record_witness :
  exists front rest,
    [DriverSamples.a_record] = front :: rest
    /\ m_level front = Safe
    /\ analyzeAndUpgrade (frontEnd := Toy.contracts) false
         ("a.sol", Toy.a_sol) (Toy.compiled false true)
       = (Ret (false, false),
          addTrace (Toy.compiled false true)
            [ Cout "Analyzing and upgrading a.sol...";
              RunCatalog "a.sol";
              LogChange front false ]).
Proof.
  refine (unsafe_only_run_stops_at_safe_record (frontEnd := Toy.contracts)
            false (Toy.compiled false true) "a.sol" Toy.a_sol
            [DriverSamples.a_record] DriverSamples.a_record eq_refl _
            (or_introl eq_refl) eq_refl).
  vm_compute. reflexivity.
Defined.

Lemma settled_loop_stops_witness :
  exists evs,
    acceptUpgrade (frontEnd := Toy.contracts) false 1 (Toy.compiled false true)
    = (Some (Ret tt), addTrace (Toy.compiled false true) evs)
    /\ forallb isAnalysis evs = true
    /\ @errors _ Toy.contracts
         (m_compiler (addTrace (Toy.compiled false true) evs))
       = @errors _ Toy.contracts (m_compiler (Toy.compiled false true)).
Proof.
  refine (settled_loop_stops (frontEnd := Toy.contracts) false 0
            (Toy.compiled false true) _ _).
  - discriminate.
  - intros name [<-|[<-|[]]]; eexists; split; vm_compute; reflexivity.
Defined.

Lemma dry_run_logs_every_record_witness :
  exists evs,
    analyzeAndLog (frontEnd := Toy.contracts) false ("a.sol", Toy.a_sol)
      (Toy.compiled false false)
    = (Ret tt, addTrace (Toy.compiled false false) evs)
    /\ loggedChanges evs = [DriverSamples.a_record]
    /\ forallb isAnalysis evs = true.
Proof.
  refine (proj1 (dry_run_logs_every_record (frontEnd := Toy.contracts) false
                   (Toy.compiled false false) "a.sol" Toy.a_sol)
            [DriverSamples.a_record] eq_refl _).
  vm_compute. reflexivity.
Defined.

Lemma applyChanges_stores_and_writes_witness :
  exists d',
    applyChanges ("a.sol", Toy.a_sol) DriverSamples.a_record
      DriverSamples.readOnly
    = (Ret tt, d')
    /\ lookup "a.sol" (m_sourceCodes d')
       = Some (m_source DriverSamples.a_applied)
    /\ (opens (unwritable DriverSamples.readOnly) "a.sol"
          (disk DriverSamples.readOnly) = true ->
        lookup "a.sol" (disk d')
        = Some (Regular (m_source DriverSamples.a_applied)))
    /\ (opens (unwritable DriverSamples.readOnly) "a.sol"
          (disk DriverSamples.readOnly) = false ->
        disk d' = disk DriverSamples.readOnly)
    /\ (forall k, k <> "a.sol" ->
          lookup k (m_sourceCodes d')
          = lookup k (m_sourceCodes DriverSamples.readOnly)
          /\ lookup k (disk d') = lookup k (disk DriverSamples.readOnly))
    /\ m_compiler d' = m_compiler DriverSamples.readOnly.
Proof.
  refine (proj1 (applyChanges_stores_and_writes DriverSamples.readOnly
                   "a.sol" Toy.a_sol DriverSamples.a_record)
            DriverSamples.a_applied _).
  vm_compute. reflexivity.
Defined.
